(** * Spatial statistics core of [refugia_analysis.py]

    A shallow embedding of the four statistical routines of the analysis
    script ([haversine_distance], [compute_spatial_weights],
    [calculate_morans_i], [permutation_test]) together with the properties
    that their specification states about them, and of the functions
    around them: the region classifier ([classify_region], [is_refugia]),
    the counts ([calculate_baseline], [calculate_enrichment]) and the
    per-feature driver ([analyze_feature]).

    The routines are written once, over an interface [PyFloat] that lists
    the operations the Python code applies to [float] values.  Two
    instances are given: exact real arithmetic ([R], the reading under
    which the formulas of the specification are meant) and IEEE binary64
    ([PrimFloat.float], the arithmetic CPython runs).

    Conventions of the embedding:
    - a function that can raise returns a [result]; the exceptions are the
      three that the code can meet ([IndexError], [ZeroDivisionError],
      [ValueError]);
    - Python [int] is [Z] (the value vector is a [List[int]]), [len] and
      loop indices are [nat]; an [int] that meets a [float] is converted
      with [f_of_Z];
    - a [for] loop over [range(n)] is a monadic fold over [range n], with
      the variables that the loop assigns as its accumulator;
    - [sum] is a left fold from 0, [list.sort] is a stable sort that
      compares keys with [<] only, [max(x, y)] is [x] unless [y > x];
    - [random.shuffle] and the generator state of [random] are parameters
      of [permutation_test] and of [analyze_feature], which returns the
      state it leaves;
    - a [str] is a [string]; the [defaultdict(int)] of the counting loops
      is a [gmap string Z] whose reads insert a missing key; a dictionary
      that a function returns with fixed keys is a record with a field per
      key, and the [baseline_stats] argument of [analyze_feature] is such
      a record;
    - a quotient of two [int]s is the quotient of their conversions. *)

From Stdlib Require Import ZArith Reals Lra Lia.
From Stdlib Require PrimFloat Uint63 String.
From stdpp Require Import base tactics option list sorting strings gmap.

Set Default Proof Using "Type".

(** ** Exceptions and the result monad *)

Inductive exn : Set :=
| IndexError
| ZeroDivisionError
| ValueError.

Inductive result (A : Type) : Type :=
| Ok (a : A)
| Raise (e : exn).
Arguments Ok {A} a.
Arguments Raise {A} e.

#[global] Instance result_ret : MRet result := fun _ a => Ok a.
#[global] Instance result_bind : MBind result := fun _ _ f m =>
  match m with
  | Ok a => f a
  | Raise e => Raise e
  end.

(** Monadic left fold: the body of a [for] loop threaded through a list of
    iterates; an exception in an iteration leaves the loop. *)
Fixpoint foldM {A B : Type} (f : B → A → result B) (b : B) (l : list A) : result B :=
  match l with
  | [] => Ok b
  | x :: l' => b' ← f b x; foldM f b' l'
  end.

(** [for x in l] collecting one value per iteration. *)
Fixpoint mapM_res {A B : Type} (f : A → result B) (l : list A) : result (list B) :=
  match l with
  | [] => Ok []
  | x :: l' => y ← f x; ys ← mapM_res f l'; Ok (y :: ys)
  end.

(** [range(n)] for a length [n]. *)
Definition range (n : nat) : list nat := seq 0 n.

(** [l[i]] for a non-negative index: [IndexError] past the end. *)
Definition get_item {A : Type} (l : list A) (i : nat) : result A :=
  match l !! i with
  | Some x => Ok x
  | None => Raise IndexError
  end.

(** [l[i] = v] for a non-negative index: [IndexError] past the end. *)
Definition set_item {A : Type} (l : list A) (i : nat) (v : A) : result (list A) :=
  if decide (i < length l)%nat then Ok (<[i := v]> l) else Raise IndexError.

(** [l[:k]] for a Python integer [k]: the first [k] items when [k >= 0],
    all but the last [-k] items when [k < 0]. *)
Definition slice_to {A : Type} (l : list A) (k : Z) : list A :=
  if decide (0 ≤ k)%Z then take (Z.to_nat k) l
  else take (Z.to_nat (Z.of_nat (length l) + k)) l.

(** [collections.defaultdict(int)] with string keys, as [region_counts]
    uses it: reading a missing key inserts it with the value 0. *)
Definition dd_getitem (d : gmap string Z) (key : string) : Z * gmap string Z :=
  match d !! key with
  | Some v => (v, d)
  | None => (0%Z, <[key := 0%Z]> d)
  end.

(** [d[key] += 1] *)
Definition dd_incr (d : gmap string Z) (key : string) : gmap string Z :=
  let '(v, d) := dd_getitem d key in <[key := (v + 1)%Z]> d.

(** [sum(d[r] for r in keys)], with the dictionary that the reads leave. *)
Definition dd_sum (d : gmap string Z) (keys : list string) : Z * gmap string Z :=
  foldl (fun '(acc, d) r => let '(v, d) := dd_getitem d r in ((acc + v)%Z, d))
        (0%Z, d) keys.

(** ** The float interface *)

Class PyFloat (F : Type) : Type := {
  f_of_Z : Z → F;            (** [float(i)], and integer-valued literals *)
  f_tenth : F;               (** the literal [0.1] *)
  f_half : F;                (** the literal [0.5] *)
  f_add : F → F → F;
  f_sub : F → F → F;
  f_mul : F → F → F;
  f_div : F → F → F;         (** quotient, used with a nonzero divisor *)
  f_pow : F → nat → F;       (** [x ** k] for a literal exponent *)
  f_abs : F → F;
  f_eqb : F → F → bool;
  f_ltb : F → F → bool;
  f_leb : F → F → bool;
  m_radians : F → F;
  m_sin : F → F;
  m_cos : F → F;
  m_sqrt : F → F;            (** root, used with a non-negative argument *)
  m_atan2 : F → F → F;
  m_erf : F → F;
}.

Declare Scope pyf_scope.
Delimit Scope pyf_scope with pf.
Notation "x + y" := (f_add x y) : pyf_scope.
Notation "x - y" := (f_sub x y) : pyf_scope.
Notation "x * y" := (f_mul x y) : pyf_scope.
Notation "x / y" := (f_div x y) : pyf_scope.
Notation "x ** k" := (f_pow x k) (at level 30, right associativity) : pyf_scope.
Notation "x <? y" := (f_ltb x y) : pyf_scope.
Notation "x <=? y" := (f_leb x y) : pyf_scope.
Notation "x =? y" := (f_eqb x y) : pyf_scope.
Notation "# z" := (f_of_Z z%Z) (at level 9, format "# z") : pyf_scope.

(** [class Language(NamedTuple)] *)
Record Language (F : Type) : Type := mkLanguage {
  code : String.string;
  name : String.string;
  latitude : F;
  longitude : F;
  value : Z;
  description : String.string;
}.
Arguments mkLanguage {F}.
Arguments code {F}.
Arguments name {F}.
Arguments latitude {F}.
Arguments longitude {F}.
Arguments value {F}.
Arguments description {F}.

(** A data point that carries coordinates only. *)
Definition point {F : Type} (lat lon : F) : Language F :=
  mkLanguage String.EmptyString String.EmptyString lat lon 0%Z String.EmptyString.

(** [class FeatureData(NamedTuple)] *)
Record FeatureData (F : Type) : Type := mkFeatureData {
  feature_id : string;
  feature_name : string;
  languages : list (Language F);
}.
Arguments mkFeatureData {F}.
Arguments feature_id {F}.
Arguments feature_name {F}.
Arguments languages {F}.

(** The dictionary that [calculate_baseline] returns, a field per key. *)
Record Baseline (F : Type) : Type := mkBaseline {
  b_total : nat;
  b_americas : Z;
  b_sahul : Z;
  b_caucasus : Z;
  b_non_refugia : Z;
  b_refugia_total : Z;
  b_refugia_percentage : F;
  b_region_counts : gmap string Z;
}.
Arguments mkBaseline {F}.
Arguments b_total {F}.
Arguments b_americas {F}.
Arguments b_sahul {F}.
Arguments b_caucasus {F}.
Arguments b_non_refugia {F}.
Arguments b_refugia_total {F}.
Arguments b_refugia_percentage {F}.
Arguments b_region_counts {F}.

(** The dictionary that [calculate_enrichment] returns. *)
Record Enrichment (F : Type) : Type := mkEnrichment {
  e_total : nat;
  e_americas : Z;
  e_sahul : Z;
  e_caucasus : Z;
  e_non_refugia : Z;
  e_refugia_total : Z;
  e_refugia_percentage : F;
  e_non_refugia_percentage : F;
  e_enrichment_factor : F;
  e_region_counts : gmap string Z;
}.
Arguments mkEnrichment {F}.
Arguments e_total {F}.
Arguments e_americas {F}.
Arguments e_sahul {F}.
Arguments e_caucasus {F}.
Arguments e_non_refugia {F}.
Arguments e_refugia_total {F}.
Arguments e_refugia_percentage {F}.
Arguments e_non_refugia_percentage {F}.
Arguments e_enrichment_factor {F}.
Arguments e_region_counts {F}.

(** The dictionary that [analyze_feature] returns; [permutation_p] is
    [None] when no permutation test was run. *)
Record Analysis (F : Type) : Type := mkAnalysis {
  a_feature_id : string;
  a_feature_name : string;
  a_feature_label : string;
  a_target_values : list Z;
  a_total_languages : nat;
  a_target_count : nat;
  a_target_percentage : F;
  a_enrichment : Enrichment F;
  a_morans_i : F;
  a_z_score : F;
  a_p_value : F;
  a_permutation_p : option F;
  a_target_languages : list (Language F);
}.
Arguments mkAnalysis {F}.
Arguments a_feature_id {F}.
Arguments a_feature_name {F}.
Arguments a_feature_label {F}.
Arguments a_target_values {F}.
Arguments a_total_languages {F}.
Arguments a_target_count {F}.
Arguments a_target_percentage {F}.
Arguments a_enrichment {F}.
Arguments a_morans_i {F}.
Arguments a_z_score {F}.
Arguments a_p_value {F}.
Arguments a_permutation_p {F}.
Arguments a_target_languages {F}.

Section Core.
Context {F : Type} `{PyFloat F}.
Local Open Scope pyf_scope.

(** [x / y] with a divisor that is not a nonzero literal. *)
Definition py_div (x y : F) : result F :=
  if y =? #0 then Raise ZeroDivisionError else Ok (x / y).

(** [math.sqrt(x)]: a [ValueError] (math domain error) below zero. *)
Definition py_sqrt (x : F) : result F :=
  if x <? #0 then Raise ValueError else Ok (m_sqrt x).

(** [max(x, y)] of two floats: the first unless the second is greater. *)
Definition py_max (x y : F) : F := if x <? y then y else x.

(** [sum(l)] of floats. *)
Definition py_sum (l : list F) : F := foldl f_add #0 l.

(** *** Regions and enrichment *)

Definition classify_region (lat lng : F) : string :=
  if lng <? #(-30) then "americas"
  else if (#37 <? lat) && (lat <? #45) && ((#37 <? lng) && (lng <? #50))
  then "caucasus"
  else if (#110 <? lng) && (lat <? #3) then
    if (#(-11) <? lat) && (lat <? #3) then
      if #125 <? lng then "sahul" else "non_refugia"
    else "sahul"
  else "non_refugia".

Definition is_refugia (lat lng : F) : bool :=
  negb (String.eqb (classify_region lat lng) "non_refugia").

(** The counting loop that opens [calculate_baseline] and
    [calculate_enrichment]. *)
Definition count_regions (langs : list (Language F)) : gmap string Z :=
  foldl (fun region_counts lang =>
    let region := classify_region (latitude lang) (longitude lang) in
    dd_incr region_counts region) ∅ langs.

(** [100 * refugia_count / total if total > 0 else 0] *)
Definition percentage (refugia_count : Z) (total : nat) : result F :=
  if decide (0 < total)%nat
  then py_div #(100 * refugia_count) #(Z.of_nat total)
  else Ok #0.

Definition calculate_baseline (all_languages : list (Language F))
  : result (Baseline F) :=
  let region_counts := count_regions all_languages in
  let total := length all_languages in
  let '(refugia_count, region_counts) :=
    dd_sum region_counts ["americas"; "sahul"; "caucasus"] in
  let '(americas, region_counts) := dd_getitem region_counts "americas" in
  let '(sahul, region_counts) := dd_getitem region_counts "sahul" in
  let '(caucasus, region_counts) := dd_getitem region_counts "caucasus" in
  let '(non_refugia, region_counts) := dd_getitem region_counts "non_refugia" in
  refugia_percentage ← percentage refugia_count total;
  Ok (mkBaseline total americas sahul caucasus non_refugia refugia_count
                 refugia_percentage region_counts).

Definition calculate_enrichment (target_languages : list (Language F))
    (baseline_refugia_pct : F) : result (Enrichment F) :=
  let region_counts := count_regions target_languages in
  let total := length target_languages in
  let '(refugia_count, region_counts) :=
    dd_sum region_counts ["americas"; "sahul"; "caucasus"] in
  refugia_pct ← percentage refugia_count total;
  enrichment ← (if #0 <? baseline_refugia_pct
                then py_div refugia_pct baseline_refugia_pct
                else Ok #0);
  let '(americas, region_counts) := dd_getitem region_counts "americas" in
  let '(sahul, region_counts) := dd_getitem region_counts "sahul" in
  let '(caucasus, region_counts) := dd_getitem region_counts "caucasus" in
  let '(non_refugia, region_counts) := dd_getitem region_counts "non_refugia" in
  Ok (mkEnrichment total americas sahul caucasus non_refugia refugia_count
                   refugia_pct (#100 - refugia_pct) enrichment region_counts).

Definition haversine_distance (lat1 lon1 lat2 lon2 : F) : result F :=
  let R := #6371 in
  let lat1_rad := m_radians lat1 in
  let lat2_rad := m_radians lat2 in
  let delta_lat := m_radians (lat2 - lat1) in
  let delta_lon := m_radians (lon2 - lon1) in
  let a := (m_sin (delta_lat / #2)) ** 2 +
           m_cos lat1_rad * m_cos lat2_rad * (m_sin (delta_lon / #2)) ** 2 in
  sa ← py_sqrt a;
  sb ← py_sqrt (#1 - a);
  let c := #2 * m_atan2 sa sb in
  Ok (R * c).

(** *** Weights builder *)

(** The inner loop of [compute_spatial_weights] for point [i]: the list
    [distances] of pairs [(j, dist)] over the other points, in index order. *)
Definition distances_of (languages : list (Language F)) (i : nat)
  : result (list (nat * F)) :=
  foldM (fun distances j =>
    if decide (i ≠ j) then
      li ← get_item languages i;
      lj ← get_item languages j;
      dist ← haversine_distance (latitude li) (longitude li)
                                (latitude lj) (longitude lj);
      Ok (distances ++ [(j, dist)])
    else Ok distances) [] (range (length languages)).

(** [distances.sort(key=lambda x: x[1])]: [list.sort] is stable and
    compares keys with [<] only. *)
Fixpoint insert_by_dist (x : nat * F) (l : list (nat * F)) : list (nat * F) :=
  match l with
  | [] => [x]
  | y :: l' => if y.2 <? x.2 then y :: insert_by_dist x l' else x :: y :: l'
  end.

Fixpoint sort_by_dist (l : list (nat * F)) : list (nat * F) :=
  match l with
  | [] => []
  | x :: l' => insert_by_dist x (sort_by_dist l')
  end.

(** [neighbors = distances[:k]] after the sort. *)
Definition neighbors_of (languages : list (Language F)) (k : Z) (i : nat)
  : result (list (nat * F)) :=
  distances ← distances_of languages i;
  Ok (slice_to (sort_by_dist distances) k).

(** [weights[i][j] = v] *)
Definition set_item2 (weights : list (list F)) (i j : nat) (v : F)
  : result (list (list F)) :=
  row ← get_item weights i;
  row' ← set_item row j v;
  set_item weights i row'.

(** [weights[i][j]] *)
Definition get_item2 (weights : list (list F)) (i j : nat) : result F :=
  row ← get_item weights i;
  get_item row j.

Definition assign_weights (inverse_distance : bool) (i : nat)
    (weights : list (list F)) (neighbors : list (nat * F))
  : result (list (list F)) :=
  if inverse_distance then
    foldM (fun weights '(j, dist) =>
      w ← py_div #1 (py_max dist f_tenth);
      set_item2 weights i j w) weights neighbors
  else
    foldM (fun weights '(j, dist) => set_item2 weights i j #1) weights neighbors.

Definition row_standardize (n : nat) (weights : list (list F))
  : result (list (list F)) :=
  foldM (fun weights i =>
    row ← get_item weights i;
    let row_sum := py_sum row in
    if #0 <? row_sum then
      foldM (fun weights j =>
        x ← get_item2 weights i j;
        q ← py_div x row_sum;
        set_item2 weights i j q) weights (range n)
    else Ok weights) weights (range n).

Definition compute_spatial_weights (languages : list (Language F)) (k : Z)
    (inverse_distance : bool) : result (list (list F)) :=
  let n := length languages in
  let weights := replicate n (replicate n #0) in
  weights ← foldM (fun weights i =>
    neighbors ← neighbors_of languages k i;
    assign_weights inverse_distance i weights neighbors) weights (range n);
  row_standardize n weights.

(** *** Autocorrelation calculator *)

Definition sum_Z (l : list Z) : Z := foldl Z.add 0%Z l.

Definition calculate_morans_i (languages : list (Language F)) (values : list Z)
    (weights : list (list F)) : result (F * F * F) :=
  let n := length values in
  let nz := Z.of_nat n in
  if decide (n < 3)%nat then Ok (#0, #0, #1) else
  mean_val ← py_div #(sum_Z values) #nz;
  let deviations := map (fun v => #v - mean_val) values in
  let sum_sq_dev := py_sum (map (fun d => d ** 2) deviations) in
  if sum_sq_dev =? #0 then Ok (#0, #0, #1) else
  '(numerator, W) ← foldM (fun acc i =>
    foldM (fun '(numerator, W) j =>
      if decide (i ≠ j) then
        wij ← get_item2 weights i j;
        di ← get_item deviations i;
        dj ← get_item deviations j;
        Ok (numerator + wij * di * dj, W + wij)
      else Ok (numerator, W)) acc (range n)) (#0, #0) (range n);
  if W =? #0 then Ok (#0, #0, #1) else
  q1 ← py_div #nz W;
  q2 ← py_div numerator sum_sq_dev;
  let I := q1 * q2 in
  E_I ← py_div #(-1) #(nz - 1);
  '(S1, S2) ← foldM (fun '(S1, S2) i =>
    row ← get_item weights i;
    let row_sum := py_sum row in
    col ← mapM_res (fun j => get_item2 weights j i) (range n);
    let col_sum := py_sum col in
    let S2 := S2 + (row_sum + col_sum) ** 2 in
    S1 ← foldM (fun S1 j =>
      wij ← get_item2 weights i j;
      wji ← get_item2 weights j i;
      Ok (S1 + (wij + wji) ** 2)) S1 (range n);
    Ok (S1, S2)) (#0, #0) (range n);
  let S1 := S1 / #2 in
  m2 ← py_div sum_sq_dev #nz;
  m4 ← py_div (py_sum (map (fun d => d ** 4) deviations)) #nz;
  b2 ← (if #0 <? m2 then py_div m4 (m2 ** 2) else Ok #3);
  let A := #nz * (#(nz ^ 2 - 3 * nz + 3) * S1 - #nz * S2 + #3 * W ** 2) in
  let B := b2 * (#(nz ^ 2 - nz) * S1 - #(2 * nz) * S2 + #6 * W ** 2) in
  let C := #((nz - 1) * (nz - 2) * (nz - 3)) * W ** 2 in
  if C =? #0 then Ok (I, #0, #1) else
  q ← py_div (A - B) C;
  let var_I := q - E_I ** 2 in
  if var_I <=? #0 then Ok (I, #0, #1) else
  sv ← py_sqrt var_I;
  z ← py_div (I - E_I) sv;
  s2 ← py_sqrt #2;
  t ← py_div (f_abs z) s2;
  let p := #2 * (#1 - f_half * (#1 + m_erf t)) in
  Ok (I, z, p).

(** *** Permutation tester *)

Section Permutation_test.
(** The module-level generator of [random]: its state, and what
    [random.shuffle] does to a list and to that state. *)
Context {G : Type} (shuffle : G → list Z → list Z * G).

Definition permutation_test (languages : list (Language F)) (values : list Z)
    (weights : list (list F)) (n_permutations : Z) (g : G)
  : result (F * F * G) :=
  '(observed_I, _, _) ← calculate_morans_i languages values weights;
  '(more_extreme, g) ← foldM (fun '(more_extreme, g) _ =>
    let '(shuffled_values, g) := shuffle g values in
    '(perm_I, _, _) ← calculate_morans_i languages shuffled_values weights;
    if f_abs observed_I <=? f_abs perm_I
    then Ok ((more_extreme + 1)%Z, g)
    else Ok (more_extreme, g)) (0%Z, g) (range (Z.to_nat n_permutations));
  p_value ← py_div #(more_extreme + 1) #(n_permutations + 1);
  Ok (observed_I, p_value, g).

(** *** Analysis of one feature *)

Definition analyze_feature (feature_data : FeatureData F)
    (target_values : list Z) (feature_label : string)
    (baseline_stats : Baseline F) (k_neighbors : Z) (run_permutation : bool)
    (n_permutations : Z) (g : G) : result (Analysis F * G) :=
  let target_langs :=
    filter (fun l => value l ∈ target_values) (languages feature_data) in
  let binary_values :=
    map (fun l => if decide (value l ∈ target_values) then 1%Z else 0%Z)
        (languages feature_data) in
  enrichment ← calculate_enrichment target_langs
                  (b_refugia_percentage baseline_stats);
  '(morans_i, z_score, p_value, perm_p, g) ←
    (if decide (5 ≤ length (languages feature_data))%nat then
       weights ← compute_spatial_weights (languages feature_data) k_neighbors true;
       '(morans_i, z_score, p_value) ←
         calculate_morans_i (languages feature_data) binary_values weights;
       if run_permutation && bool_decide (3 ≤ length target_langs)%nat then
         '(_, perm_p, g) ←
           permutation_test (languages feature_data) binary_values weights
                            n_permutations g;
         Ok (morans_i, z_score, p_value, Some perm_p, g)
       else Ok (morans_i, z_score, p_value, None, g)
     else Ok (#0, #0, #1, None, g));
  target_percentage ←
    py_div #(100 * Z.of_nat (length target_langs))
           #(Z.of_nat (length (languages feature_data)));
  Ok (mkAnalysis (feature_id feature_data) (feature_name feature_data)
        feature_label target_values (length (languages feature_data))
        (length target_langs) target_percentage enrichment
        morans_i z_score p_value perm_p target_langs, g).

End Permutation_test.

End Core.

(** ** Exact real arithmetic *)

#[global] Instance Rlt_decision (x y : R) : Decision (x < y)%R := Rlt_dec x y.
#[global] Instance Rle_decision (x y : R) : Decision (x <= y)%R := Rle_dec x y.
#[global] Instance Req_decision (x y : R) : Decision (x = y) := Req_dec_T x y.

(** [math.atan2(y, x)] on the reals. *)
Definition Ratan2 (y x : R) : R :=
  if decide (0 < x)%R then atan (y / x)
  else if decide (x < 0)%R then
    if decide (0 <= y)%R then (atan (y / x) + PI)%R else (atan (y / x) - PI)%R
  else if decide (0 < y)%R then (PI / 2)%R
  else if decide (y < 0)%R then (- (PI / 2))%R
  else 0%R.

(** The real-number reading of the float operations; [math.erf] is the one
    library function the real-number library does not provide. *)
Definition R_float (erf : R → R) : PyFloat R := {|
  f_of_Z := IZR;
  f_tenth := (1 / 10)%R;
  f_half := (1 / 2)%R;
  f_add := Rplus;
  f_sub := Rminus;
  f_mul := Rmult;
  f_div := Rdiv;
  f_pow := pow;
  f_abs := Rabs;
  f_eqb := fun x y => bool_decide (x = y);
  f_ltb := fun x y => bool_decide (x < y)%R;
  f_leb := fun x y => bool_decide (x <= y)%R;
  m_radians := fun x => (x * (PI / 180))%R;
  m_sin := sin;
  m_cos := cos;
  m_sqrt := sqrt;
  m_atan2 := Ratan2;
  m_erf := erf;
|}.

(** ** IEEE binary64 arithmetic *)

Module Binary64.
Import PrimFloat.

Definition of_Z (z : Z) : float :=
  match z with
  | Z0 => zero
  | Zpos p => of_uint63 (Uint63.of_pos p)
  | Zneg p => opp (of_uint63 (Uint63.of_pos p))
  end.

(** The arithmetic of CPython floats: the basic operations, comparisons and
    the square root are those of IEEE 754; [sin], [cos], [atan2], [erf] and
    [pow] are the functions of the platform's C library. *)
Definition B64_float (libm_sin libm_cos libm_erf : float → float)
    (libm_atan2 libm_pow : float → float → float) : PyFloat float := {|
  f_of_Z := of_Z;
  f_tenth := 0x1.999999999999ap-4%float;
  f_half := 0x1p-1%float;
  f_add := add;
  f_sub := sub;
  f_mul := mul;
  f_div := div;
  f_pow := fun x k => libm_pow x (of_Z (Z.of_nat k));
  f_abs := abs;
  f_eqb := eqb;
  f_ltb := ltb;
  f_leb := leb;
  m_radians := fun x => mul x 0x1.1df46a2529d39p-6%float;
  m_sin := libm_sin;
  m_cos := libm_cos;
  m_sqrt := sqrt;
  m_atan2 := libm_atan2;
  m_erf := libm_erf;
|}.

(** Values of the C library's [sin], [cos] and [pow] at the arguments that
    occur for the points (-8, 0) and (8, 180). *)
Definition table_sin (x : float) : float :=
  if eqb x 0x1.1df46a2529d39p-3 then 0x1.1d06c968d9e19p-3%float else 1%float.
Definition table_cos (x : float) : float := 0x1.fb046a930947ap-1%float.
Definition table_pow (x y : float) : float :=
  if eqb x 1 then 1%float else 0x1.3d581ca184804p-6%float.

End Binary64.

(** ** Sample inputs *)

(** A stand-in for [math.erf]: no property below depends on which function
    it is. *)
Definition erf0 : R → R := fun _ => 0%R.

(** A generator without state whose shuffle reverses the list. *)
Definition reverse_shuffle (g : unit) (x : list Z) : list Z * unit := (reverse x, g).

Definition x_clustered : list Z := [1; 1; 1; 0; 0]%Z.
Definition x_interleaved : list Z := [1; 0; 1; 0; 1]%Z.

(** ** The specification's quantities over the reals *)

Local Open Scope R_scope.

(** [sigma n f] is the finite sum of [f i] over [0 <= i < n]. *)
Fixpoint sigma (n : nat) (f : nat → R) : R :=
  match n with
  | O => 0
  | S m => sigma m f + f m
  end.

(** [w_ij]: entry of the weights matrix (0 outside it). *)
Definition entry (W : list (list R)) (i j : nat) : R :=
  match W !! i with
  | Some row => default 0 (row !! j)
  | None => 0
  end.

(** The weights matrix is square, of the size of the value vector. *)
Definition square (n : nat) (W : list (list R)) : Prop :=
  length W = n ∧ Forall (fun row => length row = n) W.

Definition x_at (x : list Z) (i : nat) : Z := default 0%Z (x !! i).
Definition mean (x : list Z) : R := IZR (sum_Z x) / INR (length x).
(** [d_i = x_i − mean(x)] *)
Definition dev (x : list Z) (i : nat) : R := IZR (x_at x i) - mean x.
(** [Σ_i d_i²] *)
Definition sum_sq_dev (x : list Z) : R := sigma (length x) (fun i => dev x i ^ 2).
(** [W_total = Σ w_ij] over [i ≠ j] *)
Definition W_total (n : nat) (W : list (list R)) : R :=
  sigma n (fun i => sigma n (fun j => if decide (i ≠ j) then entry W i j else 0)).
(** [Σ_i Σ_{j≠i} w_ij d_i d_j] *)
Definition cross_product (x : list Z) (W : list (list R)) : R :=
  sigma (length x) (fun i => sigma (length x) (fun j =>
    if decide (i ≠ j) then entry W i j * dev x i * dev x j else 0)).
(** [I = (N / W_total) · [Σ_i Σ_{j≠i} w_ij d_i d_j] / [Σ_i d_i²]] *)
Definition morans_I (x : list Z) (W : list (list R)) : R :=
  INR (length x) / W_total (length x) W * (cross_product x W / sum_sq_dev x).
(** [E[I] = −1/(N−1)] *)
Definition expected_I (n : nat) : R := -1 / (INR n - 1).
(** [S1 = ½ Σ_i Σ_j (w_ij + w_ji)²] *)
Definition S1 (n : nat) (W : list (list R)) : R :=
  sigma n (fun i => sigma n (fun j => (entry W i j + entry W j i) ^ 2)) / 2.
(** [S2 = Σ_i (row_sum_i + col_sum_i)²] *)
Definition S2 (n : nat) (W : list (list R)) : R :=
  sigma n (fun i => (sigma n (fun j => entry W i j) + sigma n (fun j => entry W j i)) ^ 2).
(** [b2 = (Σd_i⁴/N) / (Σd_i²/N)²] *)
Definition b2 (x : list Z) : R :=
  (sigma (length x) (fun i => dev x i ^ 4) / INR (length x))
  / (sum_sq_dev x / INR (length x)) ^ 2.
Definition var_A (x : list Z) (W : list (list R)) : R :=
  let n := length x in let N := INR n in
  N * ((N ^ 2 - 3 * N + 3) * S1 n W - N * S2 n W + 3 * W_total n W ^ 2).
Definition var_B (x : list Z) (W : list (list R)) : R :=
  let n := length x in let N := INR n in
  b2 x * ((N ^ 2 - N) * S1 n W - 2 * N * S2 n W + 6 * W_total n W ^ 2).
Definition var_C (x : list Z) (W : list (list R)) : R :=
  let n := length x in let N := INR n in
  (N - 1) * (N - 2) * (N - 3) * W_total n W ^ 2.
(** [var(I) = (A − B)/C − E[I]²] *)
Definition var_I (x : list Z) (W : list (list R)) : R :=
  (var_A x W - var_B x W) / var_C x W - expected_I (length x) ^ 2.

(** The value vector is constant: any two of its items are equal. *)
Definition constant (x : list Z) : Prop := ∀ v1 v2, v1 ∈ x → v2 ∈ x → v1 = v2.

(** ** The Distance Engine over the reals *)

(** The haversine term [a] of two points given in degrees. *)
Definition hav_a (lat1 lon1 lat2 lon2 : R) : R :=
  sin ((lat2 - lat1) * (PI / 180) / 2) ^ 2 +
  cos (lat1 * (PI / 180)) * cos (lat2 * (PI / 180)) *
  sin ((lon2 - lon1) * (PI / 180) / 2) ^ 2.

(** The distance as a function of the haversine term. *)
Definition arc (a : R) : R := 6371 * (2 * Ratan2 (sqrt a) (sqrt (1 - a))).

Definition great_circle (lat1 lon1 lat2 lon2 : R) : R :=
  arc (hav_a lat1 lon1 lat2 lon2).

(** ** The Weights Builder over the reals *)

Definition lang_at (languages : list (Language R)) (i : nat) : Language R :=
  default (point 0 0) (languages !! i).

(** Distance between points [i] and [j] of the point set. *)
Definition dist (languages : list (Language R)) (i j : nat) : R :=
  great_circle (latitude (lang_at languages i)) (longitude (lang_at languages i))
               (latitude (lang_at languages j)) (longitude (lang_at languages j)).

(** The [N - 1] candidates of point [i], in index order. *)
Definition candidates (languages : list (Language R)) (i : nat) : list (nat * R) :=
  map (fun j => (j, dist languages i j))
      (filter (fun j => i ≠ j) (range (length languages))).

(** Candidates in the order of the original indices. *)
Definition index_lt (p q : nat * R) : Prop := (p.1 < q.1)%nat.

(** Ascending distance, ties broken by ascending original index. *)
Definition nearer (p q : nat * R) : Prop :=
  p.2 < q.2 ∨ (p.2 = q.2 ∧ (p.1 < q.1)%nat).

(** ** Five points on one parallel *)

(** Five points at longitudes 0, 1, 2, 3, 4 on the parallel [lat]. *)
Definition line_points (lat : R) : list (Language R) :=
  [point lat 0; point lat 1; point lat 2; point lat 3; point lat 4].

(** Distance along the parallel [lat] between longitudes [delta] apart. *)
Definition parallel_dist (lat delta : R) : R :=
  arc (cos (lat * (PI / 180)) ^ 2 * sin (delta * (PI / 180) / 2) ^ 2).

(** Distance between two of the five points, [m] degrees of longitude apart. *)
Definition pd (lat : R) (m : nat) : R := parallel_dist lat (INR m).

(** The row-standardized matrix of the five points for [k = 2]: [a] and
    [b] are the shares of the nearest and of the second nearest neighbor
    of an end point. *)
Definition line_matrix (a b : R) : list (list R) :=
  [[0; a; b; 0; 0];
   [1 / 2; 0; 1 / 2; 0; 0];
   [0; 1 / 2; 0; 1 / 2; 0];
   [0; 0; 1 / 2; 0; 1 / 2];
   [0; 0; b; a; 0]].

(** ** Regions and features *)

(** The region of a data point. *)
Definition region_of {F : Type} `{PyFloat F} (l : Language F) : string :=
  classify_region (latitude l) (longitude l).

(** Number of data points of a list that fall into region [r]. *)
Definition in_region {F : Type} `{PyFloat F} (r : string)
    (langs : list (Language F)) : nat :=
  length (filter (fun l => region_of l = r) langs).

(** The four values of [classify_region]. *)
Definition region_names : list string :=
  ["americas"; "sahul"; "caucasus"; "non_refugia"].

(** The data points that carry one of the target values, and the 0/1
    vector that marks them: the two comprehensions of [analyze_feature]. *)
Definition target_langs {F : Type} (target_values : list Z)
    (langs : list (Language F)) : list (Language F) :=
  filter (fun l => value l ∈ target_values) langs.

Definition binary_values {F : Type} (target_values : list Z)
    (langs : list (Language F)) : list Z :=
  map (fun l => if decide (value l ∈ target_values) then 1%Z else 0%Z) langs.

(** ** Quantities that depend on the arithmetic instance *)

Section Reals_model.
Context (erf : R → R).
#[local] Instance Rf : PyFloat R := R_float erf.

(** The module-level generator of [random]: its state, and what
    [random.shuffle] does to a list and to that state. *)
Context {G : Type} (shuffle : G → list Z → list Z * G).

(** [Φ]: the standard normal distribution function, by [erf]. *)
Definition Phi (t : R) : R := 1 / 2 * (1 + erf (t / sqrt 2)).

Definition z_score (x : list Z) (W : list (list R)) : R :=
  (morans_I x W - expected_I (length x)) / sqrt (var_I x W).
Definition p_two_tailed (z : R) : R := 2 * (1 - Phi (Rabs z)).

(** The six steps of the Autocorrelation Calculator, as the specification
    lists them. *)
Definition morans_spec (x : list Z) (W : list (list R)) : R * R * R :=
  let n := length x in
  if decide (n < 3)%nat then (0, 0, 1)
  else if decide (sum_sq_dev x = 0) then (0, 0, 1)
  else if decide (W_total n W = 0) then (0, 0, 1)
  else if decide (var_C x W = 0) then (morans_I x W, 0, 1)
  else if decide (var_I x W <= 0) then (morans_I x W, 0, 1)
  else (morans_I x W, z_score x W, p_two_tailed (z_score x W)).

Definition neighbors (languages : list (Language R)) (k : Z) (i : nat)
  : list (nat * R) :=
  slice_to (sort_by_dist (candidates languages i)) k.

(** Raw weight of a neighbor at distance [d]. *)
Definition raw_weight (inverse_distance : bool) (d : R) : R :=
  if inverse_distance then 1 / py_max d (1 / 10) else 1.

Definition assign_row (inverse_distance : bool) (row : list R)
    (nb : list (nat * R)) : list R :=
  foldl (fun row '(j, d) => <[j := raw_weight inverse_distance d]> row) row nb.

Definition raw_row (languages : list (Language R)) (k : Z)
    (inverse_distance : bool) (i : nat) : list R :=
  assign_row inverse_distance (replicate (length languages) 0)
             (neighbors languages k i).

Definition normalize_row (row : list R) : list R :=
  if decide (0 < py_sum row) then map (fun w => w / py_sum row) row else row.

Definition weights_matrix (languages : list (Language R)) (k : Z)
    (inverse_distance : bool) : list (list R) :=
  map (fun i => normalize_row (raw_row languages k inverse_distance i))
      (range (length languages)).

(** The statistic that [calculate_morans_i] returns (0 if it raises). *)
Definition statistic (languages : list (Language R)) (x : list Z)
    (W : list (list R)) : R :=
  match calculate_morans_i languages x W with
  | Ok (stat, _, _) => stat
  | Raise _ => 0
  end.

(** The first [m] shuffled copies of [x] drawn from generator state [g],
    and the state that is left. *)
Fixpoint shuffles (m : nat) (g : G) (x : list Z) : list (list Z) * G :=
  match m with
  | O => ([], g)
  | S m' =>
    let '(y, g1) := shuffle g x in
    let '(ys, g2) := shuffles m' g1 x in
    (y :: ys, g2)
  end.

(** Number of shuffled copies whose statistic is at least as extreme as
    the observed one. *)
Definition count_extreme (languages : list (Language R)) (x : list Z)
    (W : list (list R)) (perms : list (list Z)) : nat :=
  length (filter (fun y => Rabs (statistic languages x W)
                           <= Rabs (statistic languages y W)) perms).

(** [random.shuffle] rearranges the list it is given. *)
Hypothesis shuffle_perm : ∀ g x, (shuffle g x).1 ≡ₚ x.

(** ** Tactics *)

Ltac decide_nat :=
  repeat first [rewrite decide_True by lia | rewrite decide_False by lia].

Ltac eval_sums :=
  cbn [length sigma lookup list_lookup default foldl];
  decide_nat; unfold Datatypes.id; rewrite ?plus_IZR;
  change (INR 5) with (1 + 1 + 1 + 1 + 1).

Ltac Rops :=
  cbn [Rf R_float f_of_Z f_tenth f_half f_add f_sub f_mul f_div f_pow f_abs
       f_eqb f_ltb f_leb m_radians m_sin m_cos m_sqrt m_atan2 m_erf] in *.

Ltac eval_sort :=
  repeat first
    [ rewrite bool_decide_eq_true_2 by (cbn [fst snd]; lra)
    | rewrite bool_decide_eq_false_2 by (cbn [fst snd]; lra)
    | progress cbn [sort_by_dist insert_by_dist f_ltb Rf R_float fst snd] ].

(** ** Generic facts about the loops *)

Lemma foldM_app {A B : Type} (f : B → A → result B) (b : B) (l1 l2 : list A) :
  foldM f b (l1 ++ l2) = foldM f b l1 ≫= fun b' => foldM f b' l2.
Proof.
  revert b. induction l1 as [|x l1 IH]; intros b; [reflexivity|].
  cbn. destruct (f b x) as [b'|e]; cbn; [apply IH | reflexivity].
Qed.

Lemma foldM_ext {A B : Type} (f g : B → A → result B) (b : B) (l : list A) :
  (∀ b x, x ∈ l → f b x = g b x) → foldM f b l = foldM g b l.
Proof.
  revert b. induction l as [|x l IH]; intros b Hfg; [reflexivity|].
  cbn. rewrite Hfg by left. destruct (g b x) as [b'|e]; cbn; [|reflexivity].
  apply IH. intros b0 y Hy. apply Hfg. by right.
Qed.

Lemma mapM_res_pure {A B : Type} (f : A → result B) (g : A → B) (l : list A) :
  (∀ x, x ∈ l → f x = Ok (g x)) → mapM_res f l = Ok (map g l).
Proof.
  induction l as [|x l IH]; intros Hf; [reflexivity|].
  cbn. rewrite Hf by left. cbn. rewrite IH; [reflexivity|].
  intros y Hy. apply Hf. by right.
Qed.

Lemma range_S (n : nat) : range (S n) = range n ++ [n].
Proof. unfold range. by rewrite seq_S. Qed.

Lemma length_range (n : nat) : length (range n) = n.
Proof. apply length_seq. Qed.

Lemma elem_of_range (n i : nat) : i ∈ range n ↔ (i < n)%nat.
Proof. unfold range. rewrite elem_of_seq. lia. Qed.

Lemma get_item_Some {A : Type} (l : list A) (i : nat) (x : A) :
  l !! i = Some x → get_item l i = Ok x.
Proof. unfold get_item. by intros ->. Qed.

Lemma set_item_lt {A : Type} (l : list A) (i : nat) (v : A) :
  (i < length l)%nat → set_item l i v = Ok (<[i := v]> l).
Proof. intros Hi. unfold set_item. by rewrite decide_True. Qed.

(** ** Sums and the calculator's loops *)

Lemma py_div_R (x y : R) : y ≠ 0 → py_div x y = Ok (x / y).
Proof. intros Hy. unfold py_div. Rops. by rewrite bool_decide_eq_false_2. Qed.

Lemma py_div_R0 (x : R) : py_div x 0 = Raise ZeroDivisionError.
Proof. unfold py_div. Rops. by rewrite bool_decide_eq_true_2. Qed.

Lemma py_sqrt_R (x : R) : 0 <= x → py_sqrt x = Ok (sqrt x).
Proof.
  intros Hx. unfold py_sqrt. Rops. rewrite bool_decide_eq_false_2; [done | lra].
Qed.

Lemma py_sum_acc (l : list R) (a : R) : foldl Rplus a l = a + foldl Rplus 0 l.
Proof.
  revert a. induction l as [|y l IH]; intros a; cbn; [lra|].
  rewrite (IH (a + y)), (IH (0 + y)). lra.
Qed.

Lemma py_sum_cons (y : R) (l : list R) : py_sum (y :: l) = y + py_sum l.
Proof. unfold py_sum. Rops. cbn. rewrite py_sum_acc. lra. Qed.

Lemma py_sum_snoc (l : list R) (y : R) : py_sum (l ++ [y]) = py_sum l + y.
Proof. unfold py_sum. Rops. by rewrite foldl_app. Qed.

Lemma py_sum_map_range (n : nat) (f : nat → R) : py_sum (map f (range n)) = sigma n f.
Proof.
  induction n as [|n IH]; [reflexivity|].
  rewrite range_S, map_app. cbn [map]. rewrite py_sum_snoc, IH. reflexivity.
Qed.

Lemma sigma_ext (n : nat) (f g : nat → R) :
  (∀ i, (i < n)%nat → f i = g i) → sigma n f = sigma n g.
Proof.
  induction n as [|n IH]; intros Hfg; [reflexivity|].
  cbn. rewrite IH, Hfg by (intros; auto with lia). reflexivity.
Qed.

Lemma py_sum_lookup (l : list R) :
  py_sum l = sigma (length l) (fun j => default 0 (l !! j)).
Proof.
  induction l as [|y l IH] using rev_ind; [reflexivity|].
  rewrite py_sum_snoc, length_app, Nat.add_1_r. cbn [sigma].
  rewrite list_lookup_middle by reflexivity. cbn [default].
  rewrite IH. f_equal. apply sigma_ext. intros i Hi.
  by rewrite lookup_app_l.
Qed.

Lemma py_sum_map_Z (g : Z → R) (x : list Z) :
  py_sum (map g x) = sigma (length x) (fun i => g (x_at x i)).
Proof.
  rewrite py_sum_lookup, length_map. apply sigma_ext. intros i Hi.
  unfold x_at. rewrite list_lookup_fmap.
  destruct (lookup_lt_is_Some_2 x i Hi) as [v ->]. reflexivity.
Qed.

Lemma square_lookup (n : nat) (W : list (list R)) (i : nat) :
  square n W → (i < n)%nat → ∃ row, W !! i = Some row ∧ length row = n.
Proof.
  intros [Hlen Hrows] Hi.
  destruct (lookup_lt_is_Some_2 W i) as [row Hrow]; [lia|].
  exists row. split; [done|]. by eapply (Forall_lookup_1 _ _ _ _ Hrows).
Qed.

Lemma get_item2_square (n : nat) (W : list (list R)) (i j : nat) :
  square n W → (i < n)%nat → (j < n)%nat → get_item2 W i j = Ok (entry W i j).
Proof.
  intros HW Hi Hj. destruct (square_lookup n W i HW Hi) as (row & Hrow & Hlen).
  unfold get_item2, entry. rewrite (get_item_Some _ _ _ Hrow), Hrow. cbn.
  destruct (lookup_lt_is_Some_2 row j) as [v Hv]; [lia|].
  rewrite (get_item_Some _ _ _ Hv), Hv. reflexivity.
Qed.

Lemma row_sum_square (n : nat) (W : list (list R)) (i : nat) (row : list R) :
  square n W → W !! i = Some row → py_sum row = sigma n (fun j => entry W i j).
Proof.
  intros [Hlen Hrows] Hrow. rewrite py_sum_lookup.
  rewrite (Forall_lookup_1 _ _ _ _ Hrows Hrow).
  apply sigma_ext. intros j _. unfold entry. by rewrite Hrow.
Qed.

Lemma get_item_dev (x : list Z) (m : R) (i : nat) :
  (i < length x)%nat →
  get_item (map (fun v => IZR v - m) x) i = Ok (IZR (x_at x i) - m).
Proof.
  intros Hi. apply get_item_Some. rewrite list_lookup_fmap. unfold x_at.
  destruct (lookup_lt_is_Some_2 x i Hi) as [v ->]. reflexivity.
Qed.

(** A loop over [range m] that adds one term to each of two accumulators. *)
Lemma foldM_range_acc2 (m : nat) (f : R * R → nat → result (R * R)) (u v : nat → R) :
  (∀ a b j, (j < m)%nat → f (a, b) j = Ok (a + u j, b + v j)) →
  ∀ a b, foldM f (a, b) (range m) = Ok (a + sigma m u, b + sigma m v).
Proof.
  induction m as [|m IH]; intros Hf a b.
  - cbn. do 2 f_equal; lra.
  - rewrite range_S, foldM_app, IH by (intros; apply Hf; lia).
    cbn. rewrite Hf by lia. cbn. do 2 f_equal; lra.
Qed.

Lemma foldM_range_acc (m : nat) (f : R → nat → result R) (u : nat → R) :
  (∀ a j, (j < m)%nat → f a j = Ok (a + u j)) →
  ∀ a, foldM f a (range m) = Ok (a + sigma m u).
Proof.
  induction m as [|m IH]; intros Hf a.
  - cbn. f_equal; lra.
  - rewrite range_S, foldM_app, IH by (intros; apply Hf; lia).
    cbn. rewrite Hf by lia. cbn. f_equal; lra.
Qed.

Lemma IZR_sq (z : Z) : IZR (z ^ 2) = IZR z ^ 2.
Proof. replace (z ^ 2)%Z with (z * z)%Z by lia. rewrite mult_IZR. ring. Qed.

Lemma sum_sq_dev_nonneg (x : list Z) : 0 <= sum_sq_dev x.
Proof.
  unfold sum_sq_dev. generalize (length x) as n.
  induction n as [|n IH]; cbn [sigma]; [lra|].
  pose proof (pow2_ge_0 (dev x n)). lra.
Qed.

Lemma calculate_morans_i_spec (languages : list (Language R)) (x : list Z)
    (W : list (list R)) :
  square (length x) W →
  calculate_morans_i languages x W = Ok (morans_spec x W).
Proof.
  intros HW. unfold calculate_morans_i, morans_spec.
  set (n := length x) in *.
  destruct (decide (n < 3)%nat) as [Hn|Hn]; [reflexivity|].
  assert (HN : IZR (Z.of_nat n) = INR n) by (symmetry; apply INR_IZR_INZ).
  assert (HN3 : 3 <= INR n) by (rewrite <- HN; apply IZR_le; lia).
  Rops. rewrite ?minus_IZR, ?plus_IZR, ?mult_IZR, ?minus_IZR, ?IZR_sq, ?mult_IZR, ?HN.
  rewrite (py_div_R (IZR (sum_Z x))) by lra. cbn [mbind result_bind].
  change (IZR (sum_Z x) / INR n) with (mean x).
  rewrite map_map.
  rewrite (py_sum_map_Z (fun v => (IZR v - mean x) ^ 2) x).
  change (sigma (length x) (fun i => (IZR (x_at x i) - mean x) ^ 2)) with (sum_sq_dev x).
  case_bool_decide as Hssd; [by rewrite decide_True|].
  rewrite (decide_False (P := sum_sq_dev x = 0)) by done.
  match goal with |- foldM ?f _ _ ≫= _ = _ =>
    rewrite (foldM_range_acc2 n f
      (fun i => sigma n (fun j =>
         if decide (i ≠ j) then entry W i j * dev x i * dev x j else 0))
      (fun i => sigma n (fun j => if decide (i ≠ j) then entry W i j else 0)))
  end.
  2:{ intros a b i Hi. apply foldM_range_acc2. intros a' b' j Hj.
      destruct (decide (i ≠ j)); [|do 2 f_equal; lra].
      rewrite (get_item2_square n), !get_item_dev by done. reflexivity. }
  cbn [mbind result_bind]. rewrite !Rplus_0_l.
  change (sigma n (fun i => sigma n (fun j =>
    if decide (i ≠ j) then entry W i j else 0))) with (W_total n W).
  change (sigma n (fun i => sigma n (fun j =>
    if decide (i ≠ j) then entry W i j * dev x i * dev x j else 0)))
    with (cross_product x W).
  case_bool_decide as HW0; [by rewrite decide_True|].
  rewrite (decide_False (P := W_total n W = 0)) by done.
  rewrite !py_div_R by lra. cbn [mbind result_bind].
  match goal with |- foldM ?f _ _ ≫= _ = _ =>
    rewrite (foldM_range_acc2 n f
      (fun i => sigma n (fun j => (entry W i j + entry W j i) ^ 2))
      (fun i => (sigma n (fun j => entry W i j)
                 + sigma n (fun j => entry W j i)) ^ 2))
  end.
  2:{ intros a b i Hi.
      destruct (square_lookup n W i HW Hi) as (row & Hrow & Hlen).
      rewrite (get_item_Some _ _ _ Hrow). cbn [mbind result_bind].
      rewrite (mapM_res_pure _ (fun j => entry W j i)).
      2:{ intros j Hj%elem_of_range. by apply (get_item2_square n). }
      cbn [mbind result_bind].
      rewrite (foldM_range_acc n _ (fun j => (entry W i j + entry W j i) ^ 2)).
      2:{ intros a' j Hj. by rewrite !(get_item2_square n) by done. }
      cbn [mbind result_bind].
      by rewrite (row_sum_square n W i row), py_sum_map_range. }
  cbn [mbind result_bind]. rewrite !Rplus_0_l.
  assert (Hm2 : 0 < sum_sq_dev x / INR n).
  { pose proof (sum_sq_dev_nonneg x). apply Rdiv_lt_0_compat; lra. }
  rewrite (bool_decide_eq_true_2 (0 < sum_sq_dev x / INR n)) by done.
  rewrite (py_div_R _ ((sum_sq_dev x / INR n) ^ 2)) by (apply pow_nonzero; lra).
  cbn [mbind result_bind].
  rewrite map_map, (py_sum_map_Z (fun v => (IZR v - mean x) ^ 4) x).
  destruct (decide (var_C x W = 0)) as [HC|HC].
  { rewrite bool_decide_eq_true_2 by exact HC. reflexivity. }
  rewrite bool_decide_eq_false_2 by exact HC.
  rewrite py_div_R by exact HC. cbn [mbind result_bind].
  destruct (decide (var_I x W <= 0)) as [Hv|Hv].
  { rewrite bool_decide_eq_true_2 by exact Hv. reflexivity. }
  rewrite bool_decide_eq_false_2 by exact Hv.
  change (py_sqrt (_ - _)) with (py_sqrt (var_I x W)).
  rewrite (py_sqrt_R (var_I x W)), (py_sqrt_R 2) by lra.
  cbn [mbind result_bind].
  rewrite py_div_R by (apply Rgt_not_eq, sqrt_lt_R0; lra).
  cbn [mbind result_bind].
  rewrite py_div_R by (apply Rgt_not_eq, sqrt_lt_R0; lra).
  reflexivity.
Qed.

Lemma sigma_zero (n : nat) (f : nat → R) :
  (∀ i, (i < n)%nat → f i = 0) → sigma n f = 0.
Proof.
  induction n as [|n IH]; intros Hf; [reflexivity|].
  cbn. rewrite IH, Hf by (intros; auto with lia). lra.
Qed.

Lemma sigma_nonneg (n : nat) (f : nat → R) :
  (∀ i, (i < n)%nat → 0 <= f i) → 0 <= sigma n f.
Proof.
  induction n as [|n IH]; intros Hf; cbn; [lra|].
  specialize (Hf n ltac:(lia)) as Hn. specialize (IH ltac:(intros; auto with lia)). lra.
Qed.

Lemma sigma_zero_inv (n : nat) (f : nat → R) :
  (∀ i, (i < n)%nat → 0 <= f i) → sigma n f = 0 → ∀ i, (i < n)%nat → f i = 0.
Proof.
  induction n as [|n IH]; intros Hf Hs i Hi; [lia|].
  cbn in Hs.
  pose proof (sigma_nonneg n f ltac:(intros; auto with lia)) as H1.
  pose proof (Hf n ltac:(lia)) as H2.
  destruct (decide (i = n)) as [->|Hne]; [lra|].
  apply IH; [intros; auto with lia | lra | lia].
Qed.

Lemma sum_Z_acc (x : list Z) (a : Z) : foldl Z.add a x = (a + sum_Z x)%Z.
Proof.
  unfold sum_Z. revert a. induction x as [|v x IH]; intros a; cbn [foldl]; [lia|].
  rewrite (IH (a + v)%Z), (IH (0 + v)%Z). lia.
Qed.

Lemma sum_Z_const (x : list Z) (c : Z) :
  (∀ v, v ∈ x → v = c) → sum_Z x = (Z.of_nat (length x) * c)%Z.
Proof.
  induction x as [|v x IH]; intros Hc; [reflexivity|].
  unfold sum_Z. cbn [foldl length]. rewrite sum_Z_acc, IH.
  - rewrite (Hc v) by left. lia.
  - intros w Hw. apply Hc. by right.
Qed.

Lemma x_at_elem (x : list Z) (i : nat) : (i < length x)%nat → x_at x i ∈ x.
Proof.
  intros Hi. unfold x_at. destruct (lookup_lt_is_Some_2 x i Hi) as [v Hv].
  rewrite Hv. cbn. by eapply list_elem_of_lookup_2.
Qed.

Lemma constant_sum_sq_dev (x : list Z) : constant x → sum_sq_dev x = 0.
Proof.
  intros Hc. destruct x as [|c x']; [reflexivity|].
  set (x := c :: x') in *.
  assert (Hall : ∀ v, v ∈ x → v = c) by (intros v Hv; apply Hc; [done | left]).
  assert (Hmean : mean x = IZR c).
  { unfold mean. rewrite (sum_Z_const x c Hall), mult_IZR, <- INR_IZR_INZ.
    field. apply not_0_INR. discriminate. }
  apply sigma_zero. intros i Hi. unfold dev.
  rewrite Hmean, (Hall (x_at x i)) by (by apply x_at_elem). lra.
Qed.

Lemma sum_sq_dev_constant (x : list Z) : sum_sq_dev x = 0 → constant x.
Proof.
  intros Hs.
  assert (Hd : ∀ i, (i < length x)%nat → IZR (x_at x i) = mean x).
  { intros i Hi.
    pose proof (sigma_zero_inv (length x) (fun i => dev x i ^ 2)
                  ltac:(intros; apply pow2_ge_0) Hs i Hi) as H0.
    cbn beta in H0. unfold dev in *. nra. }
  intros v1 v2 [i Hi]%list_elem_of_lookup_1 [j Hj]%list_elem_of_lookup_1.
  apply eq_IZR.
  pose proof (Hd i (lookup_lt_Some _ _ _ Hi)) as H1.
  pose proof (Hd j (lookup_lt_Some _ _ _ Hj)) as H2.
  unfold x_at in H1, H2. rewrite Hi in H1. rewrite Hj in H2. cbn in *. lra.
Qed.

(** The two early returns that come before the weights matrix is read. *)
Lemma calculate_morans_i_degenerate (languages : list (Language R)) (x : list Z)
    (W : list (list R)) :
  (length x < 3)%nat ∨ sum_sq_dev x = 0 →
  calculate_morans_i languages x W = Ok (0, 0, 1).
Proof.
  intros Hdeg. unfold calculate_morans_i.
  destruct (decide (length x < 3)%nat) as [Hn|Hn]; [reflexivity|].
  destruct Hdeg as [?|Hssd]; [lia|].
  assert (HN : IZR (Z.of_nat (length x)) = INR (length x))
    by (symmetry; apply INR_IZR_INZ).
  assert (HN3 : 3 <= INR (length x)) by (rewrite <- HN; apply IZR_le; lia).
  Rops. rewrite HN.
  rewrite (py_div_R (IZR (sum_Z x))) by lra. cbn [mbind result_bind].
  change (IZR (sum_Z x) / INR (length x)) with (mean x).
  rewrite map_map, (py_sum_map_Z (fun v => (IZR v - mean x) ^ 2) x).
  change (sigma (length x) (fun i => (IZR (x_at x i) - mean x) ^ 2))
    with (sum_sq_dev x).
  by rewrite bool_decide_eq_true_2.
Qed.

(** ** The Autocorrelation Calculator *)

Lemma calculate_morans_i_nondegenerate (languages : list (Language R))
    (x : list Z) (W : list (list R)) :
  (3 ≤ length x)%nat →
  ¬ constant x →
  square (length x) W →
  W_total (length x) W ≠ 0 →
  ∃ z p, calculate_morans_i languages x W = Ok (morans_I x W, z, p).
Proof.
  intros Hn Hnc HW HW0.
  assert (Hssd : sum_sq_dev x ≠ 0) by (intros H0; by apply Hnc, sum_sq_dev_constant).
  rewrite (calculate_morans_i_spec languages x W HW). unfold morans_spec.
  rewrite (decide_False (P := (length x < 3)%nat)) by lia.
  rewrite (decide_False (P := sum_sq_dev x = 0)) by done.
  rewrite (decide_False (P := W_total (length x) W = 0)) by done.
  destruct (decide (var_C x W = 0)); [|destruct (decide (var_I x W <= 0))]; eauto.
Qed.

(** C1. For a value vector of length [N >= 3] that is not constant and a
    square weights matrix whose total off-diagonal weight [W_total] is not
    zero, the statistic returned by [calculate_morans_i] is
    [(N / W_total) * (Σ_i Σ_{j≠i} w_ij d_i d_j / Σ_i d_i²)] with
    [d_i = x_i - mean(x)]. *)
Theorem calculate_morans_i_statistic (languages : list (Language R))
    (x : list Z) (W : list (list R)) :
  (3 ≤ length x)%nat →
  ¬ constant x →
  square (length x) W →
  W_total (length x) W ≠ 0 →
  ∃ I z p,
    calculate_morans_i languages x W = Ok (I, z, p) ∧
    I = INR (length x) / W_total (length x) W *
        (sigma (length x) (fun i => sigma (length x) (fun j =>
           if decide (i ≠ j)
           then entry W i j * (IZR (x_at x i) - mean x) * (IZR (x_at x j) - mean x)
           else 0))
         / sigma (length x) (fun i => (IZR (x_at x i) - mean x) ^ 2)).
Proof.
  intros Hn Hnc HW HW0.
  destruct (calculate_morans_i_nondegenerate languages x W Hn Hnc HW HW0)
    as (z & p & Hcalc).
  exists (morans_I x W), z, p. split; [exact Hcalc | reflexivity].
Qed.

(** C2. [calculate_morans_i] returns (it does not raise) the triple
    [(0, 0, 1)] when [N < 3], when the value vector is constant, or when
    the total weight is zero; and when the variance denominator [C] is
    zero or the variance is not positive it returns the statistic [I]
    with [z = 0] and [p = 1]. *)
Theorem calculate_morans_i_fallbacks (languages : list (Language R))
    (x : list Z) (W : list (list R)) :
  ((length x < 3)%nat → calculate_morans_i languages x W = Ok (0, 0, 1)) ∧
  (constant x → calculate_morans_i languages x W = Ok (0, 0, 1)) ∧
  (sum_sq_dev x = 0 → calculate_morans_i languages x W = Ok (0, 0, 1)) ∧
  (square (length x) W → W_total (length x) W = 0 →
     calculate_morans_i languages x W = Ok (0, 0, 1)) ∧
  (square (length x) W → (3 ≤ length x)%nat → ¬ constant x →
     W_total (length x) W ≠ 0 →
     var_C x W = 0 ∨ var_I x W <= 0 →
     calculate_morans_i languages x W = Ok (morans_I x W, 0, 1)).
Proof.
  split_and!.
  - intros Hn. apply calculate_morans_i_degenerate. by left.
  - intros Hc. apply calculate_morans_i_degenerate. right.
    by apply constant_sum_sq_dev.
  - intros Hs. apply calculate_morans_i_degenerate. by right.
  - intros HW HW0. rewrite (calculate_morans_i_spec languages x W HW).
    unfold morans_spec. repeat case_decide; done.
  - intros HW Hn Hnc HW0 Hdeg.
    assert (Hssd : sum_sq_dev x ≠ 0)
      by (intros H0; by apply Hnc, sum_sq_dev_constant).
    rewrite (calculate_morans_i_spec languages x W HW). unfold morans_spec.
    rewrite (decide_False (P := (length x < 3)%nat)) by lia.
    rewrite (decide_False (P := sum_sq_dev x = 0)) by done.
    rewrite (decide_False (P := W_total (length x) W = 0)) by done.
    destruct (decide (var_C x W = 0)); [done|].
    destruct (decide (var_I x W <= 0)); [done|]. by destruct Hdeg.
Qed.

(** C3. On a non-degenerate input ([N >= 4], value vector not constant,
    total weight not zero, [C ≠ 0], [var(I) > 0]) the expected value is
    [E[I] = -1/(N-1)], the returned z-score is [(I - E[I]) / sqrt(var(I))]
    with [var(I) = (A - B)/C - E[I]²] built from [S1], [S2] and [b2], and the
    returned p-value is [2 * (1 - Φ(|z|))] with [Φ] given by [erf]. *)
Theorem calculate_morans_i_significance (languages : list (Language R))
    (x : list Z) (W : list (list R)) :
  (4 ≤ length x)%nat →
  ¬ constant x →
  square (length x) W →
  W_total (length x) W ≠ 0 →
  var_C x W ≠ 0 →
  0 < var_I x W →
  let n := length x in
  let N := INR n in
  let E_I := -1 / (N - 1) in
  let A := N * ((N ^ 2 - 3 * N + 3) * S1 n W - N * S2 n W + 3 * W_total n W ^ 2) in
  let B := b2 x * ((N ^ 2 - N) * S1 n W - 2 * N * S2 n W + 6 * W_total n W ^ 2) in
  let C := (N - 1) * (N - 2) * (N - 3) * W_total n W ^ 2 in
  let var := (A - B) / C - E_I ^ 2 in
  let z := (morans_I x W - E_I) / sqrt var in
  expected_I n = E_I ∧ var_I x W = var ∧
  calculate_morans_i languages x W =
    Ok (morans_I x W, z, 2 * (1 - 1 / 2 * (1 + erf (Rabs z / sqrt 2)))).
Proof.
  intros Hn Hnc HW HW0 HC Hvar. cbv zeta.
  split; [reflexivity|]. split; [reflexivity|].
  assert (Hssd : sum_sq_dev x ≠ 0)
    by (intros H0; by apply Hnc, sum_sq_dev_constant).
  rewrite (calculate_morans_i_spec languages x W HW). unfold morans_spec.
  rewrite (decide_False (P := (length x < 3)%nat)) by lia.
  rewrite (decide_False (P := sum_sq_dev x = 0)) by done.
  rewrite (decide_False (P := W_total (length x) W = 0)) by done.
  rewrite (decide_False (P := var_C x W = 0)) by done.
  rewrite (decide_False (P := var_I x W <= 0)) by lra.
  reflexivity.
Qed.

(** ** The Distance Engine: bounds *)

Lemma sin_sq_bounds (t : R) : 0 <= sin t ^ 2 <= 1.
Proof. pose proof (sin2_cos2 t) as H. unfold Rsqr in H. nra. Qed.

Lemma cos_cos_half (p q : R) :
  cos p * cos q = cos ((p + q) / 2) ^ 2 - sin ((q - p) / 2) ^ 2.
Proof.
  set (m := (p + q) / 2). set (h := (q - p) / 2).
  replace p with (m - h) by (unfold m, h; lra).
  replace q with (m + h) by (unfold m, h; lra).
  rewrite cos_minus, cos_plus.
  pose proof (sin2_cos2 m) as Hm. pose proof (sin2_cos2 h) as Hh.
  unfold Rsqr in *. nra.
Qed.

Lemma hav_a_bounds (lat1 lon1 lat2 lon2 : R) :
  0 <= hav_a lat1 lon1 lat2 lon2 <= 1.
Proof.
  unfold hav_a. rewrite cos_cos_half.
  replace ((lat2 * (PI / 180) - lat1 * (PI / 180)) / 2)
    with ((lat2 - lat1) * (PI / 180) / 2) by lra.
  pose proof (sin_sq_bounds ((lat2 - lat1) * (PI / 180) / 2)) as Hh.
  pose proof (sin_sq_bounds ((lon2 - lon1) * (PI / 180) / 2)) as Hs.
  pose proof (sin2_cos2 ((lat1 * (PI / 180) + lat2 * (PI / 180)) / 2)) as Hm.
  pose proof (sin_sq_bounds ((lat1 * (PI / 180) + lat2 * (PI / 180)) / 2)) as Hm'.
  unfold Rsqr in Hm. nra.
Qed.

Lemma haversine_distance_R (lat1 lon1 lat2 lon2 : R) :
  haversine_distance lat1 lon1 lat2 lon2 = Ok (great_circle lat1 lon1 lat2 lon2).
Proof.
  pose proof (hav_a_bounds lat1 lon1 lat2 lon2) as Ha.
  unfold haversine_distance. Rops.
  change (sin _ ^ 2 + _ * _ * sin _ ^ 2) with (hav_a lat1 lon1 lat2 lon2).
  rewrite !py_sqrt_R by lra. reflexivity.
Qed.

Lemma Ratan2_nonneg (y x : R) : 0 <= y → 0 <= x → 0 <= Ratan2 y x.
Proof.
  intros Hy Hx. unfold Ratan2. pose proof PI_RGT_0.
  destruct (decide (0 < x)).
  - rewrite <- atan_0. destruct (Req_dec_T (y / x) 0) as [->|Hne]; [lra|].
    left. apply atan_increasing.
    assert (0 <= y / x) by (apply Rle_mult_inv_pos; lra). lra.
  - destruct (decide (x < 0)); [lra|]. repeat case_decide; lra.
Qed.

Lemma arc_nonneg (a : R) : 0 <= arc a.
Proof.
  unfold arc. pose proof (Ratan2_nonneg (sqrt a) (sqrt (1 - a))
    (sqrt_pos _) (sqrt_pos _)). lra.
Qed.

Lemma great_circle_nonneg (lat1 lon1 lat2 lon2 : R) :
  0 <= great_circle lat1 lon1 lat2 lon2.
Proof. apply arc_nonneg. Qed.

Lemma great_circle_same (lat lon : R) : great_circle lat lon lat lon = 0.
Proof.
  unfold great_circle, hav_a.
  replace ((lat - lat) * (PI / 180) / 2) with 0 by lra.
  replace ((lon - lon) * (PI / 180) / 2) with 0 by lra.
  rewrite sin_0. replace (0 ^ 2 + _ * _ * 0 ^ 2) with 0 by ring.
  unfold arc. rewrite Rminus_0_r, sqrt_0, sqrt_1. unfold Ratan2.
  rewrite decide_True by lra. replace (0 / 1) with 0 by lra.
  rewrite atan_0. ring.
Qed.

(** Over the reals the Distance Engine is total, its result is not
    negative, and the distance from a point to itself is 0. *)
Lemma haversine_distance_exact (lat1 lon1 lat2 lon2 : R) :
  ∃ d, haversine_distance lat1 lon1 lat2 lon2 = Ok d ∧ 0 <= d ∧
       (lat1 = lat2 → lon1 = lon2 → d = 0).
Proof.
  exists (great_circle lat1 lon1 lat2 lon2).
  split_and!; [apply haversine_distance_R | apply great_circle_nonneg |].
  intros -> ->. apply great_circle_same.
Qed.

(** ** The Weights Builder: selection and loops *)

Lemma get_item_lang (languages : list (Language R)) (i : nat) :
  (i < length languages)%nat → get_item languages i = Ok (lang_at languages i).
Proof.
  intros Hi. unfold lang_at. destruct (lookup_lt_is_Some_2 languages i Hi) as [l Hl].
  rewrite (get_item_Some _ _ _ Hl), Hl. reflexivity.
Qed.

Lemma distances_of_R (languages : list (Language R)) (i : nat) :
  (i < length languages)%nat →
  distances_of languages i = Ok (candidates languages i).
Proof.
  intros Hi. unfold distances_of, candidates.
  set (n := length languages) in *.
  enough (Hgen : ∀ m acc, (m ≤ n)%nat →
    foldM (fun distances j =>
      if decide (i ≠ j) then
        li ← get_item languages i;
        lj ← get_item languages j;
        d ← haversine_distance (latitude li) (longitude li)
                               (latitude lj) (longitude lj);
        Ok (distances ++ [(j, d)])
      else Ok distances) acc (range m)
    = Ok (acc ++ map (fun j => (j, dist languages i j))
                     (filter (fun j => i ≠ j) (range m))))
    by (apply (Hgen n []); lia).
  induction m as [|m IH]; intros acc Hm.
  - cbn. by rewrite app_nil_r.
  - rewrite range_S, foldM_app, IH by lia. cbn [mbind result_bind foldM].
    rewrite filter_app, map_app, app_assoc.
    destruct (decide (i ≠ m)) as [Hne|Heq].
    + rewrite !get_item_lang by (fold n; lia). cbn [mbind result_bind].
      rewrite haversine_distance_R. cbn [mbind result_bind].
      rewrite filter_cons_True by done. reflexivity.
    + rewrite filter_cons_False by done. cbn. by rewrite app_nil_r.
Qed.

Lemma neighbors_of_R (languages : list (Language R)) (k : Z) (i : nat) :
  (i < length languages)%nat →
  neighbors_of languages k i = Ok (neighbors languages k i).
Proof. intros Hi. unfold neighbors_of. by rewrite distances_of_R. Qed.

(** *** Neighbor selection *)

#[local] Instance nearer_antisymm : AntiSymm (=) nearer.
Proof. intros [j1 d1] [j2 d2] [?|[? ?]] [?|[? ?]]; cbn in *; (lra || lia). Qed.

Lemma insert_by_dist_perm (x : nat * R) (l : list (nat * R)) :
  insert_by_dist x l ≡ₚ x :: l.
Proof.
  induction l as [|y l IH]; [reflexivity|].
  cbn [insert_by_dist]. destruct (f_ltb y.2 x.2); [|reflexivity].
  rewrite IH. apply Permutation_swap.
Qed.

Lemma sort_by_dist_perm (l : list (nat * R)) : sort_by_dist l ≡ₚ l.
Proof.
  induction l as [|x l IH]; [reflexivity|].
  cbn [sort_by_dist]. by rewrite insert_by_dist_perm, IH.
Qed.

Lemma insert_by_dist_sorted (x : nat * R) (l : list (nat * R)) :
  StronglySorted nearer l → Forall (index_lt x) l →
  StronglySorted nearer (insert_by_dist x l).
Proof.
  induction l as [|y l IH]; intros Hs Hf.
  - cbn. repeat constructor.
  - apply StronglySorted_cons in Hs as [Hy Hs].
    apply Forall_cons in Hf as [Hxy Hf].
    cbn [insert_by_dist]. Rops. case_bool_decide as Hlt.
    + apply StronglySorted_cons. split; [|by apply IH].
      rewrite insert_by_dist_perm. apply Forall_cons. split; [by left | done].
    + apply StronglySorted_cons. split; [|by apply StronglySorted_cons].
      assert (Hxy' : nearer x y).
      { unfold nearer, index_lt in *. destruct (Rtotal_order x.2 y.2) as [?|[?|?]];
          [by left | by right | lra]. }
      apply Forall_cons. split; [done|].
      rewrite Forall_forall in Hy, Hf |- *. intros z Hz.
      specialize (Hy z Hz). specialize (Hf z Hz).
      unfold nearer, index_lt in *.
      destruct (Rtotal_order x.2 z.2) as [?|[?|?]]; [by left | by right | lra].
Qed.

Lemma sort_by_dist_sorted (l : list (nat * R)) :
  StronglySorted index_lt l → StronglySorted nearer (sort_by_dist l).
Proof.
  induction l as [|x l IH]; intros Hs; [constructor|].
  apply StronglySorted_cons in Hs as [Hx Hs].
  cbn [sort_by_dist]. apply insert_by_dist_sorted; [by apply IH|].
  by rewrite sort_by_dist_perm.
Qed.

Lemma StronglySorted_seq (a n : nat) : StronglySorted lt (seq a n).
Proof.
  revert a. induction n as [|n IH]; intros a; cbn; constructor; [apply IH|].
  apply Forall_forall. intros j Hj%elem_of_seq. lia.
Qed.

Lemma StronglySorted_filter {A : Type} (Rel : relation A) (P : A → Prop)
    `{∀ x, Decision (P x)} (l : list A) :
  StronglySorted Rel l → StronglySorted Rel (filter P l).
Proof.
  induction 1 as [|x l Hl IH Hx]; [constructor|].
  rewrite filter_cons. case_decide; [|done].
  constructor; [done|]. apply Forall_forall. intros y [_ Hy]%list_elem_of_filter.
  rewrite Forall_forall in Hx. by apply Hx.
Qed.

Lemma candidates_index_sorted (languages : list (Language R)) (i : nat) :
  StronglySorted index_lt (candidates languages i).
Proof.
  unfold candidates. apply (StronglySorted_fmap _ lt); [done|].
  apply StronglySorted_filter, StronglySorted_seq.
Qed.

Lemma elem_of_candidates (languages : list (Language R)) (i j : nat) (d : R) :
  (j, d) ∈ candidates languages i ↔
  (j < length languages)%nat ∧ i ≠ j ∧ d = dist languages i j.
Proof.
  unfold candidates. rewrite list_elem_of_fmap. split.
  - intros (j' & [= -> ->] & [Hne Hj%elem_of_range]%list_elem_of_filter). done.
  - intros (Hj & Hne & ->). exists j. split; [done|].
    apply list_elem_of_filter. split; [done | by apply elem_of_range].
Qed.

Lemma length_filter_ne (i m : nat) :
  length (filter (fun j => i ≠ j) (range m)) = if decide (i < m)%nat then (m - 1)%nat else m.
Proof.
  induction m as [|m IH]; [by case_decide|].
  rewrite range_S, filter_app, length_app, IH.
  rewrite filter_cons, filter_nil.
  repeat case_decide; cbn; lia.
Qed.

Lemma length_candidates (languages : list (Language R)) (i : nat) :
  (i < length languages)%nat →
  length (candidates languages i) = (length languages - 1)%nat.
Proof.
  intros Hi. unfold candidates. rewrite length_map, length_filter_ne.
  by rewrite decide_True.
Qed.

(** *** The two loops of the builder *)

Lemma set_item2_R (weights : list (list R)) (i j : nat) (v : R) (row : list R) :
  weights !! i = Some row → (j < length row)%nat →
  set_item2 weights i j v = Ok (<[i := <[j := v]> row]> weights).
Proof.
  intros Hrow Hj. unfold set_item2.
  rewrite (get_item_Some _ _ _ Hrow). cbn [mbind result_bind].
  rewrite set_item_lt by done. cbn [mbind result_bind].
  apply set_item_lt. by eapply lookup_lt_Some.
Qed.

Lemma py_max_tenth (d : R) : 1 / 10 <= py_max d (1 / 10).
Proof. unfold py_max. Rops. case_bool_decide; lra. Qed.

Lemma raw_weight_pos (b : bool) (d : R) : 0 < raw_weight b d.
Proof.
  destruct b; cbn; [|lra]. pose proof (py_max_tenth d).
  apply Rdiv_lt_0_compat; lra.
Qed.

Lemma length_assign_row (b : bool) (row : list R) (nb : list (nat * R)) :
  length (assign_row b row nb) = length row.
Proof.
  unfold assign_row. revert row.
  induction nb as [|[j d] nb IH]; intros row; [reflexivity|].
  cbn [foldl]. by rewrite IH, length_insert.
Qed.

Lemma assign_weights_R (b : bool) (i : nat) (weights : list (list R))
    (nb : list (nat * R)) (row : list R) :
  weights !! i = Some row →
  Forall (fun p => (p.1 < length row)%nat) nb →
  assign_weights b i weights nb = Ok (<[i := assign_row b row nb]> weights).
Proof.
  intros Hrow Hnb.
  transitivity (foldM (fun weights '(j, d) =>
    set_item2 weights i j (raw_weight b d)) weights nb).
  { unfold assign_weights. destruct b; apply foldM_ext; intros w [j d] _.
    - rewrite py_div_R; [reflexivity|]. pose proof (py_max_tenth d). Rops. lra.
    - reflexivity. }
  revert weights row Hrow Hnb.
  induction nb as [|[j d] nb IH]; intros weights row Hrow Hnb.
  - cbn. by rewrite list_insert_id.
  - apply Forall_cons in Hnb as [Hj Hnb]. cbn [foldM].
    rewrite (set_item2_R _ _ _ _ row) by done. cbn [mbind result_bind].
    rewrite (IH _ (<[j := raw_weight b d]> row)).
    + by rewrite list_insert_insert_eq.
    + apply list_lookup_insert_eq. by eapply lookup_lt_Some.
    + by rewrite length_insert.
Qed.

Lemma neighbors_candidates (languages : list (Language R)) (k : Z) (i : nat)
    (p : nat * R) :
  p ∈ neighbors languages k i → p ∈ candidates languages i.
Proof.
  unfold neighbors, slice_to. intros Hp.
  rewrite <- (sort_by_dist_perm (candidates languages i)).
  case_decide; by eapply subseteq_take.
Qed.

Lemma neighbors_lt (languages : list (Language R)) (k : Z) (i : nat) :
  Forall (fun p => (p.1 < length languages)%nat) (neighbors languages k i).
Proof.
  apply Forall_forall. intros [j d] Hp%neighbors_candidates.
  by apply elem_of_candidates in Hp as (? & _).
Qed.

Lemma length_raw_row (languages : list (Language R)) (k : Z) (b : bool) (i : nat) :
  length (raw_row languages k b i) = length languages.
Proof. unfold raw_row. by rewrite length_assign_row, length_replicate. Qed.

Lemma raw_matrix_loop (languages : list (Language R)) (k : Z) (b : bool) :
  let n := length languages in
  foldM (fun weights i =>
    nb ← neighbors_of languages k i;
    assign_weights b i weights nb) (replicate n (replicate n 0)) (range n)
  = Ok (map (raw_row languages k b) (range n)).
Proof.
  intros n.
  enough (Hgen : ∀ m, (m ≤ n)%nat →
    foldM (fun weights i =>
      nb ← neighbors_of languages k i;
      assign_weights b i weights nb) (replicate n (replicate n 0)) (range m)
    = Ok (map (raw_row languages k b) (range m)
          ++ replicate (n - m) (replicate n 0))).
  { rewrite Hgen by lia. by rewrite Nat.sub_diag, app_nil_r. }
  induction m as [|m IH]; intros Hm.
  - cbn. by rewrite Nat.sub_0_r.
  - rewrite range_S, foldM_app, IH by lia. cbn [mbind result_bind foldM].
    rewrite neighbors_of_R by (fold n; lia). cbn [mbind result_bind].
    rewrite (assign_weights_R _ _ _ _ (replicate n 0)).
    + f_equal. rewrite insert_app_r_alt by (rewrite length_map, length_range; lia).
      rewrite length_map, length_range, Nat.sub_diag.
      replace (n - m)%nat with (S (n - S m)) by lia. cbn [replicate].
      rewrite map_app. cbn. by rewrite <- app_assoc.
    + rewrite lookup_app_r by (rewrite length_map, length_range; lia).
      rewrite length_map, length_range, Nat.sub_diag.
      apply lookup_replicate_2. lia.
    + rewrite length_replicate. apply neighbors_lt.
Qed.

Lemma inplace_map_step {A : Type} (f : A → A) (l : list A) (p : nat) (x : A) :
  l !! p = Some x →
  <[p := f x]> (map f (take p l) ++ drop p l)
  = map f (take (S p) l) ++ drop (S p) l.
Proof.
  intros Hp. pose proof (lookup_lt_Some _ _ _ Hp) as Hlt.
  rewrite insert_app_r_alt by (rewrite length_map, length_take; lia).
  rewrite length_map, length_take_le, Nat.sub_diag by lia.
  rewrite (drop_S _ _ _ Hp). cbn [insert list_insert].
  rewrite (take_S_r _ _ _ Hp), map_app. cbn. by rewrite <- app_assoc.
Qed.

Lemma inplace_map_lookup {A : Type} (f : A → A) (l : list A) (p : nat) :
  (p ≤ length l)%nat → (map f (take p l) ++ drop p l) !! p = l !! p.
Proof.
  intros Hp. rewrite lookup_app_r by (rewrite length_map, length_take; lia).
  rewrite length_map, length_take_le, Nat.sub_diag, lookup_drop by lia.
  by rewrite Nat.add_0_r.
Qed.

Lemma divide_row_loop (weights : list (list R)) (i : nat) (row : list R) (s : R) :
  weights !! i = Some row → s ≠ 0 →
  foldM (fun weights j =>
    x ← get_item2 weights i j;
    q ← py_div x s;
    set_item2 weights i j q) weights (range (length row))
  = Ok (<[i := map (fun w => w / s) row]> weights).
Proof.
  intros Hrow Hs. pose proof (lookup_lt_Some _ _ _ Hrow) as Hi.
  set (f := fun w => w / s).
  enough (Hgen : ∀ p, (p ≤ length row)%nat →
    foldM (fun weights j =>
      x ← get_item2 weights i j;
      q ← py_div x s;
      set_item2 weights i j q) weights (range p)
    = Ok (<[i := map f (take p row) ++ drop p row]> weights)).
  { rewrite Hgen by lia. by rewrite take_ge, drop_ge, app_nil_r by lia. }
  induction p as [|p IH]; intros Hp.
  - cbn. rewrite drop_0. by rewrite list_insert_id.
  - rewrite range_S, foldM_app, IH by lia. cbn [mbind result_bind foldM].
    destruct (lookup_lt_is_Some_2 row p) as [x Hx]; [lia|].
    set (cur := map f (take p row) ++ drop p row).
    assert (Hcur : <[i := cur]> weights !! i = Some cur)
      by by apply list_lookup_insert_eq.
    assert (Hcurp : cur !! p = Some x)
      by (unfold cur; rewrite inplace_map_lookup by lia; done).
    unfold get_item2. rewrite (get_item_Some _ _ _ Hcur). cbn [mbind result_bind].
    rewrite (get_item_Some _ _ _ Hcurp). cbn [mbind result_bind].
    rewrite py_div_R by done. cbn [mbind result_bind].
    rewrite (set_item2_R _ _ _ _ cur) by (done || by eapply lookup_lt_Some).
    cbn [mbind result_bind]. rewrite list_insert_insert_eq.
    unfold cur. change (x / s) with (f x).
    by rewrite (inplace_map_step f row p x Hx).
Qed.

Lemma row_standardize_R (n : nat) (M : list (list R)) :
  square n M → row_standardize n M = Ok (map normalize_row M).
Proof.
  intros [Hlen Hrows]. unfold row_standardize.
  enough (Hgen : ∀ m, (m ≤ n)%nat →
    foldM (fun weights i =>
      row ← get_item weights i;
      let row_sum := py_sum row in
      if f_ltb (f_of_Z 0) row_sum then
        foldM (fun weights j =>
          x ← get_item2 weights i j;
          q ← py_div x row_sum;
          set_item2 weights i j q) weights (range n)
      else Ok weights) M (range m)
    = Ok (map normalize_row (take m M) ++ drop m M)).
  { rewrite Hgen by lia. by rewrite take_ge, drop_ge, app_nil_r by lia. }
  induction m as [|m IH]; intros Hm.
  - cbn. by rewrite drop_0.
  - rewrite range_S, foldM_app, IH by lia. cbn [mbind result_bind foldM].
    destruct (lookup_lt_is_Some_2 M m) as [row Hrow]; [lia|].
    pose proof (Forall_lookup_1 _ _ _ _ Hrows Hrow) as Hrowlen. cbn beta in Hrowlen.
    set (cur := map normalize_row (take m M) ++ drop m M).
    assert (Hcur : cur !! m = Some row)
      by (unfold cur; rewrite inplace_map_lookup by lia; done).
    rewrite (get_item_Some _ _ _ Hcur). cbn [mbind result_bind]. Rops.
    rewrite <- (inplace_map_step normalize_row M m row Hrow). fold cur.
    unfold normalize_row. case_bool_decide as Hpos.
    + rewrite decide_True by done. rewrite <- Hrowlen.
      rewrite (divide_row_loop cur m row) by (done || lra). reflexivity.
    + rewrite decide_False by done. cbn. by rewrite list_insert_id.
Qed.

Lemma compute_spatial_weights_R (languages : list (Language R)) (k : Z) (b : bool) :
  compute_spatial_weights languages k b = Ok (weights_matrix languages k b).
Proof.
  unfold compute_spatial_weights. Rops.
  rewrite raw_matrix_loop. cbn [mbind result_bind].
  rewrite row_standardize_R.
  - unfold weights_matrix. by rewrite map_map.
  - split.
    + by rewrite length_map, length_range.
    + apply Forall_forall. intros row (i & -> & _)%list_elem_of_fmap.
      apply length_raw_row.
Qed.

(** *** The WeightsMatrix invariant *)

Lemma assign_row_snoc (b : bool) (row : list R) (nb : list (nat * R)) (j : nat) (d : R) :
  assign_row b row (nb ++ [(j, d)]) = <[j := raw_weight b d]> (assign_row b row nb).
Proof. unfold assign_row. by rewrite foldl_app. Qed.

Lemma assign_row_nonneg (b : bool) (row : list R) (nb : list (nat * R)) :
  Forall (fun w => 0 <= w) row → Forall (fun w => 0 <= w) (assign_row b row nb).
Proof.
  induction nb as [|[j d] nb IH] using rev_ind; intros Hrow; [done|].
  rewrite assign_row_snoc. apply Forall_insert; [by apply IH|].
  left. apply raw_weight_pos.
Qed.

Lemma assign_row_other (b : bool) (row : list R) (nb : list (nat * R)) (i : nat) :
  Forall (fun p => p.1 ≠ i) nb → assign_row b row nb !! i = row !! i.
Proof.
  induction nb as [|[j d] nb IH] using rev_ind; intros Hnb; [done|].
  rewrite Forall_app, Forall_singleton in Hnb. destruct Hnb as [Hnb Hj]. cbn in Hj.
  rewrite assign_row_snoc, list_lookup_insert_ne by done. by apply IH.
Qed.

Lemma py_sum_nonneg (l : list R) : Forall (fun w => 0 <= w) l → 0 <= py_sum l.
Proof.
  induction 1 as [|w l Hw Hl IH]; [unfold py_sum; cbn; lra|].
  rewrite py_sum_cons. lra.
Qed.

Lemma py_sum_pos (l : list R) (j : nat) (w : R) :
  Forall (fun w => 0 <= w) l → l !! j = Some w → 0 < w → 0 < py_sum l.
Proof.
  intros Hl. revert j. induction Hl as [|v l Hv Hl IH]; intros j Hj Hw; [done|].
  rewrite py_sum_cons. pose proof (py_sum_nonneg l Hl).
  destruct j as [|j]; cbn in Hj.
  - injection Hj as ->. lra.
  - specialize (IH j Hj Hw). lra.
Qed.

Lemma py_sum_map_div (l : list R) (s : R) :
  py_sum (map (fun w => w / s) l) = py_sum l / s.
Proof.
  induction l as [|v l IH]; [unfold py_sum; cbn; lra|].
  cbn [map]. rewrite !py_sum_cons, IH. lra.
Qed.

Lemma assign_row_sum_pos (b : bool) (row : list R) (nb : list (nat * R)) :
  Forall (fun w => 0 <= w) row →
  Forall (fun p => (p.1 < length row)%nat) nb →
  nb ≠ [] → 0 < py_sum (assign_row b row nb).
Proof.
  intros Hrow Hnb Hne.
  destruct nb as [|[j d] nb _] using rev_ind; [done|].
  rewrite Forall_app, Forall_singleton in Hnb. destruct Hnb as [Hnb Hj]. cbn in Hj.
  apply (py_sum_pos _ j (raw_weight b d)).
  - by apply assign_row_nonneg.
  - rewrite assign_row_snoc. apply list_lookup_insert_eq.
    by rewrite length_assign_row.
  - apply raw_weight_pos.
Qed.

Lemma normalize_row_nonneg (row : list R) :
  Forall (fun w => 0 <= w) row → Forall (fun w => 0 <= w) (normalize_row row).
Proof.
  intros Hrow. unfold normalize_row. case_decide as Hs; [|done].
  apply Forall_fmap. eapply Forall_impl; [exact Hrow|].
  intros w Hw. cbn. apply Rle_mult_inv_pos; lra.
Qed.

Lemma normalize_row_sum (row : list R) :
  0 < py_sum row → py_sum (normalize_row row) = 1.
Proof.
  intros Hs. unfold normalize_row. rewrite decide_True by done.
  rewrite py_sum_map_div. field. lra.
Qed.

Lemma normalize_row_zero (row : list R) (i : nat) :
  row !! i = Some 0 → normalize_row row !! i = Some 0.
Proof.
  intros Hi. unfold normalize_row. case_decide; [|done].
  rewrite list_lookup_fmap, Hi. cbn. f_equal. lra.
Qed.

Lemma length_normalize_row (row : list R) : length (normalize_row row) = length row.
Proof. unfold normalize_row. case_decide; [apply length_map | done]. Qed.

Lemma raw_row_nonneg (languages : list (Language R)) (k : Z) (b : bool) (i : nat) :
  Forall (fun w => 0 <= w) (raw_row languages k b i).
Proof.
  apply assign_row_nonneg, Forall_replicate. lra.
Qed.

Lemma weights_matrix_lookup (languages : list (Language R)) (k : Z) (b : bool) (i : nat) :
  (i < length languages)%nat →
  weights_matrix languages k b !! i = Some (normalize_row (raw_row languages k b i)).
Proof.
  intros Hi. unfold weights_matrix, range.
  rewrite list_lookup_fmap, lookup_seq_lt by done. reflexivity.
Qed.

Lemma weights_matrix_square (languages : list (Language R)) (k : Z) (b : bool) :
  square (length languages) (weights_matrix languages k b).
Proof.
  split.
  - unfold weights_matrix. by rewrite length_map, length_range.
  - apply Forall_forall. intros row (i & -> & _)%list_elem_of_fmap.
    by rewrite length_normalize_row, length_raw_row.
Qed.

Lemma weights_matrix_row_sum (languages : list (Language R)) (k : Z) (b : bool) (i : nat) :
  (i < length languages)%nat →
  sigma (length languages) (fun j => entry (weights_matrix languages k b) i j)
  = py_sum (normalize_row (raw_row languages k b i)).
Proof.
  intros Hi. symmetry. apply row_sum_square.
  - apply weights_matrix_square.
  - by apply weights_matrix_lookup.
Qed.

Lemma neighbors_nonempty (languages : list (Language R)) (k : Z) (i : nat) :
  (1 ≤ k)%Z → (2 ≤ length languages)%nat → (i < length languages)%nat →
  neighbors languages k i ≠ [].
Proof.
  intros Hk Hn Hi Hnil. apply (f_equal length) in Hnil.
  unfold neighbors, slice_to in Hnil. rewrite decide_True in Hnil by lia.
  rewrite length_take, sort_by_dist_perm, length_candidates in Hnil by done.
  cbn in Hnil. lia.
Qed.

Lemma weights_matrix_row_one (languages : list (Language R)) (k : Z) (b : bool) (i : nat) :
  (i < length languages)%nat → neighbors languages k i ≠ [] →
  sigma (length languages) (fun j => entry (weights_matrix languages k b) i j) = 1.
Proof.
  intros Hi Hnb. rewrite weights_matrix_row_sum by done.
  apply normalize_row_sum. unfold raw_row. apply assign_row_sum_pos; [| |done].
  - apply Forall_replicate. lra.
  - rewrite length_replicate. apply neighbors_lt.
Qed.

(** C4. The matrix that [compute_spatial_weights] returns is square, has a
    zero diagonal and non-negative entries; a row that received at least
    one neighbor sums to 1, and a row is all-zero only if its point
    received no neighbor; for [k >= 1] and [N >= 2] every row sums to 1 (so
    within 1e-9 of it), and for [k >= 1] a row is all-zero only if
    [N < 2]. *)
Theorem compute_spatial_weights_invariant (languages : list (Language R))
    (k : Z) (inverse_distance : bool) :
  ∃ M, compute_spatial_weights languages k inverse_distance = Ok M ∧
    let n := length languages in
    square n M ∧
    (∀ i, entry M i i = 0) ∧
    (∀ i j, 0 <= entry M i j) ∧
    (∀ i, (i < n)%nat → neighbors_of languages k i ≠ Ok [] →
          sigma n (fun j => entry M i j) = 1) ∧
    (∀ i, (i < n)%nat → (∀ j, (j < n)%nat → entry M i j = 0) →
          neighbors_of languages k i = Ok []) ∧
    ((1 ≤ k)%Z → (2 ≤ n)%nat → ∀ i, (i < n)%nat →
          sigma n (fun j => entry M i j) = 1 ∧
          Rabs (sigma n (fun j => entry M i j) - 1) <= 1 / 10 ^ 9) ∧
    ((1 ≤ k)%Z → ∀ i, (i < n)%nat →
          (∀ j, (j < n)%nat → entry M i j = 0) → (n < 2)%nat).
Proof.
  exists (weights_matrix languages k inverse_distance).
  split; [apply compute_spatial_weights_R|]. cbv zeta.
  set (M := weights_matrix languages k inverse_distance).
  set (n := length languages).
  assert (Hentry : ∀ i j, (n ≤ i)%nat → entry M i j = 0).
  { intros i j Hi. unfold entry. rewrite lookup_ge_None_2; [done|].
    unfold M, weights_matrix. by rewrite length_map, length_range. }
  assert (Hone : ∀ i, (i < n)%nat → (1 ≤ k)%Z → (2 ≤ n)%nat →
            sigma n (fun j => entry M i j) = 1).
  { intros i Hi Hk Hn. apply weights_matrix_row_one; [done|].
    by apply neighbors_nonempty. }
  split_and!.
  - apply weights_matrix_square.
  - intros i. destruct (decide (i < n)%nat) as [Hi|Hi]; [|apply Hentry; lia].
    unfold entry, M. rewrite weights_matrix_lookup by done.
    rewrite (normalize_row_zero _ i); [done|].
    unfold raw_row. rewrite assign_row_other.
    + by apply lookup_replicate_2.
    + apply Forall_forall. intros [j d] Hp%neighbors_candidates.
      apply elem_of_candidates in Hp as (_ & Hne & _). cbn. congruence.
  - intros i j. destruct (decide (i < n)%nat) as [Hi|Hi];
      [|rewrite Hentry by lia; lra].
    unfold entry, M. rewrite weights_matrix_lookup by done.
    destruct (normalize_row _ !! j) as [w|] eqn:Hw; cbn; [|lra].
    pose proof (normalize_row_nonneg _ (raw_row_nonneg languages k inverse_distance i)) as Hall.
    rewrite Forall_forall in Hall. apply Hall. by eapply list_elem_of_lookup_2.
  - intros i Hi Hnb. apply weights_matrix_row_one; [done|].
    intros Hnil. apply Hnb. rewrite neighbors_of_R by done. by rewrite Hnil.
  - intros i Hi Hzero. rewrite neighbors_of_R by done. f_equal.
    destruct (neighbors languages k i) as [|p nb] eqn:Hnb; [done|]. exfalso.
    pose proof (weights_matrix_row_one languages k inverse_distance i Hi) as H1.
    rewrite Hnb in H1. specialize (H1 ltac:(done)).
    fold M n in H1. rewrite sigma_zero in H1 by done. lra.
  - intros Hk Hn i Hi. rewrite Hone by done. split; [done|].
    rewrite Rminus_diag, Rabs_R0. apply Rlt_le, Rdiv_lt_0_compat; [lra|].
    apply pow_lt. lra.
  - intros Hk i Hi Hzero. destruct (decide (n < 2)%nat) as [|Hn]; [done|].
    exfalso. pose proof (Hone i Hi Hk ltac:(lia)) as H1.
    rewrite sigma_zero in H1 by done. lra.
Qed.

(** ** The Permutation Tester *)

Lemma shuffles_perm (m : nat) (g : G) (x : list Z) :
  Forall (fun y => y ≡ₚ x) (shuffles m g x).1 ∧ length (shuffles m g x).1 = m.
Proof using shuffle_perm.
  revert g. induction m as [|m IH]; intros g; [by split|].
  cbn [shuffles]. pose proof (shuffle_perm g x) as Hp.
  destruct (shuffle g x) as [y g1]. specialize (IH g1).
  destruct (shuffles m g1 x) as [ys g2]. cbn in *.
  destruct IH as [IH1 IH2]. split; [by constructor | by rewrite IH2].
Qed.

Lemma range_cons (m : nat) : range (S m) = 0%nat :: map S (range m).
Proof. unfold range. cbn [seq]. by rewrite <- fmap_S_seq. Qed.

(** A loop whose body does not read the loop variable. *)
Lemma foldM_map {A B : Type} (h : A → A) (f : B → A → result B) (b : B)
    (l : list A) :
  (∀ b x y, f b x = f b y) → foldM f b (map h l) = foldM f b l.
Proof.
  intros Hf. revert b. induction l as [|x l IH]; intros b; [reflexivity|].
  cbn. rewrite (Hf b (h x) x). destruct (f b x); cbn; [apply IH | reflexivity].
Qed.

Lemma calculate_morans_i_statistic_Ok (languages : list (Language R))
    (x : list Z) (W : list (list R)) :
  square (length x) W →
  ∃ z p, calculate_morans_i languages x W = Ok (statistic languages x W, z, p).
Proof.
  intros HW. unfold statistic.
  rewrite (calculate_morans_i_spec languages x W HW).
  destruct (morans_spec x W) as [[stat z] p]. eauto.
Qed.

Lemma permutation_loop (languages : list (Language R)) (x : list Z)
    (W : list (list R)) (obs : R) (m : nat) (c : Z) (g : G) :
  square (length x) W →
  foldM (fun '(more_extreme, g) (_ : nat) =>
    let '(shuffled_values, g) := shuffle g x in
    '(perm_I, _, _) ← calculate_morans_i languages shuffled_values W;
    if f_leb (f_abs obs) (f_abs perm_I)
    then Ok ((more_extreme + 1)%Z, g)
    else Ok (more_extreme, g)) (c, g) (range m)
  = Ok ((c + Z.of_nat (length (filter (fun y => (Rabs obs
                                   <= Rabs (statistic languages y W))%R)
                                 (shuffles m g x).1)))%Z,
        (shuffles m g x).2).
Proof using shuffle_perm.
  intros HW. revert c g. induction m as [|m IH]; intros c g.
  - cbn. do 2 f_equal. lia.
  - rewrite range_cons. cbn [foldM shuffles].
    pose proof (shuffle_perm g x) as Hp.
    destruct (shuffle g x) as [y g1]. cbn in Hp.
    assert (HWy : square (length y) W) by by rewrite Hp.
    destruct (calculate_morans_i_statistic_Ok languages y W HWy) as (z & p & Hy).
    rewrite Hy. cbn [mbind result_bind].
    destruct (shuffles m g1 x) as [ys g2] eqn:Hys. cbn [fst snd].
    rewrite filter_cons. Rops.
    case_bool_decide as Hext; cbn [mbind result_bind];
      rewrite foldM_map by (by intros [? ?] ? ?).
    + rewrite IH, Hys, decide_True by done. cbn [fst snd length].
      do 2 f_equal. lia.
    + rewrite IH, Hys, decide_False by done. reflexivity.
Qed.

Lemma permutation_test_R (languages : list (Language R)) (x : list Z)
    (W : list (list R)) (M : Z) (g : G) :
  square (length x) W →
  permutation_test shuffle languages x W M g =
    let perms := shuffles (Z.to_nat M) g x in
    let count := count_extreme languages x W perms.1 in
    if decide (M = -1)%Z then Raise ZeroDivisionError
    else Ok (statistic languages x W,
             IZR (Z.of_nat count + 1) / IZR (M + 1), perms.2).
Proof using shuffle_perm.
  intros HW. unfold permutation_test.
  destruct (calculate_morans_i_statistic_Ok languages x W HW) as (z & p & Hx).
  rewrite Hx. cbn [mbind result_bind].
  rewrite permutation_loop by done. cbn [mbind result_bind]. cbv zeta.
  fold (count_extreme languages x W (shuffles (Z.to_nat M) g x).1).
  Rops. rewrite Z.add_0_l. case_decide as HM.
  - subst M. cbn [Z.add Z.pos_sub]. by rewrite py_div_R0.
  - rewrite py_div_R; [reflexivity|]. apply not_0_IZR. lia.
Qed.

(** C7. With a square weights matrix and a permutation count [M] other
    than [-1], [permutation_test] returns the observed statistic of the
    unshuffled vector and the p-value [(count + 1) / (M + 1)], where
    [count] is the number of the [M] shuffled copies of the value vector
    (each a permutation of it, the matrix unchanged) whose statistic
    satisfies [|I_perm| >= |I_observed|]; that p-value is not 0. *)
Theorem permutation_test_p_value (languages : list (Language R)) (x : list Z)
    (W : list (list R)) (M : Z) (g : G) :
  square (length x) W →
  M ≠ (-1)%Z →
  ∃ perms g' I_obs z p,
    shuffles (Z.to_nat M) g x = (perms, g') ∧
    length perms = Z.to_nat M ∧
    Forall (fun y => y ≡ₚ x) perms ∧
    calculate_morans_i languages x W = Ok (I_obs, z, p) ∧
    let count := length (filter (fun y => Rabs I_obs
                                   <= Rabs (statistic languages y W)) perms) in
    permutation_test shuffle languages x W M g
      = Ok (I_obs, (INR count + 1) / (IZR M + 1), g') ∧
    (INR count + 1) / (IZR M + 1) ≠ 0.
Proof using shuffle_perm.
  intros HW HM.
  destruct (shuffles_perm (Z.to_nat M) g x) as [Hperm Hlen].
  destruct (calculate_morans_i_statistic_Ok languages x W HW) as (z & p & Hx).
  exists (shuffles (Z.to_nat M) g x).1, (shuffles (Z.to_nat M) g x).2,
         (statistic languages x W), z, p.
  cbv zeta. split_and!; [by destruct (shuffles _ _ _) | done..| |].
  - rewrite permutation_test_R by done. cbv zeta.
    rewrite decide_False by done. unfold count_extreme.
    by rewrite !plus_IZR, <- INR_IZR_INZ.
  - pose proof (pos_INR (length (filter (fun y => Rabs (statistic languages x W)
        <= Rabs (statistic languages y W)) (shuffles (Z.to_nat M) g x).1))).
    assert (IZR M + 1 ≠ 0).
    { rewrite <- plus_IZR. apply not_0_IZR. lia. }
    intros Hp0. apply (f_equal (fun t => t * (IZR M + 1))) in Hp0.
    field_simplify in Hp0; [lra | done].
Qed.

Lemma py_sum_replicate_0 (n : nat) : py_sum (replicate n 0) = 0.
Proof.
  rewrite py_sum_lookup. apply sigma_zero. intros i Hi.
  rewrite length_replicate in Hi. by rewrite lookup_replicate_2.
Qed.

Lemma weights_matrix_k0 (languages : list (Language R)) (b : bool) :
  weights_matrix languages 0 b
  = replicate (length languages) (replicate (length languages) 0).
Proof.
  unfold weights_matrix. set (n := length languages).
  assert (Hrow : ∀ i, normalize_row (raw_row languages 0 b i) = replicate n 0).
  { intros i. unfold raw_row, neighbors, slice_to. rewrite decide_True by lia.
    change (Z.to_nat 0) with 0%nat. rewrite take_0.
    cbn [assign_row foldl]. fold n. unfold normalize_row.
    rewrite py_sum_replicate_0. rewrite decide_False by lra. done. }
  apply list_eq. intros i. rewrite list_lookup_fmap.
  destruct (decide (i < n)%nat) as [Hi|Hi].
  - unfold range. rewrite lookup_seq_lt, lookup_replicate_2 by done.
    cbn. by rewrite Hrow.
  - unfold range. rewrite lookup_seq_ge by lia.
    symmetry. apply lookup_replicate_None. lia.
Qed.

(** C8 (as the code has it). Neither routine validates its count.  With
    [k < 1] the builder returns a matrix (the all-zero one for [k = 0]);
    with [M < 1] the tester draws no permutation and returns the observed
    statistic with the p-value [1 / (M + 1)], except that [M = -1] makes
    the final division raise [ZeroDivisionError]. *)
Theorem invalid_counts_not_rejected (languages : list (Language R))
    (inverse_distance : bool) (x : list Z) (W : list (list R)) (k M : Z) (g : G) :
  square (length x) W →
  (k < 1)%Z →
  (M < 1)%Z →
  (∃ Wm, compute_spatial_weights languages k inverse_distance = Ok Wm ∧
         square (length languages) Wm ∧
         (k = 0%Z → Wm = replicate (length languages)
                                   (replicate (length languages) 0))) ∧
  (M ≠ (-1)%Z →
     ∃ I_obs z p,
       calculate_morans_i languages x W = Ok (I_obs, z, p) ∧
       permutation_test shuffle languages x W M g
         = Ok (I_obs, 1 / (IZR M + 1), g)) ∧
  (M = (-1)%Z →
     permutation_test shuffle languages x W M g = Raise ZeroDivisionError).
Proof using shuffle_perm.
  intros HW Hk HM. split_and!.
  - exists (weights_matrix languages k inverse_distance).
    split_and!; [apply compute_spatial_weights_R | apply weights_matrix_square |].
    intros ->. apply weights_matrix_k0.
  - intros HM1.
    destruct (calculate_morans_i_statistic_Ok languages x W HW) as (z & p & Hx).
    exists (statistic languages x W), z, p. split; [done|].
    rewrite permutation_test_R by done. cbv zeta.
    rewrite decide_False by done.
    replace (Z.to_nat M) with 0%nat by lia. cbn [shuffles fst snd].
    unfold count_extreme. rewrite filter_nil.
    change (Z.of_nat (length []) + 1)%Z with 1%Z. by rewrite plus_IZR.
  - intros ->. rewrite permutation_test_R by done. cbv zeta.
    by rewrite decide_True.
Qed.

(** ** The line scenario *)

Lemma great_circle_parallel (lat lon1 lon2 : R) :
  great_circle lat lon1 lat lon2 = parallel_dist lat (lon2 - lon1).
Proof.
  unfold great_circle, parallel_dist, hav_a. f_equal.
  replace ((lat - lat) * (PI / 180) / 2) with 0 by lra. rewrite sin_0. ring.
Qed.

Lemma parallel_dist_opp (lat delta : R) :
  parallel_dist lat (- delta) = parallel_dist lat delta.
Proof.
  unfold parallel_dist. f_equal.
  replace (- delta * (PI / 180) / 2) with (- (delta * (PI / 180) / 2)) by lra.
  rewrite sin_neg. ring.
Qed.

Lemma arc_increasing (a1 a2 : R) : 0 <= a1 → a1 < a2 → a2 < 1 → arc a1 < arc a2.
Proof.
  intros H0 H12 H1. unfold arc, Ratan2.
  assert (Hv1 : 0 < sqrt (1 - a1)) by (apply sqrt_lt_R0; lra).
  assert (Hv2 : 0 < sqrt (1 - a2)) by (apply sqrt_lt_R0; lra).
  rewrite !decide_True by done.
  assert (Hu : sqrt a1 < sqrt a2) by (apply sqrt_lt_1; lra).
  assert (Hv : sqrt (1 - a2) < sqrt (1 - a1)) by (apply sqrt_lt_1; lra).
  pose proof (sqrt_pos a1) as Hu1.
  assert (Hq : sqrt a1 / sqrt (1 - a1) < sqrt a2 / sqrt (1 - a2)).
  { apply (Rmult_lt_reg_r (sqrt (1 - a1) * sqrt (1 - a2))); [nra|].
    replace (sqrt a1 / sqrt (1 - a1) * (sqrt (1 - a1) * sqrt (1 - a2)))
      with (sqrt a1 * sqrt (1 - a2)) by (field; lra).
    replace (sqrt a2 / sqrt (1 - a2) * (sqrt (1 - a1) * sqrt (1 - a2)))
      with (sqrt a2 * sqrt (1 - a1)) by (field; lra).
    nra. }
  pose proof (atan_increasing _ _ Hq). lra.
Qed.

Lemma parallel_dist_increasing (lat d1 d2 : R) :
  -90 < lat < 90 → 0 <= d1 → d1 < d2 → d2 < 180 →
  parallel_dist lat d1 < parallel_dist lat d2.
Proof.
  intros Hlat H0 H12 H2. pose proof PI_RGT_0 as Hpi.
  assert (Hc : 0 < cos (lat * (PI / 180))) by (apply cos_gt_0; nra).
  pose proof (COS_bound (lat * (PI / 180))) as [_ Hc1].
  set (t1 := d1 * (PI / 180) / 2). set (t2 := d2 * (PI / 180) / 2).
  assert (Ht1 : 0 <= t1) by (unfold t1; nra).
  assert (Ht12 : t1 < t2) by (unfold t1, t2; nra).
  assert (Ht2 : t2 < PI / 2) by (unfold t2; nra).
  assert (Hs1 : 0 <= sin t1) by (apply sin_ge_0; lra).
  assert (Hs12 : sin t1 < sin t2) by (apply sin_increasing_1; lra).
  assert (Hs2 : sin t2 < 1).
  { rewrite <- sin_PI2. apply sin_increasing_1; lra. }
  unfold parallel_dist. fold t1 t2.
  set (c := cos (lat * (PI / 180))) in *.
  assert (Hss : sin t1 ^ 2 < sin t2 ^ 2) by nra.
  assert (Hs21 : sin t2 ^ 2 < 1) by nra.
  assert (Hs10 : 0 <= sin t1 ^ 2) by nra.
  assert (Hcc : 0 < c ^ 2 <= 1) by nra.
  apply arc_increasing; nra.
Qed.

Lemma lang_at_line (lat : R) (i : nat) :
  (i < 5)%nat → lang_at (line_points lat) i = point lat (INR i).
Proof.
  intros Hi. do 5 (destruct i as [|i]; [cbn; f_equal; lra|]). lia.
Qed.

Lemma dist_line (lat : R) (i j : nat) :
  (i < 5)%nat → (j < 5)%nat →
  dist (line_points lat) i j
  = pd lat (if decide (i ≤ j)%nat then j - i else i - j).
Proof.
  intros Hi Hj. unfold dist. rewrite !lang_at_line by done.
  cbn [latitude longitude point]. rewrite great_circle_parallel. unfold pd.
  case_decide.
  - by rewrite minus_INR.
  - rewrite <- parallel_dist_opp. f_equal. rewrite minus_INR by lia. lra.
Qed.

Lemma pd_increasing (lat : R) (m1 m2 : nat) :
  -90 < lat < 90 → (m1 < m2)%nat → (m2 < 180)%nat → pd lat m1 < pd lat m2.
Proof.
  intros Hlat H12 H2. apply parallel_dist_increasing; [done|..].
  - apply pos_INR.
  - by apply lt_INR.
  - replace 180 with (INR 180); [by apply lt_INR|].
    rewrite INR_IZR_INZ. reflexivity.
Qed.

Lemma candidates_line (lat : R) (i : nat) :
  (i < 5)%nat →
  candidates (line_points lat) i =
  map (fun j => (j, pd lat (if decide (i ≤ j)%nat then j - i else i - j)%nat))
      (filter (fun j => i ≠ j) (range 5)).
Proof.
  intros Hi. unfold candidates. apply map_ext_in.
  intros j [_ Hj%elem_of_range]%list_elem_of_In%list_elem_of_filter.
  by rewrite dist_line.
Qed.

Lemma neighbors_line (lat : R) :
  -90 < lat < 90 →
  neighbors (line_points lat) 2 0 = [(1%nat, pd lat 1); (2%nat, pd lat 2)] ∧
  neighbors (line_points lat) 2 1 = [(0%nat, pd lat 1); (2%nat, pd lat 1)] ∧
  neighbors (line_points lat) 2 2 = [(1%nat, pd lat 1); (3%nat, pd lat 1)] ∧
  neighbors (line_points lat) 2 3 = [(2%nat, pd lat 1); (4%nat, pd lat 1)] ∧
  neighbors (line_points lat) 2 4 = [(3%nat, pd lat 1); (2%nat, pd lat 2)].
Proof.
  intros Hlat.
  pose proof (pd_increasing lat 1 2 Hlat ltac:(lia) ltac:(lia)) as H12.
  pose proof (pd_increasing lat 2 3 Hlat ltac:(lia) ltac:(lia)) as H23.
  pose proof (pd_increasing lat 3 4 Hlat ltac:(lia) ltac:(lia)) as H34.
  unfold neighbors. rewrite !candidates_line by lia.
  change (filter (fun j => 0%nat ≠ j) (range 5)) with [1; 2; 3; 4]%nat.
  change (filter (fun j => 1%nat ≠ j) (range 5)) with [0; 2; 3; 4]%nat.
  change (filter (fun j => 2%nat ≠ j) (range 5)) with [0; 1; 3; 4]%nat.
  change (filter (fun j => 3%nat ≠ j) (range 5)) with [0; 1; 2; 4]%nat.
  change (filter (fun j => 4%nat ≠ j) (range 5)) with [0; 1; 2; 3]%nat.
  cbn [map]. decide_nat. cbn [Nat.sub]. Rops. eval_sort.
  unfold slice_to. rewrite !decide_True by lia.
  change (Z.to_nat 2) with 2%nat. cbn [take]. done.
Qed.

Lemma raw_weight_antitone (d1 d2 : R) :
  d1 <= d2 → raw_weight true d2 <= raw_weight true d1.
Proof.
  intros Hd. cbn [raw_weight].
  pose proof (py_max_tenth d1). pose proof (py_max_tenth d2).
  assert (py_max d1 (1 / 10) <= py_max d2 (1 / 10)).
  { unfold py_max. Rops. repeat case_bool_decide; lra. }
  apply Rmult_le_compat_l; [lra|]. apply Rinv_le_contravar; lra.
Qed.

Lemma weights_matrix_line (lat : R) :
  -90 < lat < 90 →
  ∃ a b, a + b = 1 ∧ b <= a ∧ 0 < b ∧
    weights_matrix (line_points lat) 2 true = line_matrix a b.
Proof.
  intros Hlat.
  pose proof (pd_increasing lat 1 2 Hlat ltac:(lia) ltac:(lia)) as H12.
  destruct (neighbors_line lat Hlat) as (N0 & N1 & N2 & N3 & N4).
  set (u1 := raw_weight true (pd lat 1)).
  set (u2 := raw_weight true (pd lat 2)).
  assert (Hu1 : 0 < u1) by apply raw_weight_pos.
  assert (Hu2 : 0 < u2) by apply raw_weight_pos.
  assert (Hu : u2 <= u1) by (apply raw_weight_antitone; lra).
  exists (u1 / (u1 + u2)), (u2 / (u1 + u2)).
  split_and!.
  - field. lra.
  - apply Rmult_le_compat_r; [|done]. left. apply Rinv_0_lt_compat. lra.
  - apply Rdiv_lt_0_compat; lra.
  - unfold weights_matrix, raw_row.
    change (range (length (line_points lat))) with [0; 1; 2; 3; 4]%nat.
    cbn [map]. rewrite N0, N1, N2, N3, N4.
    cbn [assign_row foldl length line_points replicate insert list_insert].
    fold u1 u2. unfold normalize_row, py_sum. Rops. cbn [foldl map].
    rewrite !decide_True by lra.
    unfold line_matrix.
    repeat match goal with |- _ :: _ = _ :: _ => apply (f_equal2 cons) end;
      try reflexivity; try lra; field; lra.
Qed.

Lemma morans_I_line_clustered (a b : R) :
  a + b = 1 →
  morans_I [1; 1; 1; 0; 0]%Z (line_matrix a b) = (6 * a + 1) / 12.
Proof.
  intros Hab. assert (Hb : b = 1 - a) by lra. subst b.
  unfold morans_I, W_total, cross_product, sum_sq_dev, dev, mean, sum_Z, x_at,
    entry, line_matrix.
  eval_sums. field. repeat split; lra.
Qed.

Lemma morans_I_line_interleaved (a b : R) :
  a + b = 1 →
  morans_I [1; 0; 1; 0; 1]%Z (line_matrix a b) = - (2 * a + 1) / 3.
Proof.
  intros Hab. assert (Hb : b = 1 - a) by lra. subst b.
  unfold morans_I, W_total, cross_product, sum_sq_dev, dev, mean, sum_Z, x_at,
    entry, line_matrix.
  eval_sums. field. repeat split; lra.
Qed.

Lemma W_total_line (a b : R) : a + b = 1 → W_total 5 (line_matrix a b) = 5.
Proof.
  intros Hab. unfold W_total, entry, line_matrix. eval_sums. lra.
Qed.

Lemma square_line (a b : R) : square 5 (line_matrix a b).
Proof. split; [reflexivity|]. unfold line_matrix. by repeat constructor. Qed.

Lemma not_constant_pair (x : list Z) (v1 v2 : Z) :
  v1 ∈ x → v2 ∈ x → v1 ≠ v2 → ¬ constant x.
Proof. intros H1 H2 Hne Hc. apply Hne. by apply Hc. Qed.

(** C9. Five points at longitudes 0, 1, 2, 3, 4 on one parallel (not a
    pole), [k = 2], inverse-distance weights: the labels [1,1,1,0,0] give
    [I > 0.3]; the labels [1,0,1,0,1], with the same matrix, give a value
    that is at most [E[I] = -0.25] and below the first one. *)
Theorem morans_i_line_scenarios (lat : R) :
  -90 < lat < 90 →
  ∃ W I_A z_A p_A I_B z_B p_B,
    compute_spatial_weights (line_points lat) 2 true = Ok W ∧
    calculate_morans_i (line_points lat) [1; 1; 1; 0; 0]%Z W = Ok (I_A, z_A, p_A) ∧
    calculate_morans_i (line_points lat) [1; 0; 1; 0; 1]%Z W = Ok (I_B, z_B, p_B) ∧
    3 / 10 < I_A ∧
    expected_I 5 = -1 / 4 ∧
    I_B <= expected_I 5 ∧
    I_B < I_A.
Proof.
  intros Hlat.
  destruct (weights_matrix_line lat Hlat) as (a & b & Hab & Hba & Hb & HW).
  pose proof (W_total_line a b Hab) as HWt.
  assert (HE : expected_I 5 = -1 / 4).
  { unfold expected_I. change (INR 5) with (1 + 1 + 1 + 1 + 1). field. }
  destruct (calculate_morans_i_nondegenerate (line_points lat)
              [1; 1; 1; 0; 0]%Z (line_matrix a b)) as (zA & pA & HA).
  { cbn. lia. }
  { apply (not_constant_pair _ 1%Z 0%Z); [by repeat constructor..|done]. }
  { apply square_line. }
  { cbn [length]. rewrite HWt. lra. }
  destruct (calculate_morans_i_nondegenerate (line_points lat)
              [1; 0; 1; 0; 1]%Z (line_matrix a b)) as (zB & pB & HB).
  { cbn. lia. }
  { apply (not_constant_pair _ 1%Z 0%Z); [by repeat constructor..|done]. }
  { apply square_line. }
  { cbn [length]. rewrite HWt. lra. }
  rewrite morans_I_line_clustered in HA by done.
  rewrite morans_I_line_interleaved in HB by done.
  exists (line_matrix a b), ((6 * a + 1) / 12), zA, pA, (- (2 * a + 1) / 3), zB, pB.
  split_and!; [by rewrite compute_spatial_weights_R, HW | done | done | lra | done | |].
  - rewrite HE. lra.
  - lra.
Qed.

Lemma var_line_half :
  var_C [1; 1; 1; 0; 0]%Z (line_matrix (1 / 2) (1 / 2)) = 600 ∧
  var_I [1; 1; 1; 0; 0]%Z (line_matrix (1 / 2) (1 / 2)) = 19 / 180.
Proof.
  unfold var_I, var_A, var_B, var_C, b2, S1, S2, W_total, expected_I,
    sum_sq_dev, dev, mean, sum_Z, x_at, entry, line_matrix.
  eval_sums. split; field; repeat split; lra.
Qed.

(** ** Regions, baseline and enrichment *)

Lemma classify_region_names {F : Type} `{PyFloat F} (lat lng : F) :
  classify_region lat lng ∈ region_names.
Proof.
  unfold classify_region, region_names.
  repeat case_match; rewrite !elem_of_cons; tauto.
Qed.

(** X1: over the reals the four regions are exactly the ones of the
    docstring of [classify_region], the Sahul box without the strip
    [-11 < lat < 3], [110 < lng <= 125]. *)
Theorem classify_region_cases (lat lng : R) :
  (classify_region lat lng = "americas" ↔ lng < -30) ∧
  (classify_region lat lng = "caucasus" ↔ 37 < lat < 45 ∧ 37 < lng < 50) ∧
  (classify_region lat lng = "sahul" ↔
     110 < lng ∧ lat < 3 ∧ (lat <= -11 ∨ 125 < lng)) ∧
  (classify_region lat lng = "non_refugia" ↔
     -30 <= lng ∧ ¬ (37 < lat < 45 ∧ 37 < lng < 50) ∧
     ¬ (110 < lng ∧ lat < 3 ∧ (lat <= -11 ∨ 125 < lng))).
Proof.
  unfold classify_region. Rops.
  repeat case_bool_decide; cbn [andb]; split_and!; split;
    first [discriminate | lra | tauto | idtac].
  all: try (intros _; lra).
Qed.

(** X2: [is_refugia] holds exactly in the union of the three regions. *)
Theorem is_refugia_iff (lat lng : R) :
  is_refugia lat lng = true ↔
    lng < -30 ∨ (37 < lat < 45 ∧ 37 < lng < 50) ∨
    (110 < lng ∧ lat < 3 ∧ (lat <= -11 ∨ 125 < lng)).
Proof.
  unfold is_refugia, classify_region. Rops.
  repeat case_bool_decide; cbn [andb]; cbn; split;
    first [discriminate | lra | tauto | idtac].
  all: try (intros _; lra).
Qed.

(** *** The counting dictionary *)

Lemma dd_getitem_fst (d : gmap string Z) (key : string) :
  (dd_getitem d key).1 = default 0%Z (d !! key).
Proof. unfold dd_getitem. by destruct (d !! key). Qed.

Lemma dd_getitem_lookup (d : gmap string Z) (key r : string) :
  (dd_getitem d key).2 !! r =
    if decide (r = key) then Some (default 0%Z (d !! key)) else d !! r.
Proof.
  unfold dd_getitem. destruct (d !! key) eqn:E; cbn [snd].
  - case_decide; by subst.
  - case_decide; [subst; by rewrite lookup_insert_eq|].
    by rewrite lookup_insert_ne.
Qed.

Lemma dd_getitem_default (d : gmap string Z) (key r : string) :
  default 0%Z ((dd_getitem d key).2 !! r) = default 0%Z (d !! r).
Proof. rewrite dd_getitem_lookup. case_decide; by subst. Qed.

Lemma dd_incr_lookup (d : gmap string Z) (key r : string) :
  dd_incr d key !! r =
    if decide (r = key) then Some (default 0 (d !! key) + 1)%Z else d !! r.
Proof.
  unfold dd_incr.
  pose proof (dd_getitem_fst d key) as H1.
  pose proof (dd_getitem_lookup d key r) as H2.
  destruct (dd_getitem d key) as [v d']. cbn [fst snd] in *. subst v.
  case_decide; [subst; by rewrite lookup_insert_eq|].
  by rewrite lookup_insert_ne.
Qed.

Lemma count_regions_snoc {F : Type} `{PyFloat F} (langs : list (Language F))
    (l : Language F) :
  count_regions (langs ++ [l]) = dd_incr (count_regions langs) (region_of l).
Proof. unfold count_regions. by rewrite foldl_app. Qed.

Lemma in_region_snoc {F : Type} `{PyFloat F} (r : string)
    (langs : list (Language F)) (l : Language F) :
  in_region r (langs ++ [l]) =
    (in_region r langs + if decide (region_of l = r) then 1 else 0)%nat.
Proof.
  unfold in_region. rewrite filter_app, length_app. f_equal.
  rewrite filter_cons, filter_nil. by case_decide.
Qed.

(** After the loop the dictionary has a key for each region that occurs,
    with the number of its data points. *)
Lemma count_regions_lookup {F : Type} `{PyFloat F} (langs : list (Language F))
    (r : string) :
  count_regions langs !! r =
    if decide (in_region r langs = 0)%nat then None
    else Some (Z.of_nat (in_region r langs)).
Proof.
  induction langs as [|l langs IH] using rev_ind; [done|].
  rewrite count_regions_snoc, dd_incr_lookup, in_region_snoc.
  destruct (decide (r = region_of l)) as [->|Hne].
  - rewrite IH. rewrite (decide_True (P := region_of l = region_of l)) by done.
    rewrite (decide_False (P := (_ + 1 = 0)%nat)) by lia.
    case_decide as E; [rewrite E|]; simpl; f_equal; lia.
  - rewrite (decide_False (P := region_of l = r)) by done.
    rewrite Nat.add_0_r. apply IH.
Qed.

Lemma count_regions_default {F : Type} `{PyFloat F} (langs : list (Language F))
    (r : string) :
  default 0%Z (count_regions langs !! r) = Z.of_nat (in_region r langs).
Proof. rewrite count_regions_lookup. case_decide as E; [by rewrite E|done]. Qed.

Lemma in_region_other {F : Type} `{PyFloat F} (langs : list (Language F))
    (r : string) :
  r ∉ region_names → in_region r langs = 0%nat.
Proof.
  intros Hr. unfold in_region.
  induction langs as [|l langs IH]; [done|].
  rewrite filter_cons. case_decide as E; [|done].
  destruct Hr. rewrite <- E. apply classify_region_names.
Qed.

(** Reading the keys of a list in turn, as [sum(d[r] for r in keys)] and
    the dictionary display of the results do. *)
Lemma dd_sum_spec (keys : list string) (d : gmap string Z) (acc : Z) :
  ∃ d',
    foldl (fun '(acc, d) r => let '(v, d) := dd_getitem d r in ((acc + v)%Z, d))
          (acc, d) keys
    = ((acc + foldr Z.add 0 (map (fun r => default 0 (d !! r)) keys))%Z, d') ∧
    ∀ r, d' !! r = if decide (r ∈ keys) then Some (default 0%Z (d !! r)) else d !! r.
Proof.
  revert d acc. induction keys as [|k keys IH]; intros d acc.
  - exists d. split; [cbn; f_equal; lia|]. intros r.
    by rewrite decide_False by apply not_elem_of_nil.
  - cbn [foldl map foldr].
    pose proof (dd_getitem_fst d k) as H1.
    pose proof (dd_getitem_lookup d k) as H2.
    destruct (dd_getitem d k) as [v d1]. cbn [fst snd] in *. subst v.
    destruct (IH d1 (acc + default 0 (d !! k))%Z) as (d' & -> & Hd').
    exists d'. split.
    + f_equal. rewrite Z.add_assoc. do 2 f_equal.
      apply map_ext_in; intros r _. rewrite H2. case_decide; by subst.
    + intros r. rewrite Hd', H2.
      destruct (decide (r = k)) as [->|Hne].
      * rewrite (decide_True (P := k ∈ k :: keys)) by (rewrite elem_of_cons; tauto).
        by case_decide.
      * case_decide as E.
        -- by rewrite decide_True by (rewrite elem_of_cons; tauto).
        -- rewrite decide_False; [done|].
           rewrite elem_of_cons. tauto.
Qed.

Ltac dd_read :=
  match goal with
  | |- context [dd_getitem ?d ?k] =>
    let v := fresh "v" in
    let d' := fresh "d" in
    let Hv := fresh "Hv" in
    let Hd := fresh "Hd" in
    pose proof (dd_getitem_fst d k) as Hv;
    pose proof (dd_getitem_lookup d k) as Hd;
    destruct (dd_getitem d k) as [v d']; cbn [fst snd] in Hv, Hd
  end.

(** The reads that follow the counting loop: the three refugia counts are
    summed, the four counts are read, and the dictionary ends with a key
    for each of the four regions. *)
Lemma region_reads {F : Type} `{PyFloat F} (langs : list (Language F)) :
  let n r := Z.of_nat (in_region r langs) in
  ∃ d1 D,
    dd_sum (count_regions langs) ["americas"; "sahul"; "caucasus"]
      = ((n "americas" + n "sahul" + n "caucasus")%Z, d1) ∧
    (∀ (A : Type) (k : Z → Z → Z → Z → gmap string Z → A),
       (let '(americas, d) := dd_getitem d1 "americas" in
        let '(sahul, d) := dd_getitem d "sahul" in
        let '(caucasus, d) := dd_getitem d "caucasus" in
        let '(non_refugia, d) := dd_getitem d "non_refugia" in
        k americas sahul caucasus non_refugia d)
       = k (n "americas") (n "sahul") (n "caucasus") (n "non_refugia") D) ∧
    (∀ r, D !! r = if decide (r ∈ region_names) then Some (n r) else None).
Proof.
  intros n.
  destruct (dd_sum_spec ["americas"; "sahul"; "caucasus"] (count_regions langs) 0)
    as (d1 & Hsum & Hd1).
  cbn [map foldr] in Hsum. rewrite !count_regions_default in Hsum.
  assert (Hdef : ∀ r, default 0%Z (d1 !! r) = n r).
  { intros r. rewrite Hd1. case_decide; simpl; apply count_regions_default. }
  pose proof (dd_sum_spec ["americas"; "sahul"; "caucasus"; "non_refugia"] d1 0)
    as (D & Hsum4 & HD).
  exists d1, D. split_and!.
  - unfold dd_sum. rewrite Hsum. f_equal. unfold n. lia.
  - intros A k. cbn [foldl] in Hsum4.
    repeat dd_read. injection Hsum4 as _ <-.
    subst. f_equal.
    all: rewrite ?Hd2, ?Hd0, ?Hd; 
      repeat (rewrite decide_False by done); rewrite ?Hdef; done.
  - intros r. rewrite HD. fold region_names. case_decide as E.
    + by rewrite Hdef.
    + rewrite Hd1. rewrite decide_False.
      * rewrite count_regions_lookup, decide_True; [done|].
        by apply in_region_other.
      * intros E'. apply E. unfold region_names.
        rewrite !elem_of_cons in *. tauto.
Qed.

Lemma calculate_baseline_unfold {F : Type} `{PyFloat F} (langs : list (Language F)) :
  let n r := Z.of_nat (in_region r langs) in
  ∃ D, (∀ r, D !! r = if decide (r ∈ region_names) then Some (n r) else None) ∧
    calculate_baseline langs =
      pct ← percentage (n "americas" + n "sahul" + n "caucasus") (length langs);
      Ok (mkBaseline (length langs) (n "americas") (n "sahul") (n "caucasus")
            (n "non_refugia") (n "americas" + n "sahul" + n "caucasus") pct D).
Proof.
  intros n. destruct (region_reads langs) as (d1 & D & Hs & Hk & HD).
  exists D. split; [exact HD|].
  unfold calculate_baseline. rewrite Hs.
  exact (Hk _ (fun a s c nr d =>
    pct ← percentage (n "americas" + n "sahul" + n "caucasus") (length langs);
    Ok (mkBaseline (length langs) a s c nr
          (n "americas" + n "sahul" + n "caucasus") pct d))).
Qed.

Lemma calculate_enrichment_unfold {F : Type} `{PyFloat F}
    (langs : list (Language F)) (baseline_refugia_pct : F) :
  let n r := Z.of_nat (in_region r langs) in
  ∃ D, (∀ r, D !! r = if decide (r ∈ region_names) then Some (n r) else None) ∧
    calculate_enrichment langs baseline_refugia_pct =
      pct ← percentage (n "americas" + n "sahul" + n "caucasus") (length langs);
      enrichment ← (if f_ltb (f_of_Z 0) baseline_refugia_pct
                    then py_div pct baseline_refugia_pct
                    else Ok (f_of_Z 0));
      Ok (mkEnrichment (length langs) (n "americas") (n "sahul") (n "caucasus")
            (n "non_refugia") (n "americas" + n "sahul" + n "caucasus")
            pct (f_sub (f_of_Z 100) pct) enrichment D).
Proof.
  intros n. destruct (region_reads langs) as (d1 & D & Hs & Hk & HD).
  exists D. split; [exact HD|].
  unfold calculate_enrichment. rewrite Hs.
  destruct (percentage _ _) as [pct|]; [|done]. cbn.
  destruct (if f_ltb _ _ then _ else _) as [enr|]; [|done]. cbn.
  exact (Hk _ (fun a s c nr d =>
    Ok (mkEnrichment (length langs) a s c nr
          (n "americas" + n "sahul" + n "caucasus") pct
          (f_sub (f_of_Z 100) pct) enr d))).
Qed.

(** Each data point falls into exactly one of the four regions. *)
Lemma in_region_partition {F : Type} `{PyFloat F} (langs : list (Language F)) :
  (in_region "americas" langs + in_region "sahul" langs
   + in_region "caucasus" langs + in_region "non_refugia" langs)%nat
  = length langs.
Proof.
  unfold in_region. induction langs as [|l langs IH]; [done|].
  rewrite !filter_cons. cbn [length]. rewrite <- IH.
  pose proof (classify_region_names (latitude l) (longitude l)) as Hr.
  fold (region_of l) in Hr. unfold region_names in Hr.
  rewrite !elem_of_cons, elem_of_nil in Hr.
  destruct Hr as [E|[E|[E|[E|[]]]]]; rewrite E;
    repeat case_decide; first [congruence | cbn [length]; lia].
Qed.

Lemma in_region_perm {F : Type} `{PyFloat F} (r : string)
    (langs langs' : list (Language F)) :
  langs ≡ₚ langs' → in_region r langs = in_region r langs'.
Proof. intros E. unfold in_region. by rewrite E. Qed.

Lemma percentage_R (c : Z) (n : nat) :
  percentage c n = Ok (if decide (0 < n)%nat then 100 * IZR c / INR n else 0).
Proof.
  unfold percentage. case_decide as E; [|done].
  Rops. rewrite py_div_R.
  - by rewrite mult_IZR, INR_IZR_INZ.
  - rewrite <- INR_IZR_INZ. apply not_0_INR. lia.
Qed.

Lemma share_bounds (c : Z) (n : nat) :
  (0 < n)%nat → (0 ≤ c ≤ Z.of_nat n)%Z →
  0 <= 100 * IZR c / INR n <= 100 ∧
  (100 * IZR c / INR n = 0 ↔ c = 0%Z) ∧
  (100 * IZR c / INR n = 100 ↔ c = Z.of_nat n).
Proof.
  intros Hn [Hc0 Hcn].
  assert (0 < INR n) as Hpos by (apply lt_0_INR; lia).
  assert (0 <= IZR c) as Hc0' by (apply IZR_le in Hc0; lra).
  assert (IZR c <= INR n) as Hcn'
    by (rewrite INR_IZR_INZ; by apply IZR_le).
  assert (100 * IZR c / INR n * INR n = 100 * IZR c) as Hmul
    by (field; lra).
  split_and!.
  - apply Rmult_le_reg_r with (INR n); [done|]. rewrite Hmul. lra.
  - apply Rmult_le_reg_r with (INR n); [done|]. rewrite Hmul. lra.
  - split.
    + intros E. rewrite E in Hmul. apply eq_IZR. lra.
    + intros ->. unfold Rdiv. lra.
  - split.
    + intros E. rewrite E in Hmul. apply eq_IZR. rewrite <- INR_IZR_INZ. lra.
    + intros ->. rewrite <- INR_IZR_INZ. field. lra.
Qed.

Lemma refugia_count_bounds {F : Type} `{PyFloat F} (langs : list (Language F)) :
  let n r := Z.of_nat (in_region r langs) in
  (0 ≤ n "americas" + n "sahul" + n "caucasus" ≤ Z.of_nat (length langs))%Z.
Proof. intros n. unfold n. pose proof (in_region_partition langs). lia. Qed.

(** X3: over the reals [calculate_baseline] returns for every list, its
    four region counts are the numbers of data points that
    [classify_region] puts in each region, they add up to [total], and
    [refugia_total] is the sum of the three refugia counts. *)
Theorem calculate_baseline_counts (langs : list (Language R)) :
  ∃ b, calculate_baseline langs = Ok b ∧
    b_total b = length langs ∧
    b_americas b = Z.of_nat (in_region "americas" langs) ∧
    b_sahul b = Z.of_nat (in_region "sahul" langs) ∧
    b_caucasus b = Z.of_nat (in_region "caucasus" langs) ∧
    b_non_refugia b = Z.of_nat (in_region "non_refugia" langs) ∧
    b_refugia_total b = (b_americas b + b_sahul b + b_caucasus b)%Z ∧
    (b_refugia_total b + b_non_refugia b)%Z = Z.of_nat (b_total b).
Proof.
  destruct (calculate_baseline_unfold langs) as (D & HD & ->).
  rewrite percentage_R. cbn. eexists. split; [reflexivity|]. cbn.
  split_and!; try reflexivity.
  pose proof (in_region_partition langs). lia.
Qed.

(** X4: the [region_counts] dictionary of the baseline has exactly the
    four region names as keys, a region without data points with the
    value 0: the reads of the four counts insert the keys that the counting
    loop did not. *)
Theorem calculate_baseline_region_counts (langs : list (Language R)) :
  ∃ b, calculate_baseline langs = Ok b ∧
    (∀ r, b_region_counts b !! r =
            if decide (r ∈ region_names)
            then Some (Z.of_nat (in_region r langs)) else None) ∧
    (∀ r, in_region r langs = 0%nat → count_regions langs !! r = None).
Proof.
  destruct (calculate_baseline_unfold langs) as (D & HD & ->).
  rewrite percentage_R. cbn. eexists. split; [reflexivity|]. cbn.
  split; [exact HD|].
  intros r E. by rewrite count_regions_lookup, decide_True.
Qed.

(** X5: the baseline percentage lies between 0 and 100; it is 0 for the
    empty list (no division takes place) and otherwise
    [100 * refugia_total / total], so 0 exactly when no data point is in
    a refugium and 100 exactly when none is outside. *)
Theorem calculate_baseline_percentage (langs : list (Language R)) :
  ∃ b, calculate_baseline langs = Ok b ∧
    0 <= b_refugia_percentage b <= 100 ∧
    (langs = [] → b_refugia_percentage b = 0) ∧
    (langs ≠ [] →
       b_refugia_percentage b = 100 * IZR (b_refugia_total b) / INR (b_total b) ∧
       (b_refugia_percentage b = 0 ↔ b_refugia_total b = 0%Z) ∧
       (b_refugia_percentage b = 100 ↔ b_non_refugia b = 0%Z)).
Proof.
  destruct (calculate_baseline_unfold langs) as (D & HD & ->).
  rewrite percentage_R. cbn. eexists. split; [reflexivity|]. cbn.
  pose proof (refugia_count_bounds langs) as Hb. cbv beta zeta in Hb.
  pose proof (in_region_partition langs) as Hp.
  case_decide as Hn.
  - destruct (share_bounds _ _ Hn Hb) as (H1 & H2 & H3).
    split_and!; [apply H1..| |].
    + intros ->. cbn in Hn. lia.
    + intros _. split_and!; [done|done|].
      rewrite H3. lia.
  - split_and!; [lra..| |].
    + done.
    + intros Hne. destruct langs; [done|]. cbn in Hn. lia.
Qed.

Lemma calculate_enrichment_R (langs : list (Language R)) (pct0 : R) :
  let n r := Z.of_nat (in_region r langs) in
  let c := (n "americas" + n "sahul" + n "caucasus")%Z in
  let pct := if decide (0 < length langs)%nat
             then 100 * IZR c / INR (length langs) else 0 in
  ∃ D, (∀ r, D !! r = if decide (r ∈ region_names) then Some (n r) else None) ∧
    calculate_enrichment langs pct0 =
      Ok (mkEnrichment (length langs) (n "americas") (n "sahul") (n "caucasus")
            (n "non_refugia") c pct (100 - pct)
            (if decide (0 < pct0) then pct / pct0 else 0) D).
Proof.
  intros n c pct.
  destruct (calculate_enrichment_unfold langs pct0) as (D & HD & ->).
  exists D. split; [exact HD|].
  rewrite percentage_R. cbn. Rops.
  case_bool_decide as E.
  - rewrite py_div_R by lra. cbn.
    by rewrite (decide_True (P := 0 < pct0)).
  - cbn. by rewrite (decide_False (P := 0 < pct0)).
Qed.

(** X6: over the reals [calculate_enrichment] returns for every list and
    every baseline percentage; the two percentages add up to 100; a
    baseline that is zero or negative gives the enrichment factor 0
    instead of a division; an empty target list is reported as 0 percent
    refugia, 100 percent non-refugia and factor 0. *)
Theorem calculate_enrichment_edges (langs : list (Language R)) (pct0 : R) :
  ∃ e, calculate_enrichment langs pct0 = Ok e ∧
    e_total e = length langs ∧
    e_refugia_percentage e + e_non_refugia_percentage e = 100 ∧
    0 <= e_refugia_percentage e <= 100 ∧
    0 <= e_enrichment_factor e ∧
    (pct0 <= 0 → e_enrichment_factor e = 0) ∧
    (0 < pct0 → e_enrichment_factor e * pct0 = e_refugia_percentage e) ∧
    (langs = [] →
       e_refugia_percentage e = 0 ∧ e_non_refugia_percentage e = 100 ∧
       e_enrichment_factor e = 0 ∧ e_refugia_total e = 0%Z).
Proof.
  destruct (calculate_enrichment_R langs pct0) as (D & HD & ->).
  eexists. split; [reflexivity|]. cbn.
  match goal with |- context [100 - ?q] => set (p := q) in * end.
  assert (0 <= p <= 100) as Hpct.
  { pose proof (refugia_count_bounds langs) as Hb. cbv beta zeta in Hb.
    subst p. case_decide as Hn; [|lra]. apply (share_bounds _ _ Hn Hb). }
  assert (langs = [] → p = 0) as Hnil by (by intros ->).
  clearbody p.
  destruct (decide (0 < pct0)) as [E|E].
  - split_and!; try done; try lra.
    + apply Rmult_le_reg_r with pct0; [done|].
      unfold Rdiv. rewrite Rmult_assoc, Rinv_l by lra. lra.
    + intros _. field. lra.
    + intros Hl. rewrite (Hnil Hl).
      split_and!; [lra | lra | unfold Rdiv; lra | by subst].
  - split_and!; try done; try lra.
    intros Hl. rewrite (Hnil Hl). split_and!; [lra | lra | lra | by subst].
Qed.

(** X7: the enrichment of a list against its own baseline has the same
    counts and percentage as the baseline, and the factor 1 when some
    data point is in a refugium, 0 when none is. *)
Theorem calculate_enrichment_of_baseline (langs : list (Language R)) :
  ∃ b e, calculate_baseline langs = Ok b ∧
    calculate_enrichment langs (b_refugia_percentage b) = Ok e ∧
    e_total e = b_total b ∧ e_americas e = b_americas b ∧
    e_sahul e = b_sahul b ∧ e_caucasus e = b_caucasus b ∧
    e_non_refugia e = b_non_refugia b ∧
    e_refugia_total e = b_refugia_total b ∧
    e_refugia_percentage e = b_refugia_percentage b ∧
    e_region_counts e = b_region_counts b ∧
    e_enrichment_factor e = (if decide (b_refugia_total b = 0%Z) then 0 else 1).
Proof.
  destruct (calculate_baseline_unfold langs) as (D & HD & ->).
  rewrite percentage_R. cbn. eexists. 
  destruct (calculate_enrichment_R langs
    (if decide (0 < length langs)%nat
     then 100 * IZR (Z.of_nat (in_region "americas" langs)
                     + Z.of_nat (in_region "sahul" langs)
                     + Z.of_nat (in_region "caucasus" langs))
          / INR (length langs)
     else 0)) as (D' & HD' & He).
  eexists. split; [reflexivity|]. cbn. split; [exact He|]. cbn.
  split_and!; try reflexivity.
  - apply map_eq. intros r. by rewrite HD, HD'.
  - pose proof (refugia_count_bounds langs) as Hb. cbv beta zeta in Hb.
    destruct (Nat.eq_dec (length langs) 0%nat) as [Hn|Hn].
    + rewrite !(decide_False (P := (0 < length langs)%nat)) by lia.
      rewrite (decide_False (P := 0 < 0)) by lra.
      rewrite decide_True; [done|]. lia.
    + rewrite !(decide_True (P := (0 < length langs)%nat)) by lia.
      assert (0 < length langs)%nat as Hpos by lia.
      destruct (share_bounds _ _ Hpos Hb) as (H1 & H2 & H3).
      set (p := 100 * IZR _ / INR _) in *.
      destruct (decide (_ = 0%Z)) as [E|E].
      * apply H2 in E. rewrite E. by rewrite decide_False by lra.
      * assert (p ≠ 0) as Hp by (by rewrite H2).
        rewrite decide_True by lra. field. done.
Qed.

(** X8: in any arithmetic the baseline and the enrichment do not depend
    on the order of the data points. *)
Theorem region_statistics_order {F : Type} `{PyFloat F}
    (langs langs' : list (Language F)) (pct0 : F) :
  langs ≡ₚ langs' →
  calculate_baseline langs = calculate_baseline langs' ∧
  calculate_enrichment langs pct0 = calculate_enrichment langs' pct0.
Proof.
  intros E.
  destruct (calculate_baseline_unfold langs) as (D1 & HD1 & ->).
  destruct (calculate_baseline_unfold langs') as (D2 & HD2 & ->).
  destruct (calculate_enrichment_unfold langs pct0) as (D3 & HD3 & ->).
  destruct (calculate_enrichment_unfold langs' pct0) as (D4 & HD4 & ->).
  assert (D1 = D2) as ->.
  { apply map_eq. intros r. rewrite HD1, HD2.
    by rewrite (in_region_perm r _ _ E). }
  assert (D3 = D4) as ->.
  { apply map_eq. intros r. rewrite HD3, HD4.
    by rewrite (in_region_perm r _ _ E). }
  rewrite !(in_region_perm _ _ _ E), (Permutation_length E). done.
Qed.

(** ** The Permutation Tester: bounds and the degenerate case *)

Lemma count_extreme_le (languages : list (Language R)) (x : list Z)
    (W : list (list R)) (perms : list (list Z)) :
  (count_extreme languages x W perms ≤ length perms)%nat.
Proof. unfold count_extreme. apply length_filter. Qed.

(** X9: for a square weights matrix and [M >= 0] permutations the
    p-value of [permutation_test] lies between [1 / (M + 1)] and 1. *)
Theorem permutation_test_p_bounds (languages : list (Language R)) (x : list Z)
    (W : list (list R)) (M : Z) (g : G) :
  square (length x) W →
  (0 ≤ M)%Z →
  ∃ I_obs p g', permutation_test shuffle languages x W M g = Ok (I_obs, p, g') ∧
    1 / (IZR M + 1) <= p <= 1.
Proof using shuffle_perm.
  intros HW HM. rewrite permutation_test_R by done. cbv zeta.
  rewrite decide_False by lia. do 3 eexists. split; [reflexivity|].
  pose proof (count_extreme_le languages x W (shuffles (Z.to_nat M) g x).1) as Hc.
  rewrite (proj2 (shuffles_perm _ _ _)) in Hc.
  set (c := count_extreme _ _ _ _) in *.
  rewrite !plus_IZR. 
  assert (0 <= IZR (Z.of_nat c)) as H0 by (apply IZR_le; lia).
  assert (IZR (Z.of_nat c) <= IZR M) as H1 by (apply IZR_le; lia).
  assert (0 <= IZR M) as H2 by (apply IZR_le; lia).
  split.
  - apply Rmult_le_reg_r with (IZR M + 1); [lra|].
    unfold Rdiv. rewrite !Rmult_assoc, Rinv_l by lra. lra.
  - apply Rmult_le_reg_r with (IZR M + 1); [lra|].
    unfold Rdiv. rewrite !Rmult_assoc, Rinv_l by lra. lra.
Qed.

Lemma constant_perm (x y : list Z) : y ≡ₚ x → constant x → constant y.
Proof. intros E Hx v1 v2 H1 H2. apply Hx; by rewrite <- E. Qed.

Lemma calculate_morans_i_constant (languages : list (Language R)) (x : list Z)
    (W : list (list R)) :
  constant x → calculate_morans_i languages x W = Ok (0, 0, 1).
Proof.
  intros Hx. apply calculate_morans_i_degenerate. right.
  by apply constant_sum_sq_dev.
Qed.

Lemma permutation_loop_constant (languages : list (Language R)) (x : list Z)
    (W : list (list R)) (m : nat) (c : Z) (g : G) :
  constant x →
  foldM (fun '(more_extreme, g) (_ : nat) =>
    let '(shuffled_values, g) := shuffle g x in
    '(perm_I, _, _) ← calculate_morans_i languages shuffled_values W;
    if f_leb (f_abs 0) (f_abs perm_I)
    then Ok ((more_extreme + 1)%Z, g)
    else Ok (more_extreme, g)) (c, g) (range m)
  = Ok ((c + Z.of_nat m)%Z, (shuffles m g x).2).
Proof using shuffle_perm.
  intros Hx. revert c g. induction m as [|m IH]; intros c g.
  - cbn. do 2 f_equal. lia.
  - rewrite range_cons. cbn [foldM shuffles].
    pose proof (shuffle_perm g x) as Hp.
    destruct (shuffle g x) as [y g1]. cbn in Hp.
    rewrite (calculate_morans_i_constant languages y W)
      by by apply (constant_perm x).
    cbn [mbind result_bind].
    destruct (shuffles m g1 x) as [ys g2] eqn:Hys. cbn [fst snd].
    Rops. rewrite bool_decide_eq_true_2 by lra. cbn [mbind result_bind].
    rewrite foldM_map by (by intros [? ?] ? ?).
    rewrite IH, Hys. cbn [snd]. do 2 f_equal. lia.
Qed.

(** X10: on a constant value vector [permutation_test] returns the
    statistic 0 and, for [M >= 0], the p-value 1, whatever the weights
    matrix is: every shuffled copy is constant too and counts as at least
    as extreme. *)
Theorem permutation_test_degenerate (languages : list (Language R)) (x : list Z)
    (W : list (list R)) (M : Z) (g : G) :
  constant x →
  (0 ≤ M)%Z →
  permutation_test shuffle languages x W M g
    = Ok (0, 1, (shuffles (Z.to_nat M) g x).2).
Proof using shuffle_perm.
  intros Hx HM. unfold permutation_test.
  rewrite calculate_morans_i_constant by done. cbn [mbind result_bind].
  rewrite permutation_loop_constant by done. cbn [mbind result_bind].
  Rops. rewrite py_div_R by (apply not_0_IZR; lia). cbn.
  do 3 f_equal. rewrite Z2Nat.id by lia. rewrite Z.add_0_l.
  field. apply not_0_IZR. lia.
Qed.

(** ** The analysis of one feature *)

Lemma length_binary_values {F : Type} (tv : list Z) (langs : list (Language F)) :
  length (binary_values tv langs) = length langs.
Proof. unfold binary_values. by rewrite length_map. Qed.

Lemma length_target_langs_le {F : Type} (tv : list Z) (langs : list (Language F)) :
  (length (target_langs tv langs) ≤ length langs)%nat.
Proof. unfold target_langs. apply length_filter. Qed.

(** The branch of [analyze_feature] for five data points or more. *)
Lemma analyze_statistics_R (langs : list (Language R)) (x : list Z) (k : Z)
    (rp : bool) (nt : nat) (M : Z) (g : G) :
  length x = length langs →
  (weights ← compute_spatial_weights langs k true;
   '(morans_i, z_score, p_value) ← calculate_morans_i langs x weights;
   if rp && bool_decide (3 ≤ nt)%nat then
     '(_, perm_p, g) ← permutation_test shuffle langs x weights M g;
     Ok (morans_i, z_score, p_value, Some perm_p, g)
   else Ok (morans_i, z_score, p_value, None, g))
  = let W := weights_matrix langs k true in
    if rp && bool_decide (3 ≤ nt)%nat then
      if decide (M = -1)%Z then Raise ZeroDivisionError
      else Ok (morans_spec x W,
               Some (IZR (Z.of_nat (count_extreme langs x W
                                      (shuffles (Z.to_nat M) g x).1) + 1)
                     / IZR (M + 1)),
               (shuffles (Z.to_nat M) g x).2)
    else Ok (morans_spec x W, None, g).
Proof using shuffle_perm.
  intros Hlen. rewrite compute_spatial_weights_R. cbn [mbind result_bind].
  assert (square (length x) (weights_matrix langs k true)) as HW
    by (rewrite Hlen; apply weights_matrix_square).
  rewrite calculate_morans_i_spec by done. cbn [mbind result_bind]. cbv zeta.
  destruct (morans_spec x _) as [[i z] p].
  destruct (rp && bool_decide (3 ≤ nt)%nat); [|done].
  rewrite permutation_test_R by done. cbv zeta.
  case_decide; done.
Qed.

Lemma target_percentage_R (c : nat) (langs : list (Language R)) :
  py_div (f_of_Z (100 * Z.of_nat c)) (f_of_Z (Z.of_nat (length langs)))
  = if decide (langs = []) then Raise ZeroDivisionError
    else Ok (100 * INR c / INR (length langs)).
Proof.
  Rops. case_decide as E.
  - rewrite E. apply py_div_R0.
  - rewrite py_div_R.
    + by rewrite mult_IZR, <- !INR_IZR_INZ.
    + rewrite <- INR_IZR_INZ. apply not_0_INR. by destruct langs.
Qed.

Lemma analyze_feature_R (fd : FeatureData R) (tv : list Z) (label : string)
    (bs : Baseline R) (k : Z) (rp : bool) (M : Z) (g : G) :
  let langs := languages fd in
  let tl := target_langs tv langs in
  let x := binary_values tv langs in
  let W := weights_matrix langs k true in
  ∃ e, calculate_enrichment tl (b_refugia_percentage bs) = Ok e ∧
    analyze_feature shuffle fd tv label bs k rp M g =
      '(stats, perm_p, g') ←
        (if decide (5 ≤ length langs)%nat then
           if rp && bool_decide (3 ≤ length tl)%nat then
             if decide (M = -1)%Z then Raise ZeroDivisionError
             else Ok (morans_spec x W,
                      Some (IZR (Z.of_nat (count_extreme langs x W
                                             (shuffles (Z.to_nat M) g x).1) + 1)
                            / IZR (M + 1)),
                      (shuffles (Z.to_nat M) g x).2)
           else Ok (morans_spec x W, None, g)
         else Ok ((0, 0, 1), None, g));
      if decide (langs = []) then Raise ZeroDivisionError
      else Ok (mkAnalysis (feature_id fd) (feature_name fd) label tv
                 (length langs) (length tl)
                 (100 * INR (length tl) / INR (length langs)) e
                 stats.1.1 stats.1.2 stats.2 perm_p tl, g').
Proof using shuffle_perm.
  intros langs tl x W.
  destruct (calculate_enrichment_R tl (b_refugia_percentage bs)) as (D & _ & He).
  match type of He with _ = Ok ?v => set (e := v) in *; clearbody e end.
  exists e. split; [exact He|].
  unfold analyze_feature. fold langs. fold (target_langs tv langs). fold tl.
  fold (binary_values tv langs). fold x.
  rewrite He. clear He. cbn [mbind result_bind].
  case_decide as Hn.
  - rewrite analyze_statistics_R by apply length_binary_values. cbv zeta. fold W.
    destruct (rp && bool_decide (3 ≤ length tl)%nat).
    + case_decide; [reflexivity|].
      destruct (morans_spec x W) as [[i z] p]. cbn [mbind result_bind fst snd].
      rewrite target_percentage_R. by case_decide.
    + destruct (morans_spec x W) as [[i z] p]. cbn [mbind result_bind fst snd].
      rewrite target_percentage_R. by case_decide.
  - cbn [mbind result_bind fst snd].
    rewrite target_percentage_R. by case_decide.
Qed.

Lemma filter_Forall_id {A : Type} (P : A → Prop) `{∀ x, Decision (P x)}
    (l : list A) :
  Forall P l → filter P l = l.
Proof.
  induction 1 as [|x l Hx Hl IH]; [done|].
  by rewrite filter_cons_True, IH.
Qed.

Lemma filter_Forall_nil {A : Type} (P : A → Prop) `{∀ x, Decision (P x)}
    (l : list A) :
  Forall (fun x => ¬ P x) l → filter P l = [].
Proof.
  induction 1 as [|x l Hx Hl IH]; [done|].
  by rewrite filter_cons_False.
Qed.

Lemma sum_Z_cons (v : Z) (x : list Z) : sum_Z (v :: x) = (v + sum_Z x)%Z.
Proof. unfold sum_Z at 1. cbn [foldl]. rewrite sum_Z_acc. lia. Qed.

(** The 0/1 vector has as many ones as there are target data points. *)
Lemma sum_Z_binary_values {F : Type} (tv : list Z) (langs : list (Language F)) :
  sum_Z (binary_values tv langs) = Z.of_nat (length (target_langs tv langs)).
Proof.
  unfold binary_values, target_langs.
  induction langs as [|l langs IH]; [done|].
  rewrite filter_cons. cbn [map]. rewrite sum_Z_cons, IH.
  case_decide; cbn [length]; lia.
Qed.

Lemma binary_values_constant {F : Type} (tv : list Z) (langs : list (Language F)) :
  Forall (fun l => value l ∈ tv) langs ∨ Forall (fun l => value l ∉ tv) langs →
  constant (binary_values tv langs).
Proof.
  intros Hall. 
  assert (∃ c, ∀ v, v ∈ binary_values tv langs → v = c) as [c Hc].
  { destruct Hall as [Hall|Hall]; [exists 1%Z | exists 0%Z];
      intros v Hv; unfold binary_values in Hv;
      apply list_elem_of_fmap in Hv as (l & -> & Hl);
      rewrite Forall_forall in Hall; specialize (Hall l Hl); by case_decide. }
  intros v1 v2 H1 H2. by rewrite (Hc v1), (Hc v2).
Qed.

Lemma morans_spec_constant (x : list Z) (W : list (list R)) :
  constant x → morans_spec x W = (0, 0, 1).
Proof.
  intros Hx. unfold morans_spec. cbv zeta. case_decide; [done|].
  by rewrite decide_True by by apply constant_sum_sq_dev.
Qed.

Lemma statistic_constant (languages : list (Language R)) (x : list Z)
    (W : list (list R)) :
  constant x → statistic languages x W = 0.
Proof. intros Hx. unfold statistic. by rewrite calculate_morans_i_constant. Qed.

Lemma count_extreme_constant (languages : list (Language R)) (x : list Z)
    (W : list (list R)) (m : nat) (g : G) :
  constant x → count_extreme languages x W (shuffles m g x).1 = m.
Proof using shuffle_perm.
  intros Hx. destruct (shuffles_perm m g x) as [Hp Hlen].
  unfold count_extreme. rewrite filter_Forall_id; [done|].
  eapply Forall_impl; [exact Hp|]. intros y Hy. cbn beta.
  rewrite !statistic_constant; [lra|by apply (constant_perm x)|done].
Qed.

(** X11: over the reals [analyze_feature] raises in exactly two cases, both
    a [ZeroDivisionError]: an empty language list (the target percentage
    divides by its length), and a permutation test that is run (five data
    points or more, [run_permutation], three target data points or more)
    with [n_permutations = -1]. *)
Theorem analyze_feature_errors (fd : FeatureData R) (tv : list Z)
    (label : string) (bs : Baseline R) (k : Z) (rp : bool) (M : Z) (g : G) :
  let langs := languages fd in
  let failing :=
    langs = [] ∨
    ((5 ≤ length langs)%nat ∧ rp = true ∧
     (3 ≤ length (target_langs tv langs))%nat ∧ M = (-1)%Z) in
  (failing →
     analyze_feature shuffle fd tv label bs k rp M g = Raise ZeroDivisionError) ∧
  (¬ failing →
     ∃ a g', analyze_feature shuffle fd tv label bs k rp M g = Ok (a, g')).
Proof using shuffle_perm.
  cbv zeta.
  destruct (analyze_feature_R fd tv label bs k rp M g) as (e & He & ->).
  set (langs := languages fd). clearbody langs. clear He. split.
  - intros [Hnil|(Hn & -> & Ht & ->)].
    + rewrite Hnil. cbn [length].
      rewrite (decide_False (P := (5 ≤ 0)%nat)) by lia.
      cbn [mbind result_bind]. by rewrite decide_True.
    + rewrite decide_True by done.
      by rewrite (bool_decide_eq_true_2 _ Ht).
  - intros Hok.
    assert (langs ≠ []) as Hnil by (intros E; apply Hok; by left).
    destruct (decide (5 ≤ length langs)%nat) as [Hn|Hn].
    + destruct rp; cbn [andb].
      * case_bool_decide as Ht.
        -- rewrite (decide_False (P := M = (-1)%Z))
             by (intros ->; apply Hok; by right).
           cbn [mbind result_bind]. rewrite (decide_False (P := langs = [])) by done.
           by eexists _, _.
        -- cbn [mbind result_bind]. rewrite (decide_False (P := langs = [])) by done.
           by eexists _, _.
      * cbn [mbind result_bind]. rewrite (decide_False (P := langs = [])) by done.
        by eexists _, _.
    + cbn [mbind result_bind]. rewrite (decide_False (P := langs = [])) by done.
      by eexists _, _.
Qed.

(** X12: when no permutation test is due on a nonempty language list
    ([run_permutation] off, fewer than three target data points, or fewer
    than five data points), [analyze_feature] returns with
    [permutation_p = None] and leaves the generator as it was; with fewer
    than five data points the statistics are the fixed triple (0, 0, 1),
    otherwise they are what [calculate_morans_i] returns for the 0/1
    vector and the inverse-distance weights of [k_neighbors] neighbors. *)
Theorem analyze_feature_without_permutation (fd : FeatureData R) (tv : list Z)
    (label : string) (bs : Baseline R) (k : Z) (rp : bool) (M : Z) (g : G) :
  let langs := languages fd in
  langs ≠ [] →
  rp = false ∨ (length (target_langs tv langs) < 3)%nat ∨ (length langs < 5)%nat →
  ∃ a, analyze_feature shuffle fd tv label bs k rp M g = Ok (a, g) ∧
    a_permutation_p a = None ∧
    ((length langs < 5)%nat →
       (a_morans_i a, a_z_score a, a_p_value a) = (0, 0, 1)) ∧
    ((5 ≤ length langs)%nat →
       ∃ W, compute_spatial_weights langs k true = Ok W ∧
            calculate_morans_i langs (binary_values tv langs) W
            = Ok (a_morans_i a, a_z_score a, a_p_value a)).
Proof using shuffle_perm.
  cbv zeta.
  destruct (analyze_feature_R fd tv label bs k rp M g) as (e & He & ->).
  set (langs := languages fd). clearbody langs. clear He. intros Hnil Hno.
  assert (rp && bool_decide (3 ≤ length (target_langs tv langs))%nat = false
          ∨ (length langs < 5)%nat) as Hno'.
  { destruct Hno as [->|[Ht|Hn]]; [by left| |by right].
    left. rewrite bool_decide_eq_false_2 by lia. by destruct rp. }
  clear Hno. destruct (decide (5 ≤ length langs)%nat) as [Hn|Hn].
  - destruct Hno' as [->|?]; [|lia]. cbn [mbind result_bind].
    rewrite decide_False by done. eexists. split; [reflexivity|].
    cbn [a_permutation_p a_morans_i a_z_score a_p_value].
    split_and!; [done|lia|]. intros _.
    exists (weights_matrix langs k true).
    split; [apply compute_spatial_weights_R|].
    rewrite calculate_morans_i_spec.
    + by destruct (morans_spec _ _) as [[? ?] ?].
    + rewrite length_binary_values. apply weights_matrix_square.
  - cbn [mbind result_bind]. rewrite decide_False by done.
    eexists. split; [reflexivity|].
    cbn [a_permutation_p a_morans_i a_z_score a_p_value].
    split_and!; [done|done|lia].
Qed.

(** X13: when the permutation test is due (five data points or more,
    [run_permutation], three target data points or more) and
    [n_permutations] is not [-1], [analyze_feature] returns the statistics
    of [calculate_morans_i] and the p-value of [permutation_test], both for
    the 0/1 vector and the weights of [compute_spatial_weights]; the
    statistic that [permutation_test] recomputes is the reported one; the
    generator is left where [permutation_test] leaves it. *)
Theorem analyze_feature_with_permutation (fd : FeatureData R) (tv : list Z)
    (label : string) (bs : Baseline R) (k : Z) (rp : bool) (M : Z) (g : G) :
  let langs := languages fd in
  let x := binary_values tv langs in
  (5 ≤ length langs)%nat →
  rp = true →
  (3 ≤ length (target_langs tv langs))%nat →
  M ≠ (-1)%Z →
  ∃ a g' W p,
    analyze_feature shuffle fd tv label bs k rp M g = Ok (a, g') ∧
    compute_spatial_weights langs k true = Ok W ∧
    calculate_morans_i langs x W = Ok (a_morans_i a, a_z_score a, a_p_value a) ∧
    permutation_test shuffle langs x W M g = Ok (a_morans_i a, p, g') ∧
    a_permutation_p a = Some p.
Proof using shuffle_perm.
  cbv zeta. intros Hn -> Ht HM.
  destruct (analyze_feature_R fd tv label bs k true M g) as (e & He & ->).
  set (langs := languages fd) in *. clearbody langs. clear He.
  set (x := binary_values tv langs).
  rewrite decide_True by done. rewrite (bool_decide_eq_true_2 _ Ht).
  cbn [andb]. rewrite decide_False by done. cbn [mbind result_bind].
  rewrite decide_False by (intros E; rewrite E in Hn; cbn in Hn; lia).
  assert (square (length x) (weights_matrix langs k true)) as HW.
  { unfold x. rewrite length_binary_values. apply weights_matrix_square. }
  eexists _, _, (weights_matrix langs k true), _.
  split; [reflexivity|].
  cbn [a_permutation_p a_morans_i a_z_score a_p_value].
  split; [apply compute_spatial_weights_R|].
  pose proof (calculate_morans_i_spec langs x _ HW) as Hcalc.
  split; [|split; [|reflexivity]].
  - rewrite Hcalc. by destruct (morans_spec _ _) as [[? ?] ?].
  - rewrite permutation_test_R by done. cbv zeta.
    rewrite decide_False by done. unfold statistic. rewrite Hcalc.
    by destruct (morans_spec _ _) as [[? ?] ?].
Qed.

(** X14: whenever the language list is nonempty and [n_permutations] is
    not [-1], [analyze_feature] returns a record whose counts agree:
    [target_languages] are the data points with a target value, in their
    order, [target_count] is their number and the sum of the 0/1 vector,
    the enrichment is the one of [calculate_enrichment] on them, and
    [target_percentage] is [100 * target_count / total_languages], between
    0 and 100. *)
Theorem analyze_feature_counts (fd : FeatureData R) (tv : list Z)
    (label : string) (bs : Baseline R) (k : Z) (rp : bool) (M : Z) (g : G) :
  let langs := languages fd in
  langs ≠ [] →
  M ≠ (-1)%Z →
  ∃ a g', analyze_feature shuffle fd tv label bs k rp M g = Ok (a, g') ∧
    a_total_languages a = length langs ∧
    a_target_languages a = target_langs tv langs ∧
    Forall (fun l => value l ∈ tv) (a_target_languages a) ∧
    a_target_count a = length (a_target_languages a) ∧
    Z.of_nat (a_target_count a) = sum_Z (binary_values tv langs) ∧
    calculate_enrichment (a_target_languages a) (b_refugia_percentage bs)
      = Ok (a_enrichment a) ∧
    e_total (a_enrichment a) = a_target_count a ∧
    a_target_percentage a
      = 100 * INR (a_target_count a) / INR (a_total_languages a) ∧
    0 <= a_target_percentage a <= 100.
Proof using shuffle_perm.
  cbv zeta.
  destruct (analyze_feature_R fd tv label bs k rp M g) as (e & He & ->).
  set (langs := languages fd) in *. clearbody langs. intros Hnil HM.
  pose proof (length_target_langs_le tv langs) as Hle.
  assert (0 < length langs)%nat as Hpos by (destruct langs; [done|cbn; lia]).
  assert (Forall (fun l => value l ∈ tv) (target_langs tv langs)) as Htv.
  { unfold target_langs. apply Forall_forall. intros l Hl.
    by apply list_elem_of_filter in Hl as [? _]. }
  pose proof (proj1 (share_bounds (Z.of_nat (length (target_langs tv langs)))
                       (length langs) Hpos ltac:(lia))) as Hb.
  rewrite <- INR_IZR_INZ in Hb.
  assert (e_total e = length (target_langs tv langs)) as Het.
  { destruct (calculate_enrichment_R (target_langs tv langs)
                (b_refugia_percentage bs)) as (D & _ & He').
    rewrite He' in He. by injection He as <-. }
  destruct (decide (5 ≤ length langs)%nat) as [Hn|Hn];
    [destruct (rp && bool_decide _);
       [rewrite (decide_False (P := M = (-1)%Z)) by done|]|].
  all: cbn [mbind result_bind].
  all: rewrite (decide_False (P := langs = [])) by done.
  all: eexists _, _; split; [reflexivity|].
  all: cbn [a_total_languages a_target_languages a_target_count a_enrichment
            a_target_percentage].
  all: split_and!; try done; try apply Hb.
  all: by rewrite sum_Z_binary_values.
Qed.

(** X15: when every data point of a nonempty list carries a target value,
    or none does, the 0/1 vector is constant: for [n_permutations >= 0]
    [analyze_feature] reports the statistics (0, 0, 1), and the
    permutation p-value 1 if the permutation test is due. *)
Theorem analyze_feature_degenerate (fd : FeatureData R) (tv : list Z)
    (label : string) (bs : Baseline R) (k : Z) (rp : bool) (M : Z) (g : G) :
  let langs := languages fd in
  langs ≠ [] →
  (0 ≤ M)%Z →
  Forall (fun l => value l ∈ tv) langs ∨ Forall (fun l => value l ∉ tv) langs →
  ∃ a g', analyze_feature shuffle fd tv label bs k rp M g = Ok (a, g') ∧
    (a_morans_i a, a_z_score a, a_p_value a) = (0, 0, 1) ∧
    a_permutation_p a =
      (if rp && bool_decide (5 ≤ length langs)%nat
          && bool_decide (3 ≤ length (target_langs tv langs))%nat
       then Some 1 else None).
Proof using shuffle_perm.
  cbv zeta.
  destruct (analyze_feature_R fd tv label bs k rp M g) as (e & He & ->).
  set (langs := languages fd) in *. clearbody langs. clear He.
  intros Hnil HM Hall.
  pose proof (binary_values_constant tv langs Hall) as Hc.
  rewrite morans_spec_constant, count_extreme_constant by done.
  rewrite (decide_False (P := M = (-1)%Z)) by lia.
  destruct (decide (5 ≤ length langs)%nat) as [Hn|Hn].
  - rewrite (bool_decide_eq_true_2 _ Hn), andb_true_r.
    destruct (rp && _); cbn [mbind result_bind];
      rewrite (decide_False (P := langs = [])) by done;
      (eexists _, _; split; [reflexivity|]); cbn; split; try done.
    f_equal. rewrite Z2Nat.id by lia. field. apply not_0_IZR. lia.
  - rewrite (bool_decide_eq_false_2 _ Hn), andb_false_r. cbn [andb].
    cbn [mbind result_bind].
    rewrite (decide_False (P := langs = [])) by done.
    by eexists _, _.
Qed.

(** ** The Distance Engine: symmetry and range *)

Lemma hav_a_sym (lat1 lon1 lat2 lon2 : R) :
  hav_a lat1 lon1 lat2 lon2 = hav_a lat2 lon2 lat1 lon1.
Proof.
  unfold hav_a.
  replace ((lat1 - lat2) * (PI / 180) / 2)
    with (- ((lat2 - lat1) * (PI / 180) / 2)) by lra.
  replace ((lon1 - lon2) * (PI / 180) / 2)
    with (- ((lon2 - lon1) * (PI / 180) / 2)) by lra.
  rewrite !sin_neg. ring.
Qed.

Lemma Ratan2_le_half_PI (y x : R) : 0 <= y → 0 <= x → Ratan2 y x <= PI / 2.
Proof.
  intros Hy Hx. unfold Ratan2. pose proof PI_RGT_0.
  repeat case_decide; try lra.
  left. apply atan_bound.
Qed.

(** X16: over the reals the distance is symmetric in its two points. *)
Theorem haversine_distance_symmetric (lat1 lon1 lat2 lon2 : R) :
  haversine_distance lat1 lon1 lat2 lon2 = haversine_distance lat2 lon2 lat1 lon1.
Proof.
  rewrite !haversine_distance_R. unfold great_circle. by rewrite hav_a_sym.
Qed.

(** X17: over the reals the distance never exceeds half the circumference
    of the sphere of radius 6371, whatever the coordinates are (also
    outside the ranges of latitude and longitude). *)
Theorem haversine_distance_range (lat1 lon1 lat2 lon2 : R) :
  ∃ d, haversine_distance lat1 lon1 lat2 lon2 = Ok d ∧ 0 <= d <= 6371 * PI.
Proof.
  exists (great_circle lat1 lon1 lat2 lon2).
  split; [apply haversine_distance_R|].
  split; [apply great_circle_nonneg|].
  unfold great_circle, arc.
  pose proof (hav_a_bounds lat1 lon1 lat2 lon2) as [H0 H1].
  pose proof (Ratan2_le_half_PI (sqrt (hav_a lat1 lon1 lat2 lon2))
                (sqrt (1 - hav_a lat1 lon1 lat2 lon2))
                (sqrt_pos _) (sqrt_pos _)).
  lra.
Qed.

(** ** The Weights Builder: the entries *)

Lemma NoDup_candidates (languages : list (Language R)) (i : nat) :
  NoDup (candidates languages i).*1.
Proof.
  unfold candidates.
  assert (∀ l : list nat, (map (fun j => (j, dist languages i j)) l).*1 = l) as ->.
  { induction l as [|j l IH]; [done|]. cbn. by rewrite IH. }
  apply NoDup_filter, NoDup_seq.
Qed.

Lemma NoDup_neighbors (languages : list (Language R)) (k : Z) (i : nat) :
  NoDup (neighbors languages k i).*1.
Proof.
  unfold neighbors, slice_to.
  assert (NoDup (sort_by_dist (candidates languages i)).*1) as Hs.
  { rewrite sort_by_dist_perm. apply NoDup_candidates. }
  case_decide; rewrite fmap_take;
    exact (sublist_NoDup _ _ Hs (sublist_take _ _)).
Qed.

Lemma assign_row_lookup (b : bool) (row : list R) (nb : list (nat * R))
    (j : nat) (d : R) :
  NoDup nb.*1 → (j, d) ∈ nb → (j < length row)%nat →
  assign_row b row nb !! j = Some (raw_weight b d).
Proof.
  induction nb as [|[j' d'] nb IH] using rev_ind; intros Hnd Hin Hj.
  { by apply elem_of_nil in Hin. }
  rewrite fmap_app, NoDup_app in Hnd. destruct Hnd as (Hnd & Hdis & _).
  rewrite assign_row_snoc. apply elem_of_app in Hin as [Hin|Hin].
  - assert (j ≠ j') as Hne.
    { intros ->. apply (Hdis j').
      + apply list_elem_of_fmap. by exists (j', d).
      + cbn. apply list_elem_of_singleton. done. }
    rewrite list_lookup_insert_ne by done. by apply IH.
  - apply list_elem_of_singleton in Hin as [= -> ->].
    apply list_lookup_insert_eq. by rewrite length_assign_row.
Qed.

Lemma py_sum_insert (l : list R) (j : nat) (w : R) :
  (j < length l)%nat →
  py_sum (<[j := w]> l) = py_sum l - default 0 (l !! j) + w.
Proof.
  revert j. induction l as [|v l IH]; intros j Hj; [cbn in Hj; lia|].
  destruct j as [|j]; simpl.
  - rewrite !py_sum_cons. lra.
  - cbn in Hj. rewrite !py_sum_cons.
    rewrite (IH j) by lia. lra.
Qed.

Lemma py_sum_assign_row (b : bool) (n : nat) (nb : list (nat * R)) :
  NoDup nb.*1 → Forall (fun p => (p.1 < n)%nat) nb →
  py_sum (assign_row b (replicate n 0) nb)
  = py_sum (map (fun p => raw_weight b p.2) nb).
Proof.
  induction nb as [|[j d] nb IH] using rev_ind; intros Hnd Hlt.
  { cbn. apply py_sum_replicate_0. }
  rewrite fmap_app, NoDup_app in Hnd. destruct Hnd as (Hnd & Hdis & _).
  rewrite Forall_app, Forall_singleton in Hlt. destruct Hlt as [Hlt Hj].
  cbn in Hj.
  rewrite assign_row_snoc, map_app. cbn [map snd]. rewrite py_sum_snoc.
  rewrite py_sum_insert by (by rewrite length_assign_row, length_replicate).
  rewrite assign_row_other.
  - rewrite lookup_replicate_2 by done. cbn. rewrite IH by done. lra.
  - apply Forall_forall. intros [j' d'] Hin Heq. cbn in Heq. subst j'.
    apply (Hdis j).
    + apply list_elem_of_fmap. by exists (j, d').
    + cbn. by apply list_elem_of_singleton.
Qed.

Lemma weights_matrix_entry (languages : list (Language R)) (k : Z) (b : bool)
    (i : nat) :
  (i < length languages)%nat →
  let nb := neighbors languages k i in
  let s := py_sum (map (fun p => raw_weight b p.2) nb) in
  (nb ≠ [] → 0 < s) ∧
  (∀ j d, (j, d) ∈ nb →
     entry (weights_matrix languages k b) i j = raw_weight b d / s) ∧
  (∀ j, j ∉ nb.*1 → entry (weights_matrix languages k b) i j = 0).
Proof.
  intros Hi nb s.
  pose proof (NoDup_neighbors languages k i) as Hnd. fold nb in Hnd.
  pose proof (neighbors_lt languages k i) as Hlt. fold nb in Hlt.
  assert (py_sum (raw_row languages k b i) = s) as Hsum.
  { unfold raw_row. fold nb. by apply py_sum_assign_row. }
  assert (nb ≠ [] → 0 < s) as Hpos.
  { intros Hne. rewrite <- Hsum. unfold raw_row. fold nb.
    apply assign_row_sum_pos; [|by rewrite length_replicate|done].
    apply Forall_replicate. lra. }
  unfold entry. rewrite weights_matrix_lookup by done.
  split_and!; [done| |].
  - intros j d Hin.
    assert (j < length languages)%nat as Hj.
    { rewrite Forall_forall in Hlt. apply (Hlt (j, d) Hin). }
    assert (nb ≠ []) as Hne by (intros E; rewrite E in Hin; by apply elem_of_nil in Hin).
    unfold normalize_row. rewrite Hsum, decide_True by auto.
    change (map (fun w => w / s) (raw_row languages k b i))
      with ((fun w => w / s) <$> raw_row languages k b i).
    rewrite list_lookup_fmap. unfold raw_row. fold nb.
    rewrite (assign_row_lookup b _ nb j d) by (by rewrite ?length_replicate).
    done.
  - intros j Hnot.
    destruct (decide (j < length languages)%nat) as [Hj|Hj].
    + rewrite (normalize_row_zero _ j); [done|].
      unfold raw_row. fold nb. rewrite assign_row_other.
      * by apply lookup_replicate_2.
      * apply Forall_forall. intros [j' d'] Hin Heq. cbn in Heq. subst j'.
        apply Hnot. apply list_elem_of_fmap. by exists (j, d').
    + rewrite lookup_ge_None_2; [done|].
      rewrite length_normalize_row, length_raw_row. lia.
Qed.

(** X18: over the reals every entry of the weights matrix has a closed
    form.  In row [i] the entry of a selected neighbor at distance [d] is
    its raw weight ([1 / max(d, 0.1)] in inverse-distance mode, 1 in
    binary mode) divided by the sum of the raw weights of the selected
    neighbors of [i], and is positive; every other entry of the row is 0. *)
Theorem compute_spatial_weights_entries (languages : list (Language R))
    (k : Z) (inverse_distance : bool) :
  ∃ W, compute_spatial_weights languages k inverse_distance = Ok W ∧
    ∀ i, (i < length languages)%nat →
      ∃ nb, neighbors_of languages k i = Ok nb ∧
        let s := py_sum (map (fun p => raw_weight inverse_distance p.2) nb) in
        (∀ j d, (j, d) ∈ nb →
           entry W i j = raw_weight inverse_distance d / s ∧ 0 < entry W i j) ∧
        (∀ j, j ∉ nb.*1 → entry W i j = 0).
Proof.
  exists (weights_matrix languages k inverse_distance).
  split; [apply compute_spatial_weights_R|].
  intros i Hi. exists (neighbors languages k i).
  split; [by apply neighbors_of_R|].
  destruct (weights_matrix_entry languages k inverse_distance i Hi)
    as (Hpos & Hin & Hout).
  cbv zeta. split; [|exact Hout].
  intros j d Hjd. rewrite (Hin j d Hjd). split; [done|].
  apply Rdiv_lt_0_compat; [apply raw_weight_pos|].
  apply Hpos. intros E. rewrite E in Hjd. by apply elem_of_nil in Hjd.
Qed.

Lemma py_sum_map_const {A : Type} (l : list A) (c : R) :
  py_sum (map (fun _ => c) l) = INR (length l) * c.
Proof.
  induction l as [|x l IH]; [cbn; lra|].
  cbn [map]. rewrite py_sum_cons, IH.
  change (length (x :: l)) with (S (length l)). rewrite S_INR. lra.
Qed.

Lemma length_neighbors (languages : list (Language R)) (k : Z) (i : nat) :
  (0 ≤ k)%Z → (i < length languages)%nat →
  length (neighbors languages k i)
  = Z.to_nat (Z.min k (Z.of_nat (length languages) - 1)).
Proof.
  intros Hk Hi. unfold neighbors, slice_to. rewrite decide_True by done.
  rewrite length_take, sort_by_dist_perm, length_candidates by done. lia.
Qed.

(** X19: in binary mode ([inverse_distance = False]) with [k >= 0] the
    row of point [i] holds the same weight [1 / m] at each of its
    [m = min(k, N - 1)] selected neighbors and 0 elsewhere. *)
Theorem compute_spatial_weights_binary (languages : list (Language R)) (k : Z) :
  (0 ≤ k)%Z →
  ∃ W, compute_spatial_weights languages k false = Ok W ∧
    ∀ i, (i < length languages)%nat →
      ∃ nb, neighbors_of languages k i = Ok nb ∧
        length nb = Z.to_nat (Z.min k (Z.of_nat (length languages) - 1)) ∧
        (∀ j, j ∈ nb.*1 → entry W i j = 1 / INR (length nb)) ∧
        (∀ j, j ∉ nb.*1 → entry W i j = 0).
Proof.
  intros Hk. exists (weights_matrix languages k false).
  split; [apply compute_spatial_weights_R|].
  intros i Hi. exists (neighbors languages k i).
  split; [by apply neighbors_of_R|].
  split; [by apply length_neighbors|].
  destruct (weights_matrix_entry languages k false i Hi) as (_ & Hin & Hout).
  cbv zeta in Hin. split; [|exact Hout].
  intros j ([j' d] & -> & Hjd)%list_elem_of_fmap. cbn [fst].
  rewrite (Hin j' d Hjd). cbn [raw_weight].
  rewrite (py_sum_map_const _ 1). by rewrite Rmult_1_r.
Qed.

(** X20: in inverse-distance mode the weights of a row do not increase
    with distance: of two selected neighbors of [i] the nearer one has the
    larger or equal weight, and two neighbors that are both within 0.1 km
    of [i] have equal weights (the distance is floored at 0.1). *)
Theorem compute_spatial_weights_monotone (languages : list (Language R)) (k : Z) :
  ∃ W, compute_spatial_weights languages k true = Ok W ∧
    ∀ i, (i < length languages)%nat →
      ∃ nb, neighbors_of languages k i = Ok nb ∧
        ∀ j1 d1 j2 d2, (j1, d1) ∈ nb → (j2, d2) ∈ nb →
          (d1 <= d2 → entry W i j2 <= entry W i j1) ∧
          (d1 <= 1 / 10 → d2 <= 1 / 10 → entry W i j1 = entry W i j2).
Proof.
  exists (weights_matrix languages k true).
  split; [apply compute_spatial_weights_R|].
  intros i Hi. exists (neighbors languages k i).
  split; [by apply neighbors_of_R|].
  destruct (weights_matrix_entry languages k true i Hi) as (Hpos & Hin & _).
  cbv zeta in Hin, Hpos.
  intros j1 d1 j2 d2 H1 H2. rewrite (Hin j1 d1 H1), (Hin j2 d2 H2).
  assert (0 < py_sum (map (fun p => raw_weight true p.2) (neighbors languages k i)))
    as Hs.
  { apply Hpos. intros E. rewrite E in H1. by apply elem_of_nil in H1. }
  split.
  - intros Hd. apply Rmult_le_compat_r; [left; by apply Rinv_0_lt_compat|].
    by apply raw_weight_antitone.
  - intros Hd1 Hd2. f_equal. cbn [raw_weight].
    assert (∀ d, d <= 1 / 10 → py_max d (1 / 10) = 1 / 10) as Hfloor.
    { intros d Hd. unfold py_max. Rops. case_bool_decide; lra. }
    by rewrite !Hfloor.
Qed.

(** ** The Weights Builder: the selection and the matrix *)

Lemma square_entry_ext (n : nat) (W W' : list (list R)) :
  square n W → square n W' →
  (∀ i j, (i < n)%nat → (j < n)%nat → entry W i j = entry W' i j) →
  W = W'.
Proof.
  intros HW HW' Hent. apply list_eq_same_length with n;
    [apply HW' | apply HW |].
  intros i row row' Hi Hrow Hrow'.
  destruct (square_lookup n W i HW Hi) as (r & Hr & Hlen).
  destruct (square_lookup n W' i HW' Hi) as (r' & Hr' & Hlen').
  rewrite Hrow in Hr. injection Hr as <-.
  rewrite Hrow' in Hr'. injection Hr' as <-.
  apply list_eq_same_length with n; [done | done |].
  intros j w w' Hj Hw Hw'. specialize (Hent i j Hi Hj).
  unfold entry in Hent. rewrite Hrow, Hrow', Hw, Hw' in Hent. exact Hent.
Qed.

Lemma neighbors_take (languages : list (Language R)) (k : Z) (i : nat) :
  (0 ≤ k)%Z → (i < length languages)%nat →
  neighbors languages k i
  = take (Z.to_nat (Z.min k (Z.of_nat (length languages) - 1)))
         (sort_by_dist (candidates languages i)).
Proof.
  intros Hk Hi. unfold neighbors, slice_to. rewrite decide_True by done.
  set (L := sort_by_dist (candidates languages i)).
  assert (HL : length L = (length languages - 1)%nat)
    by (unfold L; by rewrite sort_by_dist_perm, length_candidates).
  destruct (decide (k ≤ Z.of_nat (length languages) - 1)%Z).
  - by rewrite Z.min_l.
  - rewrite Z.min_r by lia. rewrite !take_ge by lia. done.
Qed.

(** C5. For a neighbor count [k >= 0], [compute_spatial_weights] returns
    a square matrix [W] in which, for each point [i], the positive entries
    of row [i] sit exactly at the selected neighbors, and these are the
    first [m = min(k, N-1)] entries of the one arrangement [L] of the
    [N-1] other points by ascending distance with ties broken by ascending
    original index; each such entry is the raw weight of the neighbor over
    the sum of the raw weights of the selected ones.  Consequently the
    matrix is determined: every square matrix whose rows are filled by
    this rule from any such arrangement is [W], and so is the result of
    every call with the same inputs. *)
Theorem neighbors_nearest_first (languages : list (Language R)) (k : Z)
    (inverse_distance : bool) :
  (0 ≤ k)%Z →
  let n := length languages in
  let m := Z.to_nat (Z.min k (Z.of_nat n - 1)) in
  let share (sel : list (nat * R)) (d : R) :=
    raw_weight inverse_distance d
    / py_sum (map (fun p => raw_weight inverse_distance p.2) sel) in
  ∃ W, compute_spatial_weights languages k inverse_distance = Ok W ∧
    square n W ∧
    (∀ i, (i < n)%nat →
       ∃ L,
         L ≡ₚ candidates languages i ∧
         StronglySorted nearer L ∧
         (∀ L', L' ≡ₚ candidates languages i → StronglySorted nearer L' →
                L' = L) ∧
         neighbors_of languages k i = Ok (take m L) ∧
         length (take m L) = m ∧
         (∀ j, 0 < entry W i j ↔ j ∈ (take m L).*1) ∧
         (∀ j, j ∉ (take m L).*1 → entry W i j = 0) ∧
         (∀ j d, (j, d) ∈ take m L → entry W i j = share (take m L) d)) ∧
    (∀ W', square n W' →
       (∀ i, (i < n)%nat →
          ∃ L', L' ≡ₚ candidates languages i ∧ StronglySorted nearer L' ∧
            (∀ j, j ∉ (take m L').*1 → entry W' i j = 0) ∧
            (∀ j d, (j, d) ∈ take m L' → entry W' i j = share (take m L') d)) →
       W' = W) ∧
    (∀ languages' k' b',
       languages' = languages → k' = k → b' = inverse_distance →
       compute_spatial_weights languages' k' b' = Ok W).
Proof.
  intros Hk n m share.
  set (W := weights_matrix languages k inverse_distance).
  assert (HW : square n W) by apply weights_matrix_square.
  assert (Hsorted : ∀ i, StronglySorted nearer (sort_by_dist (candidates languages i)))
    by (intros i; apply sort_by_dist_sorted, candidates_index_sorted).
  assert (Hunique : ∀ i L', L' ≡ₚ candidates languages i →
            StronglySorted nearer L' → L' = sort_by_dist (candidates languages i)).
  { intros i L' Hperm HL'. apply (StronglySorted_unique nearer); [done..|].
    by rewrite Hperm, sort_by_dist_perm. }
  assert (Hrow : ∀ i, (i < n)%nat →
            let sel := take m (sort_by_dist (candidates languages i)) in
            (∀ j, 0 < entry W i j ↔ j ∈ sel.*1) ∧
            (∀ j, j ∉ sel.*1 → entry W i j = 0) ∧
            (∀ j d, (j, d) ∈ sel → entry W i j = share sel d)).
  { intros i Hi sel.
    destruct (weights_matrix_entry languages k inverse_distance i Hi)
      as (Hpos & Hin & Hout). cbv zeta in Hpos, Hin.
    rewrite neighbors_take in Hpos, Hin, Hout by done.
    fold n m sel in Hpos, Hin, Hout. fold W in Hin, Hout.
    split_and!; [|exact Hout|exact Hin].
    intros j. split.
    - intros Hj. destruct (decide (j ∈ sel.*1)) as [|Hnot]; [done|].
      rewrite (Hout j Hnot) in Hj. lra.
    - intros ([j' d] & -> & Hjd)%list_elem_of_fmap. cbn [fst].
      rewrite (Hin j' d Hjd). apply Rdiv_lt_0_compat; [apply raw_weight_pos|].
      apply Hpos. intros E. rewrite E in Hjd. by apply elem_of_nil in Hjd. }
  exists W. split; [apply compute_spatial_weights_R|]. split; [exact HW|].
  split_and!.
  - intros i Hi. exists (sort_by_dist (candidates languages i)).
    destruct (Hrow i Hi) as (H1 & H2 & H3).
    split_and!; [apply sort_by_dist_perm | done | by apply Hunique | | | done..].
    + rewrite neighbors_of_R by done. by rewrite neighbors_take.
    + rewrite length_take, sort_by_dist_perm, length_candidates by done.
      unfold m. fold n. lia.
  - intros W' HW' Hrows. symmetry. apply (square_entry_ext n); [done..|].
    intros i j Hi Hj.
    destruct (Hrows i Hi) as (L' & Hperm & HL' & Hout' & Hin').
    rewrite (Hunique i L' Hperm HL') in Hout', Hin'.
    destruct (Hrow i Hi) as (_ & Hout & Hin).
    destruct (decide (j ∈ (take m (sort_by_dist (candidates languages i))).*1))
      as [([j' d] & -> & Hjd)%list_elem_of_fmap|Hnot].
    + cbn [fst]. by rewrite (Hin j' d Hjd), (Hin' j' d Hjd).
    + by rewrite (Hout j Hnot), (Hout' j Hnot).
  - intros ? ? ? -> -> ->. apply compute_spatial_weights_R.
Qed.

(** ** The Autocorrelation Calculator: recoding the values *)

Lemma sigma_scale (n : nat) (c : R) (f : nat → R) :
  sigma n (fun i => c * f i) = c * sigma n f.
Proof. induction n as [|n IH]; cbn [sigma]; [lra|]. rewrite IH. lra. Qed.

Lemma x_at_map (f : Z → Z) (x : list Z) (i : nat) :
  (i < length x)%nat → x_at (map f x) i = f (x_at x i).
Proof.
  intros Hi. unfold x_at.
  change (map f x) with (f <$> x). rewrite list_lookup_fmap.
  by destruct (lookup_lt_is_Some_2 x i Hi) as [v ->].
Qed.

Lemma sum_Z_affine (a b : Z) (x : list Z) :
  sum_Z (map (fun v => a * v + b)%Z x)
  = (a * sum_Z x + Z.of_nat (length x) * b)%Z.
Proof.
  induction x as [|v x IH]; [unfold sum_Z; cbn; lia|].
  cbn [map]. rewrite !sum_Z_cons, IH. cbn [length]. lia.
Qed.

Lemma recoded_mean (a b : Z) (x : list Z) :
  (0 < length x)%nat →
  mean (map (fun v => a * v + b)%Z x) = IZR a * mean x + IZR b.
Proof.
  intros Hn. unfold mean. rewrite length_map.
  rewrite sum_Z_affine, plus_IZR, !mult_IZR, <- INR_IZR_INZ.
  field. apply not_0_INR. lia.
Qed.

Lemma recoded_dev (a b : Z) (x : list Z) (i : nat) :
  (i < length x)%nat →
  dev (map (fun v => a * v + b)%Z x) i = IZR a * dev x i.
Proof.
  intros Hi. unfold dev. rewrite recoded_mean by lia.
  rewrite x_at_map by done. rewrite plus_IZR, mult_IZR. lra.
Qed.

Lemma recoded_sum_sq_dev (a b : Z) (x : list Z) :
  sum_sq_dev (map (fun v => a * v + b)%Z x) = IZR a ^ 2 * sum_sq_dev x.
Proof.
  unfold sum_sq_dev. rewrite length_map, <- sigma_scale.
  apply sigma_ext. intros i Hi. rewrite recoded_dev by done. ring.
Qed.

Lemma recoded_fourth (a b : Z) (x : list Z) :
  sigma (length x) (fun i => dev (map (fun v => a * v + b)%Z x) i ^ 4)
  = IZR a ^ 4 * sigma (length x) (fun i => dev x i ^ 4).
Proof.
  rewrite <- sigma_scale.
  apply sigma_ext. intros i Hi. rewrite recoded_dev by done. ring.
Qed.

Lemma recoded_cross_product (a b : Z) (x : list Z) (W : list (list R)) :
  cross_product (map (fun v => a * v + b)%Z x) W = IZR a ^ 2 * cross_product x W.
Proof.
  unfold cross_product. rewrite length_map, <- sigma_scale.
  apply sigma_ext. intros i Hi. rewrite <- sigma_scale.
  apply sigma_ext. intros j Hj.
  case_decide; [|lra]. rewrite !recoded_dev by done. ring.
Qed.

Lemma recoded_morans_spec (a b : Z) (x : list Z) (W : list (list R)) :
  a ≠ 0%Z →
  morans_spec (map (fun v => a * v + b)%Z x) W = morans_spec x W.
Proof.
  intros Hz. set (y := map (fun v => a * v + b)%Z x).
  assert (IZR a ≠ 0) as Ha by (by apply not_0_IZR).
  assert (length y = length x) as Hlen by apply length_map.
  unfold morans_spec. cbv zeta. rewrite Hlen.
  case_decide as Hn3; [done|].
  assert (INR (length x) ≠ 0) as Hn by (apply not_0_INR; lia).
  assert (sum_sq_dev y = IZR a ^ 2 * sum_sq_dev x) as Hssd
    by apply recoded_sum_sq_dev.
  rewrite Hssd.
  destruct (decide (sum_sq_dev x = 0)) as [E|E].
  { rewrite E, Rmult_0_r. by rewrite decide_True. }
  rewrite decide_False by (intros E'; apply Rmult_integral in E' as [E'|E'];
                           [apply Ha; nra | done]).
  assert (morans_I y W = morans_I x W) as HI.
  { unfold morans_I. rewrite Hlen, Hssd. unfold y.
    rewrite recoded_cross_product. f_equal. by field. }
  assert (var_C y W = var_C x W) as HC.
  { unfold var_C. by rewrite Hlen. }
  assert (b2 y = b2 x) as Hb2.
  { unfold b2. rewrite Hlen, Hssd. unfold y. rewrite recoded_fourth.
    field. repeat split; done. }
  assert (var_I y W = var_I x W) as HV.
  { unfold var_I. rewrite HC. unfold var_A, var_B. cbv zeta.
    by rewrite Hb2, Hlen. }
  assert (z_score y W = z_score x W) as Hzs.
  { unfold z_score. by rewrite HI, HV, Hlen. }
  by rewrite HI, HC, HV, Hzs.
Qed.

(** X21: over the reals, for a square weights matrix, recoding the value
    vector by [v ↦ a * v + b] with [a ≠ 0] (for instance swapping the
    labels 0 and 1) changes nothing in what [calculate_morans_i] returns:
    statistic, z-score and p-value are the same. *)
Theorem calculate_morans_i_recoding (languages : list (Language R))
    (x : list Z) (W : list (list R)) (a b : Z) :
  square (length x) W →
  a ≠ 0%Z →
  calculate_morans_i languages (map (fun v => a * v + b)%Z x) W
  = calculate_morans_i languages x W.
Proof.
  intros HW Ha.
  rewrite !calculate_morans_i_spec by (by rewrite ?length_map).
  f_equal. by apply recoded_morans_spec.
Qed.

(** ** The Autocorrelation Calculator: a matrix that is too small *)

Lemma foldM_closed {A B : Type} (f : B → A → result B) (l : list A) (e : exn) :
  (∀ b x, x ∈ l → f b x = Raise e ∨ ∃ b', f b x = Ok b') →
  ∀ b, foldM f b l = Raise e ∨ ∃ b', foldM f b l = Ok b'.
Proof.
  induction l as [|x l IH]; intros Hf b; [right; by exists b|].
  cbn [foldM]. destruct (Hf b x) as [->|[b' ->]]; [by left|by left|].
  cbn [mbind result_bind]. apply IH. intros b0 x0 Hx0. apply Hf. by right.
Qed.

Lemma foldM_raise {A B : Type} (f : B → A → result B) (l : list A) (e : exn)
    (x0 : A) :
  x0 ∈ l → (∀ b, f b x0 = Raise e) →
  (∀ b x, x ∈ l → f b x = Raise e ∨ ∃ b', f b x = Ok b') →
  ∀ b, foldM f b l = Raise e.
Proof.
  induction l as [|x l IH]; intros Hin Hx0 Hf b.
  { by apply elem_of_nil in Hin. }
  cbn [foldM]. apply elem_of_cons in Hin as [<-|Hin].
  { by rewrite Hx0. }
  destruct (Hf b x) as [->|[b' ->]]; [by left|done|].
  cbn [mbind result_bind]. apply IH; [done|done|].
  intros b0 x1 Hx1. apply Hf. by right.
Qed.

Lemma get_item2_cases (W : list (list R)) (i j : nat) :
  get_item2 W i j = Raise IndexError ∨ ∃ w, get_item2 W i j = Ok w.
Proof.
  unfold get_item2, get_item. destruct (W !! i) as [row|]; [|by left].
  cbn [mbind result_bind]. destruct (row !! j) as [w|]; [right; by exists w|by left].
Qed.

(** X22: over the reals, when the value vector has three items or more
    and is not constant, a weights matrix with fewer rows than there are
    values makes [calculate_morans_i] raise [IndexError]; no triple is
    returned from a part of the matrix. *)
Theorem calculate_morans_i_short_matrix (languages : list (Language R))
    (x : list Z) (W : list (list R)) :
  (3 ≤ length x)%nat →
  ¬ constant x →
  (length W < length x)%nat →
  calculate_morans_i languages x W = Raise IndexError.
Proof.
  intros Hn3 Hnc Hshort. unfold calculate_morans_i.
  rewrite decide_False by lia.
  assert (HN : IZR (Z.of_nat (length x)) = INR (length x))
    by (symmetry; apply INR_IZR_INZ).
  assert (HN3 : 3 <= INR (length x)) by (rewrite <- HN; apply IZR_le; lia).
  Rops. rewrite HN.
  rewrite (py_div_R (IZR (sum_Z x))) by lra. cbn [mbind result_bind].
  change (IZR (sum_Z x) / INR (length x)) with (mean x).
  rewrite map_map, (py_sum_map_Z (fun v => (IZR v - mean x) ^ 2) x).
  change (sigma (length x) (fun i => (IZR (x_at x i) - mean x) ^ 2))
    with (sum_sq_dev x).
  rewrite bool_decide_eq_false_2
    by (intros E; by apply Hnc, sum_sq_dev_constant).
  match goal with |- foldM ?f ?acc ?l ≫= _ = _ =>
    assert (foldM f acc l = Raise IndexError) as ->; [|reflexivity]
  end.
  remember (length W) as r eqn:Hr.
  assert (∃ j0, (j0 < length x)%nat ∧ r ≠ j0) as (j0 & Hj0 & Hne).
  { destruct (decide (r = 0%nat)); [exists 1%nat | exists 0%nat]; lia. }
  apply (foldM_raise _ _ _ r).
  - apply elem_of_range. done.
  - intros [num Wt]. apply (foldM_raise _ _ _ j0).
    + by apply elem_of_range.
    + intros [num' Wt']. rewrite decide_True by done.
      unfold get_item2, get_item. rewrite (lookup_ge_None_2 W r) by lia.
      reflexivity.
    + intros [num' Wt'] j Hj%elem_of_range. case_decide; [|right; by eexists].
      rewrite !get_item_dev by lia.
      destruct (get_item2_cases W r j) as [->|[w ->]]; [by left|right; by eexists].
  - intros [num Wt] i Hi%elem_of_range. apply foldM_closed.
    intros [num' Wt'] j Hj%elem_of_range. case_decide; [|right; by eexists].
    rewrite !get_item_dev by done.
    destruct (get_item2_cases W i j) as [->|[w ->]]; [by left|right; by eexists].
Qed.

(** ** The Weights Builder: the neighbor count *)

Lemma weights_matrix_ext (languages : list (Language R)) (k k' : Z) (b : bool) :
  (∀ i, (i < length languages)%nat →
        neighbors languages k i = neighbors languages k' i) →
  weights_matrix languages k b = weights_matrix languages k' b.
Proof.
  intros Hnb. unfold weights_matrix. apply map_ext_in.
  intros i Hi%list_elem_of_In%elem_of_range.
  unfold raw_row. by rewrite Hnb.
Qed.

(** X23: a negative [k] is not rejected: the slice [distances[:k]] then
    drops the [-k] farthest candidates, so the matrix is the one for
    [N - 1 + k] neighbors (for no neighbor when that is negative). *)
Theorem compute_spatial_weights_negative_k (languages : list (Language R))
    (k : Z) (inverse_distance : bool) :
  (k < 0)%Z →
  compute_spatial_weights languages k inverse_distance
  = compute_spatial_weights languages
      (Z.max 0 (Z.of_nat (length languages) - 1 + k)) inverse_distance.
Proof.
  intros Hk. rewrite !compute_spatial_weights_R. f_equal.
  apply weights_matrix_ext. intros i Hi.
  unfold neighbors, slice_to.
  rewrite decide_False, decide_True by lia.
  rewrite (Permutation_length (sort_by_dist_perm _)), length_candidates by done.
  f_equal. lia.
Qed.

(** X24: with [k >= N - 1] every other point is a neighbor: all entries
    off the diagonal are positive. *)
Theorem compute_spatial_weights_dense (languages : list (Language R))
    (k : Z) (inverse_distance : bool) :
  (Z.of_nat (length languages) - 1 ≤ k)%Z →
  ∃ W, compute_spatial_weights languages k inverse_distance = Ok W ∧
    ∀ i j, (i < length languages)%nat → (j < length languages)%nat → i ≠ j →
      0 < entry W i j.
Proof.
  intros Hk. exists (weights_matrix languages k inverse_distance).
  split; [apply compute_spatial_weights_R|].
  intros i j Hi Hj Hne.
  destruct (weights_matrix_entry languages k inverse_distance i Hi)
    as (Hpos & Hin & _). cbv zeta in Hpos, Hin.
  assert ((j, dist languages i j) ∈ neighbors languages k i) as Hjd.
  { unfold neighbors, slice_to. rewrite decide_True by lia.
    rewrite take_ge.
    - rewrite sort_by_dist_perm. by apply elem_of_candidates.
    - rewrite (Permutation_length (sort_by_dist_perm _)), length_candidates
        by done. lia. }
  rewrite (Hin _ _ Hjd).
  apply Rdiv_lt_0_compat; [apply raw_weight_pos|].
  apply Hpos. intros E. rewrite E in Hjd. by apply elem_of_nil in Hjd.
Qed.


(** ** The Distance Engine: longitudes and antipodes *)

Lemma sin_sq_shift (t : R) : sin (t + PI) ^ 2 = sin t ^ 2.
Proof. rewrite neg_sin. ring. Qed.

(** X26: over the reals the distance does not change when 360 degrees
    are added to a longitude. *)
Theorem haversine_distance_periodic (lat1 lon1 lat2 lon2 : R) :
  haversine_distance lat1 lon1 lat2 (lon2 + 360)
  = haversine_distance lat1 lon1 lat2 lon2.
Proof.
  rewrite !haversine_distance_R. unfold great_circle, hav_a.
  replace ((lon2 + 360 - lon1) * (PI / 180) / 2)
    with ((lon2 - lon1) * (PI / 180) / 2 + PI) by (field; lra).
  by rewrite sin_sq_shift.
Qed.

(** X27: over the reals two antipodal points are at the distance
    [6371 * pi], the largest the function returns. *)
Theorem haversine_distance_antipodal (lat lon : R) :
  haversine_distance lat lon (- lat) (lon + 180) = Ok (6371 * PI).
Proof.
  rewrite haversine_distance_R. f_equal. unfold great_circle.
  assert (hav_a lat lon (- lat) (lon + 180) = 1) as ->.
  { unfold hav_a.
    replace ((- lat - lat) * (PI / 180) / 2) with (- (lat * (PI / 180))) by lra.
    replace ((lon + 180 - lon) * (PI / 180) / 2) with (PI / 2) by (field; lra).
    replace (- lat * (PI / 180)) with (- (lat * (PI / 180))) by lra.
    rewrite sin_neg, cos_neg, sin_PI2.
    pose proof (sin2_cos2 (lat * (PI / 180))) as Hsc. unfold Rsqr in Hsc.
    nra. }
  unfold arc. rewrite Rminus_diag, sqrt_0, sqrt_1.
  unfold Ratan2. rewrite decide_False by lra. rewrite decide_False by lra.
  rewrite decide_True by lra. field.
Qed.

(** ** The Weights Builder and the Autocorrelation Calculator together *)

Lemma sigma_off_diagonal (n : nat) (i : nat) (f : nat → R) :
  (i < n)%nat →
  sigma n (fun j => if decide (i ≠ j) then f j else 0) = sigma n f - f i.
Proof.
  induction n as [|n IH]; intros Hi; [lia|].
  cbn [sigma]. destruct (decide (i = n)) as [->|Hne].
  - rewrite (decide_False (P := n ≠ n)) by tauto.
    rewrite (sigma_ext n _ f); [lra|].
    intros j Hj. by rewrite decide_True by lia.
  - rewrite (decide_True (P := i ≠ n)) by done. rewrite IH by lia. lra.
Qed.

Lemma sigma_const (n : nat) (c : R) : sigma n (fun _ => c) = INR n * c.
Proof.
  induction n as [|n IH]; [cbn; lra|].
  cbn [sigma]. rewrite IH, S_INR. lra.
Qed.

Lemma weights_matrix_diagonal (languages : list (Language R)) (k : Z) (b : bool)
    (i : nat) :
  (i < length languages)%nat → entry (weights_matrix languages k b) i i = 0.
Proof.
  intros Hi.
  destruct (weights_matrix_entry languages k b i Hi) as (_ & _ & Hout).
  apply Hout. intros ([j d] & Hj & Hin)%list_elem_of_fmap. cbn in Hj. subst j.
  apply neighbors_candidates, elem_of_candidates in Hin as (_ & Hne & _). done.
Qed.

Lemma W_total_weights_matrix (languages : list (Language R)) (k : Z) (b : bool) :
  (1 ≤ k)%Z → (2 ≤ length languages)%nat →
  W_total (length languages) (weights_matrix languages k b)
  = INR (length languages).
Proof.
  intros Hk Hn. unfold W_total.
  rewrite (sigma_ext _ _ (fun _ => 1)).
  - rewrite sigma_const. lra.
  - intros i Hi. rewrite sigma_off_diagonal by done.
    rewrite weights_matrix_row_one by (try apply neighbors_nonempty; done).
    rewrite weights_matrix_diagonal by done. lra.
Qed.

(** X28: for the matrix that [compute_spatial_weights] builds for at
    least three points with [k >= 1], the total weight is [N], so for a
    value vector of that length that is not constant [calculate_morans_i]
    returns the statistic [Σ_i Σ_{j≠i} w_ij d_i d_j / Σ_i d_i²]: the factor
    [N / W_total] is 1. *)
Theorem morans_i_of_built_weights (languages : list (Language R)) (k : Z)
    (inverse_distance : bool) (x : list Z) :
  (1 ≤ k)%Z →
  (3 ≤ length languages)%nat →
  length x = length languages →
  ¬ constant x →
  ∃ W z p,
    compute_spatial_weights languages k inverse_distance = Ok W ∧
    W_total (length x) W = INR (length x) ∧
    calculate_morans_i languages x W
      = Ok (cross_product x W / sum_sq_dev x, z, p).
Proof.
  intros Hk Hn Hlen Hnc.
  pose proof (W_total_weights_matrix languages k inverse_distance Hk
                ltac:(lia)) as HWt.
  rewrite <- Hlen in HWt.
  assert (INR (length x) ≠ 0) as HN by (apply not_0_INR; lia).
  destruct (calculate_morans_i_nondegenerate languages x
              (weights_matrix languages k inverse_distance)) as (z & p & Hcalc).
  - lia.
  - done.
  - rewrite Hlen. apply weights_matrix_square.
  - by rewrite HWt.
  - exists (weights_matrix languages k inverse_distance), z, p.
    split; [apply compute_spatial_weights_R|]. split; [done|].
    assert (sum_sq_dev x ≠ 0) as Hssd
      by (intros E; by apply Hnc, sum_sq_dev_constant).
    rewrite Hcalc. do 3 f_equal. unfold morans_I. rewrite HWt.
    field. by split.
Qed.


End Reals_model.

(** ** Properties that hold in every arithmetic *)

Section Any_arithmetic.
Context {F : Type} `{PyFloat F}.

(** C10. The triple returned by [calculate_morans_i] (or the exception it
    raises) is determined by the value vector and the weights matrix: the
    [languages] argument is never read. *)
Theorem calculate_morans_i_ignores_languages
    (languages1 languages2 : list (Language F)) (values : list Z)
    (weights : list (list F)) :
  calculate_morans_i languages1 values weights
  = calculate_morans_i languages2 values weights.
Proof. reflexivity. Qed.

Lemma coordinates_lookup (languages1 languages2 : list (Language F)) (i : nat) :
  map (fun l => (latitude l, longitude l)) languages1
  = map (fun l => (latitude l, longitude l)) languages2 →
  match languages1 !! i, languages2 !! i with
  | Some l1, Some l2 => latitude l1 = latitude l2 ∧ longitude l1 = longitude l2
  | None, None => True
  | _, _ => False
  end.
Proof.
  intros E. apply (f_equal (fun l => l !! i)) in E.
  change (((fun l => (latitude l, longitude l)) <$> languages1) !! i
          = ((fun l => (latitude l, longitude l)) <$> languages2) !! i) in E.
  rewrite !list_lookup_fmap in E.
  destruct (languages1 !! i), (languages2 !! i); cbn in E; try done.
  by injection E.
Qed.

(** X25: in any arithmetic the weights matrix (or the exception) is
    determined by the coordinates of the data points: two lists with the
    same latitudes and longitudes give the same result, whatever their
    codes, names, values and descriptions are. *)
Theorem compute_spatial_weights_coordinates
    (languages1 languages2 : list (Language F)) (k : Z) (inverse_distance : bool) :
  map (fun l => (latitude l, longitude l)) languages1
  = map (fun l => (latitude l, longitude l)) languages2 →
  compute_spatial_weights languages1 k inverse_distance
  = compute_spatial_weights languages2 k inverse_distance.
Proof.
  intros E.
  assert (length languages1 = length languages2) as Hlen.
  { apply (f_equal length) in E. by rewrite !length_map in E. }
  unfold compute_spatial_weights. rewrite Hlen. f_equal.
  apply foldM_ext. intros weights i _. f_equal.
  unfold neighbors_of, distances_of. rewrite Hlen. f_equal.
  apply foldM_ext. intros distances j _.
  case_decide; [|done]. unfold get_item.
  pose proof (coordinates_lookup _ _ i E) as Hi.
  pose proof (coordinates_lookup _ _ j E) as Hj.
  destruct (languages1 !! i), (languages2 !! i); try done.
  destruct (languages1 !! j), (languages2 !! j); try done.
  cbn [mbind result_bind].
  destruct Hi as [-> ->], Hj as [-> ->]. done.
Qed.


End Any_arithmetic.

(** ** The Distance Engine in binary64 *)

Section Binary64_haversine.
Import PrimFloat.
Variables (libm_sin libm_cos libm_erf : float → float).
Variables (libm_atan2 libm_pow : float → float → float).

(** C6 (where the code departs from it). The square-root arguments are
    not clamped.  For the antipodal points (-8, 0) and (8, 180), with the
    values that the C library returns for the sines, cosines and squares
    involved, the haversine term rounds to 1 + 2^-52, [1 - a] is negative
    and [haversine_distance] raises [ValueError]. *)
Theorem haversine_distance_antipodal_domain_error :
  libm_sin 0x1.1df46a2529d39p-3 = 0x1.1d06c968d9e19p-3%float →
  libm_sin 0x1.921fb54442d18p+0 = 1%float →
  libm_cos (-0x1.1df46a2529d39p-3) = 0x1.fb046a930947ap-1%float →
  libm_cos 0x1.1df46a2529d39p-3 = 0x1.fb046a930947ap-1%float →
  libm_pow 0x1.1d06c968d9e19p-3 2 = 0x1.3d581ca184804p-6%float →
  libm_pow 1 2 = 1%float →
  haversine_distance
    (H := Binary64.B64_float libm_sin libm_cos libm_erf libm_atan2 libm_pow)
    (-8)%float 0%float 8%float 180%float = Raise ValueError.
Proof.
  intros Hs1 Hs2 Hc1 Hc2 Hp1 Hp2.
  unfold haversine_distance. cbn -[py_sqrt].
  rewrite Hs1, Hs2, Hc1, Hc2.
  change (Binary64.of_Z (Z.of_nat 2)) with 2%float.
  rewrite Hp1, Hp2. reflexivity.
Qed.

End Binary64_haversine.

(** ** Instances of the theorems on concrete inputs *)

Lemma reverse_shuffle_perm (g : unit) (x : list Z) : (reverse_shuffle g x).1 ≡ₚ x.
Proof. apply reverse_Permutation. Qed.

Lemma x_clustered_not_constant : ¬ constant x_clustered.
Proof. apply (not_constant_pair _ 1%Z 0%Z); [by repeat constructor..|done]. Qed.

Lemma W_total_line_half : W_total 5 (line_matrix (1 / 2) (1 / 2)) ≠ 0.
Proof. rewrite W_total_line; lra. Qed.

Lemma calculate_morans_i_statistic_witness :
  ∃ I z p,
    calculate_morans_i (H := Rf erf0) [] x_clustered (line_matrix (1 / 2) (1 / 2))
    = Ok (I, z, p) ∧ I = 1 / 3.
Proof.
  destruct (calculate_morans_i_statistic erf0 [] x_clustered
              (line_matrix (1 / 2) (1 / 2))) as (I & z & p & Hcalc & HI).
  - cbn. lia.
  - exact x_clustered_not_constant.
  - apply square_line.
  - exact W_total_line_half.
  - exists I, z, p. split; [exact Hcalc|]. rewrite HI.
    transitivity (morans_I x_clustered (line_matrix (1 / 2) (1 / 2))); [reflexivity|].
    unfold x_clustered. rewrite morans_I_line_clustered; lra.
Defined.

Lemma calculate_morans_i_fallbacks_witness :
  calculate_morans_i (H := Rf erf0) [] [1; 0]%Z [] = Ok (0, 0, 1) ∧
  calculate_morans_i (H := Rf erf0) [] [1; 1; 1]%Z [] = Ok (0, 0, 1).
Proof.
  split.
  - apply (proj1 (calculate_morans_i_fallbacks erf0 [] [1; 0]%Z [])). cbn. lia.
  - apply (proj1 (proj2 (calculate_morans_i_fallbacks erf0 [] [1; 1; 1]%Z []))).
    intros v1 v2 H1 H2.
    repeat (apply elem_of_cons in H1 as [->|H1]);
      repeat (apply elem_of_cons in H2 as [->|H2]);
      try reflexivity; by apply elem_of_nil in H1 || by apply elem_of_nil in H2.
Defined.

Lemma calculate_morans_i_significance_witness :
  ∃ z,
    calculate_morans_i (H := Rf erf0) [] x_clustered (line_matrix (1 / 2) (1 / 2))
    = Ok (morans_I x_clustered (line_matrix (1 / 2) (1 / 2)), z,
          2 * (1 - 1 / 2 * (1 + erf0 (Rabs z / sqrt 2)))).
Proof.
  destruct var_line_half as [HC HV].
  destruct (calculate_morans_i_significance erf0 [] x_clustered
              (line_matrix (1 / 2) (1 / 2))) as (_ & _ & Hcalc).
  - cbn. lia.
  - exact x_clustered_not_constant.
  - apply square_line.
  - exact W_total_line_half.
  - unfold x_clustered. rewrite HC. lra.
  - unfold x_clustered. rewrite HV. lra.
  - eexists. exact Hcalc.
Defined.

Lemma compute_spatial_weights_invariant_witness :
  ∃ M, compute_spatial_weights (H := Rf erf0) (line_points 0) 2 true = Ok M ∧
       sigma 5 (fun j => entry M 0 j) = 1.
Proof.
  destruct (compute_spatial_weights_invariant erf0 (line_points 0) 2 true)
    as (M & HM & _ & _ & _ & _ & _ & Hall & _).
  exists M. split; [exact HM|].
  apply (Hall ltac:(lia) ltac:(cbn; lia) 0%nat ltac:(cbn; lia)).
Defined.

Lemma neighbors_nearest_first_witness :
  ∃ W L, compute_spatial_weights (H := Rf erf0) (line_points 0) 2 true = Ok W ∧
         StronglySorted nearer L ∧
         neighbors_of (H := Rf erf0) (line_points 0) 2 0 = Ok (take 2 L) ∧
         (∀ j, 0 < entry W 0 j ↔ j ∈ (take 2 L).*1).
Proof.
  destruct (neighbors_nearest_first erf0 (line_points 0) 2 true ltac:(lia))
    as (W & HW & _ & Hrows & _).
  destruct (Hrows 0%nat ltac:(cbn; lia))
    as (L & _ & Hsorted & _ & Hnb & _ & Hpos & _).
  exists W, L. split; [exact HW|]. split; [exact Hsorted|].
  split; [exact Hnb | exact Hpos].
Defined.

Section Binary64_instance.
Import PrimFloat.

Lemma haversine_distance_antipodal_domain_error_witness :
  haversine_distance
    (H := Binary64.B64_float Binary64.table_sin Binary64.table_cos
            Binary64.table_sin (fun y _ => y) Binary64.table_pow)
    (-8)%float 0%float 8%float 180%float = Raise ValueError.
Proof.
  apply haversine_distance_antipodal_domain_error; reflexivity.
Defined.

End Binary64_instance.

Lemma permutation_test_p_value_witness :
  ∃ I_obs p g',
    permutation_test (H := Rf erf0) reverse_shuffle [] x_clustered
      (line_matrix (1 / 2) (1 / 2)) 2 tt = Ok (I_obs, p, g') ∧ p ≠ 0.
Proof.
  destruct (permutation_test_p_value erf0 reverse_shuffle reverse_shuffle_perm
              [] x_clustered (line_matrix (1 / 2) (1 / 2)) 2 tt)
    as (perms & g' & I_obs & z & p & _ & _ & _ & _ & Htest & Hp).
  - apply square_line.
  - lia.
  - eexists _, _, _. split; [exact Htest | exact Hp].
Defined.

Lemma invalid_counts_not_rejected_witness :
  (∃ Wm, compute_spatial_weights (H := Rf erf0) (line_points 0) 0 true = Ok Wm ∧
         Wm = replicate 5 (replicate 5 0)) ∧
  (∃ I_obs, permutation_test (H := Rf erf0) reverse_shuffle (line_points 0)
              x_clustered (line_matrix (1 / 2) (1 / 2)) 0 tt
            = Ok (I_obs, 1 / (0 + 1), tt)).
Proof.
  destruct (invalid_counts_not_rejected erf0 reverse_shuffle reverse_shuffle_perm
              (line_points 0) true x_clustered (line_matrix (1 / 2) (1 / 2))
              0 0 tt) as ((Wm & HWm & _ & Hzero) & Hperm & _).
  - apply square_line.
  - lia.
  - lia.
  - split.
    + exists Wm. split; [exact HWm | by apply Hzero].
    + destruct (Hperm ltac:(lia)) as (I_obs & z & p & _ & Htest).
      exists I_obs. exact Htest.
Defined.

(** C8 (as stated) fails: with [k = 0] the builder returns the all-zero
    matrix, and with [M = 0] the tester returns the p-value 1; neither
    raises. *)
Lemma invalid_counts_return_normally :
  compute_spatial_weights (H := Rf erf0)
    [point 0 0; point 0 1] 0 true = Ok [[0; 0]; [0; 0]] ∧
  permutation_test (H := Rf erf0) reverse_shuffle [] [1; 0]%Z [] 0 tt
    = Ok (0, 1 / 1, tt).
Proof.
  split.
  - rewrite compute_spatial_weights_R, weights_matrix_k0. reflexivity.
  - unfold permutation_test.
    rewrite (calculate_morans_i_degenerate erf0 [] [1; 0]%Z [])
      by (left; cbn; lia).
    change (range (Z.to_nat 0)) with (@nil nat).
    cbn [mbind result_bind foldM]. change (0 + 1)%Z with 1%Z.
    rewrite py_div_R by (cbn; lra). reflexivity.
Qed.

Lemma morans_i_line_scenarios_witness :
  ∃ W I_A z_A p_A I_B z_B p_B,
    compute_spatial_weights (H := Rf erf0) (line_points 0) 2 true = Ok W ∧
    calculate_morans_i (H := Rf erf0) (line_points 0) x_clustered W
      = Ok (I_A, z_A, p_A) ∧
    calculate_morans_i (H := Rf erf0) (line_points 0) x_interleaved W
      = Ok (I_B, z_B, p_B) ∧
    3 / 10 < I_A ∧ I_B <= -1 / 4 ∧ I_B < I_A.
Proof.
  destruct (morans_i_line_scenarios erf0 0 ltac:(lra))
    as (W & I_A & z_A & p_A & I_B & z_B & p_B & HW & HA & HB & H1 & HE & H2 & H3).
  exists W, I_A, z_A, p_A, I_B, z_B, p_B.
  rewrite HE in H2. repeat split; assumption.
Defined.

(** ** Instances of the further properties *)

Lemma calculate_baseline_region_counts_witness :
  ∃ b, calculate_baseline (H := Rf erf0) [] = Ok b ∧
       b_region_counts b !! "sahul" = Some 0%Z ∧
       count_regions (H := Rf erf0) [] !! "sahul" = None.
Proof.
  destruct (calculate_baseline_region_counts erf0 []) as (b & Hb & Hkeys & Hloop).
  exists b. split; [exact Hb|]. split.
  - rewrite Hkeys. reflexivity.
  - apply Hloop. reflexivity.
Defined.

Lemma calculate_baseline_percentage_witness :
  (∃ b, calculate_baseline (H := Rf erf0) [] = Ok b ∧
        b_refugia_percentage b = 0) ∧
  (∃ b, calculate_baseline (H := Rf erf0) [point 0 0] = Ok b ∧
        b_refugia_percentage b
        = 100 * IZR (b_refugia_total b) / INR (b_total b)).
Proof.
  split.
  - destruct (calculate_baseline_percentage erf0 []) as (b & Hb & _ & Hnil & _).
    exists b. split; [exact Hb|]. by apply Hnil.
  - destruct (calculate_baseline_percentage erf0 [point 0 0])
      as (b & Hb & _ & _ & Hne).
    exists b. split; [exact Hb|]. by apply Hne.
Defined.

Lemma calculate_enrichment_edges_witness :
  ∃ e, calculate_enrichment (H := Rf erf0) [] 0 = Ok e ∧
       e_non_refugia_percentage e = 100 ∧ e_enrichment_factor e = 0.
Proof.
  destruct (calculate_enrichment_edges erf0 [] 0)
    as (e & He & _ & _ & _ & _ & Hzero & _ & Hnil).
  exists e. split; [exact He|]. split.
  - by apply Hnil.
  - apply Hzero. lra.
Defined.

Lemma region_statistics_order_witness :
  calculate_baseline (H := Rf erf0) [point 0 0; point 40 40]
  = calculate_baseline (H := Rf erf0) [point 40 40; point 0 0].
Proof.
  apply (region_statistics_order (H := Rf erf0)
           [point 0 0; point 40 40] [point 40 40; point 0 0] 0).
  apply perm_swap.
Defined.

Lemma permutation_test_p_bounds_witness :
  ∃ I_obs p g',
    permutation_test (H := Rf erf0) reverse_shuffle [] x_clustered
      (line_matrix (1 / 2) (1 / 2)) 2 tt = Ok (I_obs, p, g') ∧
    1 / (2 + 1) <= p <= 1.
Proof.
  apply (permutation_test_p_bounds erf0 reverse_shuffle reverse_shuffle_perm
           [] x_clustered (line_matrix (1 / 2) (1 / 2)) 2 tt).
  - apply square_line.
  - lia.
Defined.

Lemma constant_ones : constant [1; 1; 1]%Z.
Proof.
  intros v1 v2 H1 H2.
  repeat (apply elem_of_cons in H1 as [->|H1]);
    repeat (apply elem_of_cons in H2 as [->|H2]);
    try reflexivity; by apply elem_of_nil in H1 || by apply elem_of_nil in H2.
Qed.

Lemma permutation_test_degenerate_witness :
  permutation_test (H := Rf erf0) reverse_shuffle [] [1; 1; 1]%Z [] 3 tt
  = Ok (0, 1, tt).
Proof.
  apply (permutation_test_degenerate erf0 reverse_shuffle reverse_shuffle_perm
           [] [1; 1; 1]%Z [] 3 tt).
  - exact constant_ones.
  - lia.
Defined.

Lemma analyze_feature_errors_witness :
  analyze_feature (H := Rf erf0) reverse_shuffle
    (mkFeatureData "81A" "Order of Subject, Object and Verb" [])
    [1%Z] "SOV" (mkBaseline 0 0 0 0 0 0 0 ∅) 5 false 999 tt
  = Raise ZeroDivisionError.
Proof.
  apply (proj1 (analyze_feature_errors erf0 reverse_shuffle reverse_shuffle_perm
                  (mkFeatureData "81A" "Order of Subject, Object and Verb" [])
                  [1%Z] "SOV" (mkBaseline 0 0 0 0 0 0 0 ∅) 5 false 999 tt)).
  by left.
Defined.

Lemma analyze_feature_without_permutation_witness :
  ∃ a, analyze_feature (H := Rf erf0) reverse_shuffle
         (mkFeatureData "81A" "Order of Subject, Object and Verb" [point 0 0])
         [1%Z] "SOV" (mkBaseline 0 0 0 0 0 0 0 ∅) 5 true 999 tt = Ok (a, tt) ∧
       a_permutation_p a = None ∧
       (a_morans_i a, a_z_score a, a_p_value a) = (0, 0, 1).
Proof.
  destruct (analyze_feature_without_permutation erf0 reverse_shuffle
              reverse_shuffle_perm
              (mkFeatureData "81A" "Order of Subject, Object and Verb" [point 0 0])
              [1%Z] "SOV" (mkBaseline 0 0 0 0 0 0 0 ∅) 5 true 999 tt)
    as (a & Ha & Hp & Hsmall & _).
  - done.
  - right. right. cbn. lia.
  - exists a. split; [exact Ha|]. split; [exact Hp|]. apply Hsmall. cbn. lia.
Defined.

Lemma target_langs_line : target_langs [0%Z] (line_points 0) = line_points 0.
Proof.
  unfold target_langs, line_points.
  repeat (rewrite filter_cons_True by (cbn; by apply list_elem_of_singleton)).
  reflexivity.
Qed.

Lemma analyze_feature_with_permutation_witness :
  ∃ a g' p,
    analyze_feature (H := Rf erf0) reverse_shuffle
      (mkFeatureData "81A" "Order of Subject, Object and Verb" (line_points 0))
      [0%Z] "SOV" (mkBaseline 0 0 0 0 0 0 0 ∅) 2 true 2 tt = Ok (a, g') ∧
    a_permutation_p a = Some p.
Proof.
  destruct (analyze_feature_with_permutation erf0 reverse_shuffle
              reverse_shuffle_perm
              (mkFeatureData "81A" "Order of Subject, Object and Verb"
                 (line_points 0))
              [0%Z] "SOV" (mkBaseline 0 0 0 0 0 0 0 ∅) 2 true 2 tt)
    as (a & g' & W & p & Ha & _ & _ & _ & Hp).
  - cbn. lia.
  - reflexivity.
  - cbn [languages]. rewrite target_langs_line. cbn. lia.
  - lia.
  - exists a, g', p. split; [exact Ha | exact Hp].
Defined.

Lemma analyze_feature_counts_witness :
  ∃ a g',
    analyze_feature (H := Rf erf0) reverse_shuffle
      (mkFeatureData "81A" "Order of Subject, Object and Verb" (line_points 0))
      [0%Z] "SOV" (mkBaseline 0 0 0 0 0 0 0 ∅) 2 false 999 tt = Ok (a, g') ∧
    a_total_languages a = 5%nat ∧ 0 <= a_target_percentage a <= 100.
Proof.
  destruct (analyze_feature_counts erf0 reverse_shuffle reverse_shuffle_perm
              (mkFeatureData "81A" "Order of Subject, Object and Verb"
                 (line_points 0))
              [0%Z] "SOV" (mkBaseline 0 0 0 0 0 0 0 ∅) 2 false 999 tt)
    as (a & g' & Ha & Htot & _ & _ & _ & _ & _ & _ & _ & Hb).
  - done.
  - lia.
  - exists a, g'. split; [exact Ha|]. split; [exact Htot | exact Hb].
Defined.

Lemma analyze_feature_degenerate_witness :
  ∃ a g',
    analyze_feature (H := Rf erf0) reverse_shuffle
      (mkFeatureData "81A" "Order of Subject, Object and Verb" (line_points 0))
      [0%Z] "SOV" (mkBaseline 0 0 0 0 0 0 0 ∅) 2 true 2 tt = Ok (a, g') ∧
    (a_morans_i a, a_z_score a, a_p_value a) = (0, 0, 1) ∧
    a_permutation_p a = Some 1.
Proof.
  destruct (analyze_feature_degenerate erf0 reverse_shuffle reverse_shuffle_perm
              (mkFeatureData "81A" "Order of Subject, Object and Verb"
                 (line_points 0))
              [0%Z] "SOV" (mkBaseline 0 0 0 0 0 0 0 ∅) 2 true 2 tt)
    as (a & g' & Ha & Hs & Hp).
  - done.
  - lia.
  - left. cbn [languages]. unfold line_points.
    repeat constructor; cbn; by apply list_elem_of_singleton.
  - exists a, g'. split; [exact Ha|]. split; [exact Hs|].
    rewrite Hp. cbn [languages]. rewrite target_langs_line. reflexivity.
Defined.

Lemma compute_spatial_weights_entries_witness :
  ∃ W nb, compute_spatial_weights (H := Rf erf0) (line_points 0) 2 true = Ok W ∧
    neighbors_of (H := Rf erf0) (line_points 0) 2 0 = Ok nb ∧
    ∀ j, j ∉ nb.*1 → entry W 0 j = 0.
Proof.
  destruct (compute_spatial_weights_entries erf0 (line_points 0) 2 true)
    as (W & HW & Hrows).
  destruct (Hrows 0%nat ltac:(cbn; lia)) as (nb & Hnb & _ & Hout).
  exists W, nb. split; [exact HW|]. split; [exact Hnb | exact Hout].
Defined.

Lemma compute_spatial_weights_binary_witness :
  ∃ W nb, compute_spatial_weights (H := Rf erf0) (line_points 0) 2 false = Ok W ∧
    neighbors_of (H := Rf erf0) (line_points 0) 2 0 = Ok nb ∧
    length nb = 2%nat ∧
    ∀ j, j ∈ nb.*1 → entry W 0 j = 1 / INR (length nb).
Proof.
  destruct (compute_spatial_weights_binary erf0 (line_points 0) 2 ltac:(lia))
    as (W & HW & Hrows).
  destruct (Hrows 0%nat ltac:(cbn; lia)) as (nb & Hnb & Hlen & Hin & _).
  exists W, nb. split; [exact HW|]. split; [exact Hnb|].
  split; [exact Hlen | exact Hin].
Defined.

Lemma compute_spatial_weights_monotone_witness :
  ∃ W nb, compute_spatial_weights (H := Rf erf0) (line_points 0) 2 true = Ok W ∧
    neighbors_of (H := Rf erf0) (line_points 0) 2 0 = Ok nb ∧
    ∀ j1 d1 j2 d2, (j1, d1) ∈ nb → (j2, d2) ∈ nb → d1 <= d2 →
      entry W 0 j2 <= entry W 0 j1.
Proof.
  destruct (compute_spatial_weights_monotone erf0 (line_points 0) 2)
    as (W & HW & Hrows).
  destruct (Hrows 0%nat ltac:(cbn; lia)) as (nb & Hnb & Hmono).
  exists W, nb. split; [exact HW|]. split; [exact Hnb|].
  intros j1 d1 j2 d2 H1 H2. apply (proj1 (Hmono j1 d1 j2 d2 H1 H2)).
Defined.

Lemma calculate_morans_i_recoding_witness :
  calculate_morans_i (H := Rf erf0) [] [0; 0; 0; 1; 1]%Z
    (line_matrix (1 / 2) (1 / 2))
  = calculate_morans_i (H := Rf erf0) [] x_clustered (line_matrix (1 / 2) (1 / 2)).
Proof.
  apply (calculate_morans_i_recoding erf0 [] x_clustered
           (line_matrix (1 / 2) (1 / 2)) (-1) 1).
  - apply square_line.
  - lia.
Defined.

Lemma calculate_morans_i_short_matrix_witness :
  calculate_morans_i (H := Rf erf0) [] x_clustered [[0; 1]; [1; 0]]
  = Raise IndexError.
Proof.
  apply (calculate_morans_i_short_matrix erf0 [] x_clustered [[0; 1]; [1; 0]]).
  - cbn. lia.
  - exact x_clustered_not_constant.
  - cbn. lia.
Defined.

Lemma compute_spatial_weights_negative_k_witness :
  compute_spatial_weights (H := Rf erf0) (line_points 0) (-1) true
  = compute_spatial_weights (H := Rf erf0) (line_points 0) 3 true.
Proof.
  apply (compute_spatial_weights_negative_k erf0 (line_points 0) (-1) true).
  lia.
Defined.

Lemma compute_spatial_weights_dense_witness :
  ∃ W, compute_spatial_weights (H := Rf erf0) (line_points 0) 4 true = Ok W ∧
       0 < entry W 0 4.
Proof.
  destruct (compute_spatial_weights_dense erf0 (line_points 0) 4 true)
    as (W & HW & Hpos).
  - cbn. lia.
  - exists W. split; [exact HW|]. apply Hpos; cbn; lia.
Defined.

Lemma compute_spatial_weights_coordinates_witness :
  compute_spatial_weights (H := Rf erf0)
    [mkLanguage "eng" "English" 52 0 1%Z "SVO";
     mkLanguage "jpn" "Japanese" 36 138 2%Z "SOV"] 1 true
  = compute_spatial_weights (H := Rf erf0) [point 52 0; point 36 138] 1 true.
Proof.
  apply (compute_spatial_weights_coordinates (H := Rf erf0)).
  reflexivity.
Defined.

Lemma morans_i_of_built_weights_witness :
  ∃ W z p,
    compute_spatial_weights (H := Rf erf0) (line_points 0) 2 true = Ok W ∧
    calculate_morans_i (H := Rf erf0) (line_points 0) x_clustered W
      = Ok (cross_product x_clustered W / sum_sq_dev x_clustered, z, p).
Proof.
  destruct (morans_i_of_built_weights erf0 (line_points 0) 2 true x_clustered)
    as (W & z & p & HW & _ & Hcalc).
  - lia.
  - cbn. lia.
  - reflexivity.
  - exact x_clustered_not_constant.
  - exists W, z, p. split; [exact HW | exact Hcalc].
Defined.

